(** * Movie image fetcher: candidate acquisition and ranking

  A shallow embedding of the landscape pipeline of [posters.py]
  ([infer_ext], the source escalation, the de-duplication loop and the
  ranking loop of [fetch_best_landscape_any]) and of the helpers that
  [download-images/script.py] shares with it, together with the
  properties the specification states about them.

  Conventions of the embedding.
  - Python [str] is [string], each character standing for its code
    point: the programs are followed on the strings whose code points are
    below 256.  [str.lower], [str.strip] and the classes [\s] and [\d]
    are Python's on these code points (capital letters A-Z, À-Ö and Ø-Þ;
    white space 9-13, 28-32, U+0085 and U+00A0; digits 0-9); the letters
    of the patterns, also under [re.I], are ASCII.
  - Python [bytes] is [list Byte.byte].
  - The network ([fetch_image_and_dims], the search back ends) and the
    image scorer ([score_landscape], which decodes pixels and calls
    [math.log]) are parameters of the sections below.  A score is a
    finite binary64 value; it is carried as the rational number it
    denotes, on which the float comparison [<] is the rational one.
  - The aspect-ratio test [w / h < 1.2] and the colour conversion are
    evaluated in binary64, on primitive floats; [x ** y] is a parameter,
    and the binary64 operations are reasoned about through [SpecFloat],
    with the value of a number as a rational. *)

From Stdlib Require Import Ascii String QArith Qpower Lqa Floats.
From stdpp Require Import base list strings pretty gmap.

Set Warnings "-inexact-float,-clear-no-such-hyp".
Local Open Scope string_scope.
Local Open Scope list_scope.
Local Open Scope nat_scope.

(** ** Python built-ins *)

Module Py.

Definition bytes := list Byte.byte.

(** A [str] is the string of its code points, for the strings whose code
    points are all below 256.

    [c.lower()] on one character: below 256 the capital letters are A-Z,
    À-Ö and Ø-Þ (codes 192-214 and 216-222), and the small letter of each
    is 32 places up. *)
Definition ascii_lower (c : ascii) : ascii :=
  let n := nat_of_ascii c in
  if ((65 <=? n)%nat && (n <=? 90)%nat)
     || ((192 <=? n)%nat && (n <=? 222)%nat && negb (n =? 215)%nat)
  then ascii_of_nat (n + 32) else c.

(** [s.lower()] *)
Fixpoint lower (s : string) : string :=
  match s with
  | EmptyString => EmptyString
  | String c r => String (ascii_lower c) (lower r)
  end.

(** [needle in hay] on strings. *)
Fixpoint str_in (needle hay : string) : bool :=
  String.prefix needle hay ||
  match hay with
  | EmptyString => false
  | String _ r => str_in needle r
  end.

(** Truth value of an [Optional[str]]: [None] and the empty string are
    false. *)
Definition truthy (o : option string) : bool :=
  match o with
  | Some (String _ _) => true
  | _ => false
  end.

(** *** The regular expression [\.(jpe?g|png|webp)(?:\?|$)] with [re.I] *)

(** A literal matched case-insensitively at the head of [s]: the text it
    consumed and what follows. *)
Fixpoint match_lit_i (lit s : string) : option (string * string) :=
  match lit, s with
  | EmptyString, _ => Some (EmptyString, s)
  | String a lit', String c s' =>
      if Ascii.eqb (ascii_lower c) a then
        match match_lit_i lit' s' with
        | Some (g, r) => Some (String c g, r)
        | None => None
        end
      else None
  | String _ _, EmptyString => None
  end.

(** [(?:\?|$)]: a question mark, the end of the string, or (Python's [$])
    the position just before a final newline. *)
Definition match_tail (s : string) : bool :=
  match s with
  | EmptyString => true
  | String c r =>
      if Ascii.eqb c "?" then true
      else if Ascii.eqb c "010" then
        match r with EmptyString => true | _ => false end
      else false
  end.

(** The alternatives of group 1 in the order the backtracking matcher
    tries them: [jpe?g] with the greedy [e?] taken, then skipped, then
    [png], then [webp]. *)
Definition ext_alts : list string := ["jpeg"; "jpg"; "png"; "webp"].

Fixpoint first_alt (alts : list string) (s : string) : option string :=
  match alts with
  | [] => None
  | a :: alts' =>
      match match_lit_i a s with
      | Some (g, r) => if match_tail r then Some g else first_alt alts' s
      | None => first_alt alts' s
      end
  end.

(** A match of the whole pattern starting exactly at the head of [s]. *)
Definition match_at (s : string) : option string :=
  match s with
  | String c r => if Ascii.eqb c "." then first_alt ext_alts r else None
  | EmptyString => None
  end.

(** [re.search(pattern, s, flags=re.I)]: the leftmost match; the result
    is [m.group(1)]. *)
Fixpoint re_search_ext (s : string) : option string :=
  match match_at s with
  | Some g => Some g
  | None =>
      match s with
      | EmptyString => None
      | String _ r => re_search_ext r
      end
  end.

(** *** More of [str] and [re]

    Whitespace, for [str.strip] and for [\s] in a [str] pattern, is
    Python's whitespace among the code points below 256: tab, line feed,
    vertical tab, form feed, carriage return, the four separators FS, GS,
    RS, US, the space, the next-line control U+0085 and the no-break space
    U+00A0. *)
Definition is_space (c : ascii) : bool :=
  let n := nat_of_ascii c in
  ((9 <=? n)%nat && (n <=? 13)%nat) || ((28 <=? n)%nat && (n <=? 32)%nat)
  || (n =? 133)%nat || (n =? 160)%nat.

(** [s.lstrip()], [s.rstrip()] and [s.strip()] *)
Fixpoint lstrip (s : string) : string :=
  match s with
  | EmptyString => EmptyString
  | String c r => if is_space c then lstrip r else s
  end.

Fixpoint rstrip (s : string) : string :=
  match s with
  | EmptyString => EmptyString
  | String c r =>
      match rstrip r with
      | EmptyString => if is_space c then EmptyString else String c EmptyString
      | r' => String c r'
      end
  end.

Definition strip (s : string) : string := rstrip (lstrip s).

(** [re.sub(r"\s+", repl, s)]: every maximal run of whitespace becomes
    [repl]; [in_run] tells that the run the scan is in was replaced
    already. *)
Fixpoint re_sub_spaces (repl : string) (in_run : bool) (s : string) : string :=
  match s with
  | EmptyString => EmptyString
  | String c r =>
      if is_space c then
        if in_run then re_sub_spaces repl true r
        else repl +:+ re_sub_spaces repl true r
      else String c (re_sub_spaces repl false r)
  end.

(** [re.sub("[...]", "", s)] for a class of literal characters. *)
Fixpoint re_sub_class (class : list ascii) (s : string) : string :=
  match s with
  | EmptyString => EmptyString
  | String c r =>
      if bool_decide (c ∈ class) then re_sub_class class r
      else String c (re_sub_class class r)
  end.

(** [s.startswith(p)] *)
Definition startswith (s p : string) : bool := String.prefix p s.

(** The loops of the form
    [for x in xs: try: ... return v ... except Exception: continue],
    followed by a return of "nothing": [body x] is [Some v] when the
    body returns [v] and [None] when it falls through or raises.  The
    second component lists the elements the body was run on. *)
Fixpoint for_first {A B : Type} (body : A → option B) (xs : list A)
  : option B * list A :=
  match xs with
  | [] => (None, [])
  | x :: rest =>
      match body x with
      | Some v => (Some v, [x])
      | None => let '(r, seen) := for_first body rest in (r, x :: seen)
      end
  end.

(** *** The suggestion feed

    An entry of the JSON list under ["d"], with the keys the programs
    read; a key that is absent is [None].  The feed itself is the
    dictionary or [None]; its ["d"] may be absent. *)
Record suggestion : Type := Suggestion {
  s_id : option string;        (* ["id"] *)
  s_qid : option string;       (* ["qid"] *)
  s_q : option string;         (* ["q"] *)
  s_l : option string;         (* ["l"] *)
  s_y : option Z;              (* ["y"] *)
  s_image_url : option string  (* ["i"]["imageUrl"] *)
}.

Definition feed : Type := option (option (list suggestion)).

(** [(js or {}).get("d", [])] *)
Definition feed_items (js : feed) : list suggestion :=
  match js with
  | Some (Some d) => d
  | _ => []
  end.

(** [v in words] for a value that may be [None]. *)
Definition among (v : option string) (words : list string) : bool :=
  match v with
  | Some s => bool_decide (s ∈ words)
  | None => false
  end.

(** The order of the sort keys [(exact, starts, year)]: tuples compare
    component by component, [False < True]. *)
Definition bool_lt (a b : bool) : bool := negb a && b.

Definition key_lt (a b : bool * bool * Z) : bool :=
  let '(e1, s1, y1) := a in
  let '(e2, s2, y2) := b in
  bool_lt e1 e2
  || (Bool.eqb e1 e2 && (bool_lt s1 s2 || (Bool.eqb s1 s2 && (y1 <? y2)%Z))).

(** [l.sort(key=key, reverse=True)]: the sort is stable, so entries with
    equal keys keep their order; [insert_reverse] puts [x] in front of a
    sorted list of entries that came after it. *)
Fixpoint insert_reverse {A : Type} (key : A → bool * bool * Z) (x : A)
  (sorted : list A) : list A :=
  match sorted with
  | [] => [x]
  | y :: rest =>
      if key_lt (key x) (key y) then y :: insert_reverse key x rest
      else x :: sorted
  end.

Definition sort_reverse {A : Type} (key : A → bool * bool * Z) (l : list A)
  : list A :=
  foldr (insert_reverse key) [] l.

(** *** Pieces of the patterns for image URLs *)

(** [$]: the end of the string, or the position before a final newline. *)
Definition at_end (s : string) : bool :=
  match s with
  | EmptyString => true
  | String c r =>
      Ascii.eqb c "010" && match r with EmptyString => true | _ => false end
  end.

(** [[^.]*], greedy: the longest prefix without a dot, and what follows. *)
Fixpoint span_no_dot (s : string) : string * string :=
  match s with
  | EmptyString => (EmptyString, EmptyString)
  | String c r =>
      if Ascii.eqb c "." then (EmptyString, s)
      else let '(a, b) := span_no_dot r in (String c a, b)
  end.

(** [.*], greedy: the longest prefix without a newline, and what follows. *)
Fixpoint span_line (s : string) : string * string :=
  match s with
  | EmptyString => (EmptyString, EmptyString)
  | String c r =>
      if Ascii.eqb c "010" then (EmptyString, s)
      else let '(a, b) := span_line r in (String c a, b)
  end.

(** The optional group of a question mark and [.*], and then [$], at
    [s]: the text of the group, empty when the group took no part in the
    match.  A shorter [.*] leaves a character that is not a newline in
    front of [$], so only the longest one can succeed. *)
Definition match_qs_end (s : string) : option string :=
  let without := if at_end s then Some EmptyString else None in
  match s with
  | String c r =>
      if Ascii.eqb c "?" then
        let '(q, rem) := span_line r in
        if at_end rem then Some (String c q) else without
      else without
  | EmptyString => without
  end.

(** The extension group [(jpe?g|png|webp)], the optional query string
    and [$] at [s], with [re.I]: the texts of the two groups. *)
Fixpoint first_ext_qs (alts : list string) (s : string)
  : option (string * string) :=
  match alts with
  | [] => None
  | a :: alts' =>
      match match_lit_i a s with
      | Some (g, r) =>
          match match_qs_end r with
          | Some qs => Some (g, qs)
          | None => first_ext_qs alts' s
          end
      | None => first_ext_qs alts' s
      end
  end.

(** The same after the dot [\.]. *)
Definition match_dot_ext_qs (s : string) : option (string * string) :=
  match s with
  | String c r => if Ascii.eqb c "." then first_ext_qs ext_alts r else None
  | EmptyString => None
  end.

(** *** Exceptions

    The result of a call that may let an exception escape. *)
Inductive outcome (A : Type) : Type :=
  | Returns (a : A)
  | Raises.
Arguments Returns {A} a.
Arguments Raises {A}.

(** *** More of [str] *)

(** [s[n:]] *)
Fixpoint str_drop (n : nat) (s : string) : string :=
  match n, s with
  | S k, String _ r => str_drop k r
  | _, _ => s
  end.

(** The text before the first occurrence of [sep] in [s] and the text
    after it. *)
Fixpoint find_split (sep s : string) : option (string * string) :=
  if String.prefix sep s then Some (EmptyString, str_drop (String.length sep) s)
  else
    match s with
    | EmptyString => None
    | String c r =>
        match find_split sep r with
        | Some (a, b) => Some (String c a, b)
        | None => None
        end
    end.

(** [re.split("(sep)", s, maxsplit=1)] for a literal [sep]: the texts
    around the first occurrence and, because of the group, the separator
    between them. *)
Definition re_split_group_once (sep s : string) : list string :=
  match find_split sep s with
  | Some (a, b) => [a; sep; b]
  | None => [s]
  end.

(** [s.split(sep, 1)] *)
Definition split_once (sep s : string) : list string :=
  match find_split sep s with
  | Some (a, b) => [a; b]
  | None => [s]
  end.

(** [s.replace(old, new)] for a non-empty [old]: the occurrences of
    [old] are replaced from left to right; [skip] counts the characters of
    an occurrence that are still to be passed over. *)
Fixpoint str_replace_from (old new : string) (skip : nat) (s : string) : string :=
  match s with
  | EmptyString => EmptyString
  | String c r =>
      match skip with
      | S k => str_replace_from old new k r
      | O =>
          if String.prefix old s
          then new +:+ str_replace_from old new (String.length old - 1) r
          else String c (str_replace_from old new 0 r)
      end
  end.

Definition str_replace (old new s : string) : string :=
  str_replace_from old new 0 s.

(** [s[:n]] *)
Fixpoint str_take (n : nat) (s : string) : string :=
  match n, s with
  | S k, String c r => String c (str_take k r)
  | _, _ => EmptyString
  end.

(** [if u not in urls: urls.append(u)] *)
Definition append_new (urls : list string) (u : string) : list string :=
  if bool_decide (u ∈ urls) then urls else urls ++ [u].

(** [\d], whose only characters below 256 are 0-9, and the digits a
    string starts with, with what follows them. *)
Definition is_digit (c : ascii) : bool :=
  let n := nat_of_ascii c in (48 <=? n)%nat && (n <=? 57)%nat.

Fixpoint span_digits (s : string) : string * string :=
  match s with
  | EmptyString => (EmptyString, EmptyString)
  | String c r =>
      if is_digit c
      then let '(d, rest) := span_digits r in (String c d, rest)
      else (EmptyString, s)
  end.

(** [f'"{s}"']: [s] between double quotes. *)
Definition quoted (s : string) : string :=
  String "034" (s +:+ String "034" EmptyString).

End Py.

(** ** [posters.py] *)

Module Posters.
Import Py.

(** [infer_ext(url, content_type)] *)
Definition infer_ext (url : string) (content_type : option string) : string :=
  let from_url :=
    match re_search_ext url with
    | Some g => "." +:+ lower g
    | None => ".jpg"
    end in
  if truthy content_type then
    let ct := lower (default "" content_type) in
    if str_in "png" ct then ".png"
    else if str_in "webp" ct then ".webp"
    else if str_in "jpeg" ct || str_in "jpg" ct then ".jpg"
    else from_url
  else from_url.

Definition MIN_LANDSCAPE_WIDTH : Z := 1280.

(** *** Numbers

    [w] and [h] are Python ints (pixel sizes); [w / h] is their true
    division, the binary64 number nearest to the quotient, which for sizes
    below 2^53 is the binary64 division of the two converted ints. *)
Definition float_of_int (z : Z) : float := PrimFloat.of_uint63 (Uint63.of_Z z).

Definition aspect (w h : Z) : float := (float_of_int w / float_of_int h)%float.

(** [ar < 1.2] *)
Definition too_narrow (w h : Z) : bool := (aspect w h <? 1.2)%float.

(** The binary64 value of the literal [0.3], as a rational. *)
Definition good_enough_score : Q := 5404319552844595 # 18014398509481984.

(** [x < y] on scores. *)
Definition score_lt (x y : Q) : bool :=
  (Qnum x * Zpos (Qden y) <? Qnum y * Zpos (Qden x))%Z.

(** *** Colour: sRGB to CIE Lab

    [x ** y] on floats is the C library's [pow], which IEEE 754 does not
    fix to the last bit; it is a parameter here. *)
Section Colour.
Variable pow : float → float → float.

Definition srgb_to_linear (c : float) : float :=
  let c := (c / 255.0)%float in
  if (c <=? 0.04045)%float then (c / 12.92)%float
  else pow ((c + 0.055) / 1.055)%float 2.4%float.

Definition rgb_to_xyz (r g b : Z) : float * float * float :=
  let R := srgb_to_linear (float_of_int r) in
  let G := srgb_to_linear (float_of_int g) in
  let B := srgb_to_linear (float_of_int b) in
  let X := (R * 0.4124 + G * 0.3576 + B * 0.1805)%float in
  let Y := (R * 0.2126 + G * 0.7152 + B * 0.0722)%float in
  let Z := (R * 0.0193 + G * 0.1192 + B * 0.9505)%float in
  (X, Y, Z).

Definition f_lab (t : float) : float :=
  let eps := (216 / 24389)%float in
  let kappa := (24389 / 27)%float in
  if (eps <? t)%float then pow t (1 / 3)%float
  else ((kappa * t + 16) / 116)%float.

Definition xyz_to_lab (X Y Z : float) : float * float * float :=
  let Xn := 0.95047%float in
  let Yn := 1.00000%float in
  let Zn := 1.08883%float in
  let fx := f_lab (X / Xn)%float in
  let fy := f_lab (Y / Yn)%float in
  let fz := f_lab (Z / Zn)%float in
  let L := (116 * fy - 16)%float in
  let a := (500 * (fx - fy))%float in
  let b := (200 * (fy - fz))%float in
  (L, a, b).

(** The tail of [avg_color_lab], from the truncated channel averages. *)
Definition lab_of_rgb (r g b : Z) : float * float * float :=
  let '(X, Y, Z) := rgb_to_xyz r g b in
  xyz_to_lab X Y Z.

End Colour.

(** *** The five search back ends, in the order they are asked *)
Inductive source : Type :=
  | MovieDatabases
  | FreeImageApis
  | Google
  | DuckDuckGo
  | Bing.

(** *** The state of the ranking loop

    [best] is the tuple [(score, data, ext)] or [None]; [fetched] is not a
    variable of the program: it records, oldest first, the URLs handed to
    [fetch_image_and_dims]. *)
Record scan_state : Type := ScanState {
  best : option (Q * bytes * string);
  checked : nat;
  valid_candidates : nat;
  fetched : list string
}.

Definition scan_init : scan_state :=
  {| best := None; checked := 0; valid_candidates := 0; fetched := [] |}.

(** Why the loop body left the loop. *)
Inductive stop : Type :=
  | GoodEnough   (* "Found a good candidate, stopping search early." *)
  | SafetyCap.   (* [checked >= 100] *)

(** What one run of the loop body does to the loop. *)
Inductive flow : Type :=
  | Next (st : scan_state)               (* fall through or [continue] *)
  | Break (why : stop) (st : scan_state)
  | Raise (st : scan_state).             (* [ZeroDivisionError] of [w / h] *)

(** How the loop ended. *)
Inductive ending : Type :=
  | Exhausted (st : scan_state)
  | Stopped (why : stop) (st : scan_state)
  | Crashed (st : scan_state).

Definition final_state (e : ending) : scan_state :=
  match e with
  | Exhausted st | Stopped _ st | Crashed st => st
  end.

(** What a call returns: the pair [(data, ext)], the pair [(None, None)],
    or it does not return because an exception escaped. *)
Inductive result : Type :=
  | Returned (r : option (bytes * string))
  | Raised.

Definition with_fetched (url : string) (st : scan_state) : scan_state :=
  {| best := best st; checked := checked st;
     valid_candidates := valid_candidates st;
     fetched := fetched st ++ [url] |}.

Definition with_checked (st : scan_state) : scan_state :=
  {| best := best st; checked := S (checked st);
     valid_candidates := valid_candidates st;
     fetched := fetched st |}.

Definition with_valid (st : scan_state) : scan_state :=
  {| best := best st; checked := checked st;
     valid_candidates := S (valid_candidates st);
     fetched := fetched st |}.

Definition with_best (b : Q * bytes * string) (st : scan_state) : scan_state :=
  {| best := Some b; checked := checked st;
     valid_candidates := valid_candidates st;
     fetched := fetched st |}.

(** [best is None or score < best[0]] *)
Definition improves (score : Q) (b : option (Q * bytes * string)) : bool :=
  match b with
  | None => true
  | Some (s, _, _) => score_lt score s
  end.

(** [best and best[0] < 0.3 and valid_candidates >= 2] *)
Definition good_enough (st : scan_state) : bool :=
  match best st with
  | None => false
  | Some (s, _, _) => score_lt s good_enough_score && (2 <=? valid_candidates st)%nat
  end.

Section Landscape.

(** The search back ends: what each answers for a title (and a result cap). *)
Variable try_movie_databases : string → list string.
Variable try_free_image_apis : string → list string.
Variable google_image_search_any : string → nat → list string.
Variable ddg_image_search_any : string → nat → list string.
Variable bing_image_search_any : string → nat → list string.

(** The download: [(data, w, h, ct)], or [None] when it raises. *)
Variable fetch_image_and_dims : string → option (bytes * Z * Z * string).

(** The scorer, for the poster colour of the run. *)
Variable score_landscape : bytes → Z → Z → Q.

(** Lines 493-515: escalate through the sources.  The second component
    lists the back ends that were called. *)
Definition collect (title : string) : list string * list source :=
  let probe := try_movie_databases title in
  let asked := [MovieDatabases] in
  let '(probe, asked) :=
    if (length probe <? 10)%nat
    then (probe ++ try_free_image_apis title, asked ++ [FreeImageApis])
    else (probe, asked) in
  let '(probe, asked) :=
    if (length probe <? 20)%nat
    then (probe ++ google_image_search_any title 30, asked ++ [Google])
    else (probe, asked) in
  let '(probe, asked) :=
    if (length probe <? 30)%nat
    then (probe ++ ddg_image_search_any title 20, asked ++ [DuckDuckGo])
    else (probe, asked) in
  let '(probe, asked) :=
    if (length probe <? 40)%nat
    then (probe ++ bing_image_search_any title 20, asked ++ [Bing])
    else (probe, asked) in
  (probe, asked).

(** Lines 517-523: the loop over [probe] with its two accumulators. *)
Fixpoint dedup_loop (seen : gset string) (ordered probe : list string)
  : list string :=
  match probe with
  | [] => ordered
  | u :: rest =>
      if decide (u ∈ seen) then dedup_loop seen ordered rest
      else dedup_loop ({[u]} ∪ seen) (ordered ++ [u]) rest
  end.

Definition dedup (probe : list string) : list string := dedup_loop ∅ [] probe.

(** Lines 535-571: one run of the loop body. *)
Definition scan_step (min_width : Z) (st : scan_state) (url : string) : flow :=
  let st := with_fetched url st in
  match fetch_image_and_dims url with
  | None => Next st
  | Some (data, w, h, ct) =>
      let st := with_checked st in
      if (w <? min_width)%Z then Next st
      else if (h =? 0)%Z then Raise st
      else if too_narrow w h then Next st
      else
        let st := with_valid st in
        let score := score_landscape data w h in
        let st :=
          if improves score (best st)
          then with_best (score, data, infer_ext url (Some ct)) st
          else st in
        if good_enough st then Break GoodEnough st
        else if (100 <=? checked st)%nat then Break SafetyCap st
        else Next st
  end.

(** The [for] loop. *)
Fixpoint scan_loop (min_width : Z) (st : scan_state) (ordered : list string)
  : ending :=
  match ordered with
  | [] => Exhausted st
  | url :: rest =>
      match scan_step min_width st url with
      | Next st' => scan_loop min_width st' rest
      | Break why st' => Stopped why st'
      | Raise st' => Crashed st'
      end
  end.

Definition scan (min_width : Z) (ordered : list string) : ending :=
  scan_loop min_width scan_init ordered.

(** Lines 575-577. *)
Definition result_of (e : ending) : result :=
  match e with
  | Crashed _ => Raised
  | Exhausted st | Stopped _ st =>
      match best st with
      | Some (_, data, ext) => Returned (Some (data, ext))
      | None => Returned None
      end
  end.

(** The Ranking Engine: lines 527-577 on the de-duplicated list. *)
Definition rank (min_width : Z) (ordered : list string) : result :=
  match ordered with
  | [] => Returned None
  | _ => result_of (scan min_width ordered)
  end.

(** [fetch_best_landscape_any(title, poster_lab, min_width)] *)
Definition fetch_best_landscape_any (title : string) (min_width : Z) : result :=
  rank min_width (dedup (collect title).1).

End Landscape.

(** *** [sanitize_filename] *)

(** The character class of the first substitution: backslash, slash,
    colon, star, question mark, double quote, less, greater, bar. *)
Definition forbidden_in_filenames : list ascii :=
  ["\"; "/"; ":"; "*"; "?"; "034"; "<"; ">"; "|"]%char.

(** [sanitize_filename(name)] *)
Definition sanitize_filename (name : string) : string :=
  let name := re_sub_class forbidden_in_filenames name in
  let name := strip (re_sub_spaces " " false name) in
  name.

(** *** [pick_imdb_title] *)

(** [main]: the names of the files that are written, for the sanitized
    title [clean]. *)
Definition poster_name (clean poster_ext : string) : string :=
  clean +:+ " - poster" +:+ poster_ext.

Definition landscape_name (clean land_ext : string) : string :=
  clean +:+ " - 16x9" +:+ land_ext.

(** The condition of the list comprehension. *)
Definition is_film (x : suggestion) : bool :=
  startswith (default "" (s_id x)) "tt"
  && (among (s_qid x) ["feature"; "movie"; "title"]
      || among (s_q x) ["feature"; "movie"]).

(** [key(x)], for the lower-cased and stripped query [q]. *)
Definition pick_key (q : string) (x : suggestion) : bool * bool * Z :=
  let name := lower (default "" (s_l x)) in
  let exact := bool_decide (name = q) in
  let starts := startswith name q in
  let year := default 0%Z (s_y x) in
  (exact, starts, year).

(** [pick_imdb_title(js, query)] *)
Definition pick_imdb_title (js : feed) (query : string) : option suggestion :=
  let items := feed_items js in
  match items with
  | [] => None
  | _ =>
      let q := strip (lower query) in
      let films := filter (λ x, is_film x = true) items in
      let films := match films with [] => items | _ => films end in
      head (sort_reverse (pick_key q) films)
  end.

(** *** [imdb_hi_res_variants]

    [IMDB_URL_RE], matched from the start of the URL with [re.I]: a lazy
    prefix [.+?], an optional [_V1_] with flags [[^.]*], a dot and the
    extension, an optional query string, [$]. *)

(** What follows the prefix: the optional [_V1_] group with its flags,
    tried first, then the extension and the query string.  A shorter
    [[^.]*] leaves a character that is not a dot in front of [\.]. *)
Definition match_after_prefix (s : string) : option (string * string) :=
  match match_lit_i "_v1_" s with
  | Some (_, r) =>
      let '(_, r') := span_no_dot r in
      match match_dot_ext_qs r' with
      | Some m => Some m
      | None => match_dot_ext_qs s
      end
  | None => match_dot_ext_qs s
  end.

(** The lazy [.+?]: the shortest prefix, of characters other than the
    newline, after which the rest of the pattern matches. *)
Fixpoint match_imdb_url_from (prefix rest : string)
  : option (string * string * string) :=
  match match_after_prefix rest with
  | Some (ext, qs) => Some (prefix, ext, qs)
  | None =>
      match rest with
      | EmptyString => None
      | String c r =>
          if Ascii.eqb c "010" then None
          else match_imdb_url_from (prefix +:+ String c EmptyString) r
      end
  end.

(** [IMDB_URL_RE.match(url)]: the groups [prefix], [ext] and [qs or ""]. *)
Definition match_imdb_url (url : string) : option (string * string * string) :=
  match url with
  | EmptyString => None
  | String c r =>
      if Ascii.eqb c "010" then None
      else match_imdb_url_from (String c EmptyString) r
  end.

Definition hi_res_sizes : list N :=
  [6000; 5000; 4000; 3500; 3000; 2500; 2200; 2000]%N.

(** [imdb_hi_res_variants(url)] *)
Definition imdb_hi_res_variants (url : string) : list string :=
  match match_imdb_url url with
  | None => [url]
  | Some (prefix, ext, qs) =>
      let heights := hi_res_sizes in
      let widths := hi_res_sizes in
      ((λ h, prefix +:+ "_V1_FMjpg_UY" +:+ pretty h +:+ "_." +:+ ext +:+ qs)
         <$> heights)
      ++ ((λ w, prefix +:+ "_V1_FMjpg_UX" +:+ pretty w +:+ "_." +:+ ext +:+ qs)
            <$> widths)
      ++ [prefix +:+ "_V1_." +:+ ext +:+ qs]
  end.

(** *** The poster: [imdb_suggest] and [fetch_poster_imdb] *)

Definition MIN_POSTER_HEIGHT : Z := 2000.

Section Poster.

(** [urllib.parse.quote]. *)
Variable url_quote : string → string.

(** [get(url, stream=False).json()], [None] when either raises. *)
Variable get_json : string → feed.

(** The download: [(data, w, h, ct)], or [None] when it raises. *)
Variable fetch_image_and_dims : string → option (bytes * Z * Z * string).

(** [avg_color_lab(data)], [None] when the image cannot be decoded. *)
Variable avg_color_lab : bytes → option (float * float * float).

(** [imdb_suggest(title)] *)
Definition imdb_suggest (title : string) : feed :=
  let slug := strip (re_sub_spaces "_" false title) in
  match slug with
  | EmptyString => None
  | String letter _ =>
      let url :=
        "https://v2.sg.media-imdb.com/suggestion/"
        +:+ String (ascii_lower letter) EmptyString
        +:+ "/" +:+ url_quote slug +:+ ".json" in
      get_json url
  end.

(** The body of the loop over the variants. *)
Definition poster_at (min_height : Z) (url : string)
  : option (bytes * string * (float * float * float)) :=
  match fetch_image_and_dims url with
  | None => None
  | Some (data, w, h, ct) =>
      if (min_height <=? h)%Z && (w <? h)%Z then
        match avg_color_lab data with
        | Some poster_lab => Some (data, infer_ext url (Some ct), poster_lab)
        | None => None
        end
      else None
  end.

(** [fetch_poster_imdb(title, min_height)]: the triple, or [None] for
    [(None, None, None)]; with the URLs that were requested. *)
Definition fetch_poster_imdb (title : string) (min_height : Z)
  : option (bytes * string * (float * float * float)) * list string :=
  let js := imdb_suggest title in
  let picked :=
    match js with
    | Some _ => pick_imdb_title js title
    | None => None
    end in
  let img_url :=
    match picked with
    | Some x => s_image_url x
    | None => None
    end in
  if truthy img_url then
    for_first (poster_at min_height)
      (imdb_hi_res_variants (default "" img_url))
  else (None, []).

End Poster.

(** *** The search back ends *)

Section SearchBackEnds.

(** [html.unescape]. *)
Variable html_unescape : string → string.

(** [urllib.parse.quote] and [urllib.parse.unquote], the latter [None]
    when it raises. *)
Variable url_quote : string → string.
Variable url_unquote : string → option string.

(** What [re.findall] finds on the page a request answers with, over the
    patterns of the back end in their order; [None] when the request
    raises.  DuckDuckGo and Bing are asked by query, Google by search
    URL. *)
Variable ddg_found : string → option (list string).
Variable bing_found : string → option (list string).
Variable google_found : string → option (list string).

(** [any(host in decoded_url.lower() for host in hosts)] *)
Definition names_any (hosts : list string) (decoded_url : string) : bool :=
  existsb (λ host, str_in host (lower decoded_url)) hosts.

(** **** DuckDuckGo *)

Definition ddg_blocked : list string :=
  ["gstatic.com"; "googleusercontent.com"; "encrypted-tbn0"; "duckduckgo.com"].

(** The body of [for u in found_urls]. *)
Definition ddg_add (urls : list string) (u : string) : list string :=
  let decoded_url := html_unescape u in
  if names_any ddg_blocked decoded_url then urls
  else append_new urls decoded_url.

(** [for query in search_terms]. *)
Fixpoint ddg_queries (max_results : nat) (urls : list string)
  (search_terms : list string) : list string :=
  match search_terms with
  | [] => urls
  | query :: rest =>
      match ddg_found query with
      | Some found_urls =>
          let urls := foldl ddg_add urls found_urls in
          if (max_results <=? length urls)%nat then urls
          else ddg_queries max_results urls rest
      | None => ddg_queries max_results urls rest
      end
  end.

Definition ddg_search_terms (title : string) : list string :=
  [quoted title +:+ " movie wallpaper landscape";
   quoted title +:+ " film background";
   quoted title +:+ " movie backdrop";
   title +:+ " movie wallpaper";
   title +:+ " film horizontal"].

(** [ddg_image_search_any(title, max_results)] *)
Definition ddg_image_search_any (title : string) (max_results : nat)
  : list string :=
  take max_results (ddg_queries max_results [] (ddg_search_terms title)).

(** **** Bing *)

Definition bing_blocked : list string :=
  ["th.bing.com"; "tse1.mm.bing.net"; "tse2.mm.bing.net"; "tse3.mm.bing.net";
   "tse4.mm.bing.net"].

(** The body of [for match in matches]. *)
Definition bing_add (urls : list string) (m : string) : list string :=
  let decoded_url := str_replace "\u0026" "&" (str_replace "\/" "/" m) in
  match url_unquote decoded_url with
  | None => urls
  | Some decoded_url =>
      if names_any bing_blocked decoded_url then urls
      else if startswith decoded_url "http" then append_new urls decoded_url
      else urls
  end.

Fixpoint bing_queries (max_results : nat) (urls : list string)
  (search_terms : list string) : list string :=
  match search_terms with
  | [] => urls
  | query :: rest =>
      match bing_found query with
      | Some matches =>
          let urls := foldl bing_add urls matches in
          if (max_results <=? length urls)%nat then urls
          else bing_queries max_results urls rest
      | None => bing_queries max_results urls rest
      end
  end.

Definition bing_search_terms (title : string) : list string :=
  [quoted title +:+ " movie wallpaper landscape";
   quoted title +:+ " film background";
   title +:+ " movie backdrop";
   title +:+ " film landscape"].

(** [bing_image_search_any(title, max_results)] *)
Definition bing_image_search_any (title : string) (max_results : nat)
  : list string :=
  take max_results (bing_queries max_results [] (bing_search_terms title)).

(** **** Google *)

Definition google_blocked : list string :=
  ["gstatic.com"; "googleusercontent.com"; "encrypted-tbn0"; "ggpht.com";
   "blogger.com"; "bp.blogspot.com"].

Definition google_thumbs : list string :=
  ["thumb"; "small"; "mini"; "icon"; "avatar"; "profile"].

(** The body of [for match in matches]. *)
Definition google_add (urls : list string) (m : string) : list string :=
  match url_unquote (html_unescape m) with
  | None => urls
  | Some decoded_url =>
      if names_any google_blocked decoded_url then urls
      else if names_any google_thumbs decoded_url then urls
      else if startswith decoded_url "http" then append_new urls decoded_url
      else urls
  end.

(** [for search_url in search_urls]. *)
Fixpoint google_urls (max_results : nat) (urls : list string)
  (search_urls : list string) : list string :=
  match search_urls with
  | [] => urls
  | search_url :: rest =>
      match google_found search_url with
      | Some matches =>
          let urls := foldl google_add urls matches in
          if (max_results <=? length urls)%nat then urls
          else google_urls max_results urls rest
      | None => google_urls max_results urls rest
      end
  end.

Definition google_search_urls (query : string) : list string :=
  ["https://www.google.com/search?q=" +:+ url_quote query
     +:+ "&tbm=isch&tbs=isz:l,iar:w";
   "https://www.google.com/search?q=" +:+ url_quote query
     +:+ "&tbm=isch&tbs=isz:m,iar:w"].

(** [for query in search_terms]. *)
Fixpoint google_queries (max_results : nat) (urls : list string)
  (search_terms : list string) : list string :=
  match search_terms with
  | [] => urls
  | query :: rest =>
      let urls := google_urls max_results urls (google_search_urls query) in
      if (max_results <=? length urls)%nat then urls
      else google_queries max_results urls rest
  end.

Definition google_search_terms (title : string) : list string :=
  [quoted title +:+ " movie wallpaper landscape";
   quoted title +:+ " film background landscape";
   quoted title +:+ " movie poster landscape horizontal";
   quoted title +:+ " movie scene landscape";
   quoted title +:+ " film still landscape";
   quoted title +:+ " movie backdrop";
   title +:+ " movie wallpaper";
   title +:+ " film landscape";
   quoted title +:+ " movie horizontal"].

(** [google_image_search_any(title, max_results)] *)
Definition google_image_search_any (title : string) (max_results : nat)
  : list string :=
  take max_results (google_queries max_results [] (google_search_terms title)).

End SearchBackEnds.

(** *** [try_movie_databases] *)

Section MovieDatabases.

(** The backdrop URLs that the TMDB block appended to [urls] before it
    ended or raised. *)
Variable tmdb_backdrops : string → list string.

(** The substitution that empties everything but word characters,
    whitespace and the hyphen; which characters are word characters is up
    to the Unicode tables. *)
Variable re_sub_punctuation : string → string.

Definition direct_urls (title : string) : list string :=
  let clean_title := strip (re_sub_punctuation title) in
  let url_title := lower (str_replace " " "-" clean_title) in
  ["https://images.wallpapersden.com/image/download/" +:+ url_title
     +:+ "_1920x1080.jpg";
   "https://wallpaperaccess.com/full/" +:+ url_title +:+ ".jpg";
   "https://w0.peakpx.com/wallpaper/" +:+ url_title +:+ "-wallpaper.jpg"].

(** [try_movie_databases(title)] *)
Definition try_movie_databases (title : string) : list string :=
  tmdb_backdrops title ++ direct_urls title.

End MovieDatabases.

End Posters.

(** ** [download-images/script.py] *)

Module Script.
Import Py.

(** [infer_ext(url, content_type)] *)
Definition infer_ext (url : string) (content_type : option string) : string :=
  let from_url :=
    match re_search_ext url with
    | Some g => "." +:+ lower g
    | None => ".jpg"
    end in
  if truthy content_type then
    let ct := lower (default "" content_type) in
    if str_in "png" ct then ".png"
    else if str_in "webp" ct then ".webp"
    else if str_in "jpeg" ct || str_in "jpg" ct then ".jpg"
    else from_url
  else from_url.

(** Lines 208-214 of [fetch_landscape_paramount]: the same loop. *)
Fixpoint dedup_loop (seen : gset string) (ordered probe_list : list string)
  : list string :=
  match probe_list with
  | [] => ordered
  | u :: rest =>
      if decide (u ∈ seen) then dedup_loop seen ordered rest
      else dedup_loop ({[u]} ∪ seen) (ordered ++ [u]) rest
  end.

Definition dedup (probe_list : list string) : list string :=
  dedup_loop ∅ [] probe_list.

(** [sanitize_filename(name)] *)
Definition sanitize_filename (name : string) : string :=
  let name :=
    re_sub_class ["\"; "/"; ":"; "*"; "?"; "034"; "<"; ">"; "|"]%char name in
  let name := strip (re_sub_spaces " " false name) in
  name.

(** [main]: the names of the files that are written, for the sanitized
    title [clean]. *)
Definition poster_name (clean poster_ext : string) : string :=
  clean +:+ " - poster" +:+ poster_ext.

Definition landscape_name (clean land_ext : string) : string :=
  clean +:+ " - 16x9" +:+ land_ext.

(** [pick_imdb_title(js, query)] *)
Definition pick_imdb_title (js : feed) (query : string) : option suggestion :=
  let items := feed_items js in
  match items with
  | [] => None
  | _ =>
      let q := strip (lower query) in
      let films :=
        filter (λ x, startswith (default "" (s_id x)) "tt"
                     && (among (s_qid x) ["feature"; "movie"; "title"]
                         || among (s_q x) ["feature"; "movie"]) = true) items in
      let films := match films with [] => items | _ => films end in
      let key x :=
        let name := lower (default "" (s_l x)) in
        let exact := bool_decide (name = q) in
        let starts := startswith name q in
        let year := default 0%Z (s_y x) in
        (exact, starts, year) in
      head (sort_reverse key films)
  end.

(** *** The poster *)

(** The substitution of [imdb_hi_res_from_url]: the first ".ext", with
    its query string, that ends the URL becomes "._V1_" and ".ext".  What
    is left after it is empty or a newline, where the pattern cannot match
    again. *)
Fixpoint re_sub_insert_v1 (url : string) : string :=
  match match_dot_ext_qs url with
  | Some (g, qs) =>
      "._V1_." +:+ g +:+ str_drop (1 + String.length g + String.length qs) url
  | None =>
      match url with
      | EmptyString => EmptyString
      | String c r => String c (re_sub_insert_v1 r)
      end
  end.

Definition hi_res_sizes : list N := [4000; 3000; 2500; 2200; 2000]%N.

(** [imdb_hi_res_from_url(url)]: the unpacking [base, ext = ...] raises
    [ValueError] unless the list has two elements, and [...[1]] raises
    [IndexError] on a list of one. *)
Definition imdb_hi_res_from_url (url : string) : outcome (list string) :=
  let url := if str_in "_V1_" url then url else re_sub_insert_v1 url in
  match re_split_group_once "_V1_" url with
  | [base; ext] =>
      match split_once "_V1_" ext with
      | [_; tail] =>
          Returns
            (((λ h, base +:+ "_V1_FMjpg_UY" +:+ pretty h +:+ "_" +:+ tail)
                <$> hi_res_sizes)
             ++ ((λ w, base +:+ "_V1_FMjpg_UX" +:+ pretty w +:+ "_" +:+ tail)
                   <$> hi_res_sizes)
             ++ [base +:+ "_V1_.jpg"])
      | _ => Raises
      end
  | _ => Raises
  end.

(** *** The landscape *)

Definition CBSI_HOST : string := "thumbnails.cbsig.net".

Definition SIZE_TARGETS : list (N * N) :=
  [(7680, 4320); (5120, 2880); (4096, 2304); (3840, 2160); (3200, 1800);
   (3072, 1728); (2560, 1440); (2048, 1152); (2000, 1125)]%N.

(** The pattern of [try_paramount_variants], three to five digits, an
    [x], three to five digits, at the start of [s].  The first group
    cannot end inside a run of digits, where no [x] follows; the second
    takes up to five digits. *)
Definition match_size (s : string) : option string :=
  let '(d1, rest) := span_digits s in
  if (3 <=? String.length d1)%nat && (String.length d1 <=? 5)%nat then
    match rest with
    | String "x" rest2 =>
        let '(d2, _) := span_digits rest2 in
        if (3 <=? String.length d2)%nat
        then Some (d1 +:+ "x" +:+ str_take 5 d2)
        else None
    | _ => None
    end
  else None.

(** [re.findall] of that pattern: the matches from left to right, the
    search going on behind each match; [skip] counts the characters of a
    match that are still to be passed over. *)
Fixpoint findall_sizes_from (skip : nat) (s : string) : list string :=
  match s with
  | EmptyString => []
  | String _ r =>
      match skip with
      | S k => findall_sizes_from k r
      | O =>
          match match_size s with
          | Some m => m :: findall_sizes_from (String.length m - 1) r
          | None => findall_sizes_from 0 r
          end
      end
  end.

Definition findall_sizes (url : string) : list string :=
  findall_sizes_from 0 url.

Section Images.

Variable url_quote : string → string.
Variable get_json : string → feed.
Variable fetch_image_and_dims : string → option (bytes * Z * Z * string).

(** The order in which [set(tokens)] is iterated: the distinct tokens in
    an order that the hashes of the run decide. *)
Variable set_order : list string → list string.

(** What [re.findall] finds on the page that DuckDuckGo answers the query
    with, [None] when the request raises; and [urllib.parse.unquote],
    [None] when it raises. *)
Variable ddg_links : string → option (list string).
Variable url_unquote : string → option string.

(** The inner loop of [try_paramount_variants]: every token is replaced
    by the size. *)
Definition resized (url : string) (tokens : list string) (size : N * N)
  : string :=
  foldl (λ u t, str_replace t (pretty size.1 +:+ "x" +:+ pretty size.2) u)
    url (set_order tokens).

(** [try_paramount_variants(url)] *)
Definition try_paramount_variants (url : string) : list string :=
  let tokens := findall_sizes url in
  let variants :=
    match tokens with
    | [] => []
    | _ =>
        foldl (λ variants size, append_new variants (resized url tokens size))
          [] SIZE_TARGETS
    end in
  append_new variants url.

(** [ddg_search_paramount(title, max_results)]: the empty list when the
    request or an unquoting raises. *)
Definition ddg_search_paramount (title : string) (max_results : nat)
  : list string :=
  let q := "site:" +:+ CBSI_HOST +:+ " " +:+ quoted title +:+ " 16 9" in
  match ddg_links q with
  | None => []
  | Some links =>
      match mapM url_unquote links with
      | None => []
      | Some urls =>
          take max_results (filter (λ url, str_in CBSI_HOST url = true) urls)
      end
  end.

(** [imdb_suggest(title)]: [slug[0]] raises [IndexError] on an empty
    slug. *)
Definition imdb_suggest (title : string) : outcome feed :=
  let slug := strip (re_sub_spaces " " false title) in
  match slug with
  | EmptyString => Raises
  | String letter _ =>
      let url :=
        "https://v2.sg.media-imdb.com/suggestion/"
        +:+ String (ascii_lower letter) EmptyString
        +:+ "/" +:+ url_quote slug +:+ ".json" in
      Returns (get_json url)
  end.

(** The body of the loop over the candidates. *)
Definition poster_at (min_height : Z) (url : string) : option (bytes * string) :=
  match fetch_image_and_dims url with
  | None => None
  | Some (data, w, h, ct) =>
      if (min_height <=? h)%Z && (w <? h)%Z
      then Some (data, infer_ext url (Some ct))
      else None
  end.

(** [fetch_poster_imdb(title, override_url, min_height)]: the pair, or
    [None] for [(None, None)]. *)
Definition fetch_poster_imdb (title : string) (override_url : option string)
  (min_height : Z) : outcome (option (bytes * string)) :=
  if truthy override_url then
    match imdb_hi_res_from_url (default "" override_url) with
    | Returns candidates =>
        Returns (for_first (poster_at min_height) candidates).1
    | Raises => Raises
    end
  else
    match imdb_suggest title with
    | Raises => Raises
    | Returns js =>
        let picked :=
          match js with
          | Some _ => pick_imdb_title js title
          | None => None
          end in
        let img_url :=
          match picked with
          | Some x => s_image_url x
          | None => None
          end in
        if truthy img_url then
          match imdb_hi_res_from_url (default "" img_url) with
          | Returns candidates =>
              Returns (for_first (poster_at min_height) candidates).1
          | Raises => Raises
          end
        else Returns None
    end.

(** The body of the loop over [ordered]. *)
Definition landscape_at (min_width : Z) (url : string) : option (bytes * string) :=
  match fetch_image_and_dims url with
  | None => None
  | Some (data, w, h, ct) =>
      if (min_width <=? w)%Z && (h <? w)%Z
      then Some (data, infer_ext url (Some ct))
      else None
  end.

(** Lines 201-206: [probe_list] as it is filled. *)
Definition probe_list (title : string) (override_url : option string)
  : list string :=
  if truthy override_url
  then try_paramount_variants (default "" override_url)
  else concat (try_paramount_variants <$> ddg_search_paramount title 12).

(** [fetch_landscape_paramount(title, override_url, min_width)], with the
    URLs that were requested. *)
Definition fetch_landscape_paramount (title : string)
  (override_url : option string) (min_width : Z)
  : option (bytes * string) * list string :=
  let ordered := dedup (probe_list title override_url) in
  for_first (landscape_at min_width) ordered.

End Images.

End Script.


(** ** Vocabulary of the specification *)

(** "The declared content-type mentions [word]". *)
Definition mentions (content_type : option string) (word : string) : bool :=
  match content_type with
  | Some ct => Py.str_in word (Py.lower ct)
  | None => false
  end.

Module Spec.
Import Py Posters.

(** The state a run of the loop body leaves behind. *)
Definition flow_state (f : flow) : scan_state :=
  match f with
  | Next st | Break _ st | Raise st => st
  end.

Definition entry_score (e : Q * bytes * string) : Q := e.1.1.

(** What the loop body finds out about one candidate: the download
    failed; the image is narrower than the floor; its height is zero (no
    aspect ratio); its aspect ratio is under 1.2; or it passes the filters
    and would be recorded as [(score, data, ext)]. *)
Inductive verdict : Type :=
  | Failed
  | TooSmall
  | NoRatio
  | NotLandscape
  | Valid (e : Q * bytes * string).

Section Candidates.
Variable fetch_image_and_dims : string → option (bytes * Z * Z * string).
Variable score_landscape : bytes → Z → Z → Q.
Variable min_width : Z.

Definition examine (url : string) : verdict :=
  match fetch_image_and_dims url with
  | None => Failed
  | Some (data, w, h, ct) =>
      if (w <? min_width)%Z then TooSmall
      else if (h =? 0)%Z then NoRatio
      else if too_narrow w h then NotLandscape
      else Valid (score_landscape data w h, data, infer_ext url (Some ct))
  end.

(** A filter-passing candidate. *)
Definition passes (url : string) : bool :=
  match examine url with
  | Valid _ => true
  | _ => false
  end.

(** A candidate the claims call rejected: it fails to download, is too
    narrow, or is not landscape enough. *)
Definition rejected (url : string) : Prop :=
  examine url = Failed ∨ examine url = TooSmall ∨ examine url = NotLandscape.

(** [b] is the running strict minimum over the filter-passing candidates
    of [ordered]: it is the record of one of them, every valid candidate
    before it scores strictly higher, and none after it scores lower. *)
Definition first_minimum (ordered : list string) (b : Q * bytes * string) : Prop :=
  ∃ pre u post,
    ordered = pre ++ u :: post ∧ examine u = Valid b ∧
    (∀ u' e', u' ∈ pre → examine u' = Valid e' →
              (entry_score b < entry_score e')%Q) ∧
    (∀ u' e', u' ∈ post → examine u' = Valid e' →
              (entry_score b <= entry_score e')%Q).

(** The accumulator of the loop alone, over a list that is scanned to its
    end. *)
Definition fold_best (b : option (Q * bytes * string)) (ordered : list string)
  : option (Q * bytes * string) :=
  foldl (λ b url,
           match examine url with
           | Valid e => if improves (entry_score e) b then Some e else b
           | _ => b
           end) b ordered.

End Candidates.

(** Two states agree on the variables of the program (all but the log of
    fetched URLs). *)
Definition agree (st st' : scan_state) : Prop :=
  best st = best st' ∧ checked st = checked st'
  ∧ valid_candidates st = valid_candidates st'.

(** The back ends in priority order, and the count at which each of the
    lower four is no longer asked. *)
Definition all_sources : list source :=
  [MovieDatabases; FreeImageApis; Google; DuckDuckGo; Bing].

Definition priority (s : source) : nat :=
  match s with
  | MovieDatabases => 0
  | FreeImageApis => 1
  | Google => 2
  | DuckDuckGo => 3
  | Bing => 4
  end.

Definition threshold (s : source) : nat :=
  match s with
  | MovieDatabases => 0
  | FreeImageApis => 10
  | Google => 20
  | DuckDuckGo => 30
  | Bing => 40
  end.

(** The back ends of [asked] that rank above [s]. *)
Definition above (s : source) (asked : list source) : list source :=
  filter (λ s', priority s' < priority s) asked.

Section Sources.
Variable try_movie_databases : string → list string.
Variable try_free_image_apis : string → list string.
Variable google_image_search_any : string → nat → list string.
Variable ddg_image_search_any : string → nat → list string.
Variable bing_image_search_any : string → nat → list string.

(** What a back end contributes when [fetch_best_landscape_any] asks it. *)
Definition output (title : string) (s : source) : list string :=
  match s with
  | MovieDatabases => try_movie_databases title
  | FreeImageApis => try_free_image_apis title
  | Google => google_image_search_any title 30
  | DuckDuckGo => ddg_image_search_any title 20
  | Bing => bing_image_search_any title 20
  end.

End Sources.

(** The aggregation step on the outputs of the back ends that were asked. *)
Definition aggregate (outputs : list (list string)) : list string :=
  dedup (concat outputs).

End Spec.

(** ** Shapes of strings *)

Module Shape.
Import Py.

(** The characters of a string. *)
Definition chars (s : string) : list ascii := list_ascii_of_string s.

(** No whitespace character of [s] follows another one; [after_space]
    tells that the character before [s] is whitespace. *)
Fixpoint spaced (after_space : bool) (s : string) : Prop :=
  match s with
  | EmptyString => True
  | String c r =>
      (is_space c = true → after_space = false) ∧ spaced (is_space c) r
  end.

(** A string of whitespace only (the empty string included). *)
Definition blank (s : string) : Prop :=
  Forall (λ c, is_space c = true) (chars s).

(** What [sanitize_filename] neither removes nor rewrites: the characters
    that are neither whitespace nor forbidden. *)
Definition solid (c : ascii) : Prop :=
  is_space c = false ∧ c ∉ Posters.forbidden_in_filenames.

End Shape.

(** ** The entries [pick_imdb_title] chooses from *)

Module Feed.
Import Py Posters.

(** The list that is sorted: the entries that look like films, or all
    entries when none does. *)
Definition candidates (js : feed) : list suggestion :=
  match filter (λ x, is_film x = true) (feed_items js) with
  | [] => feed_items js
  | films => films
  end.

(** The title of the entry is the query, up to letter case and to the
    whitespace around the query. *)
Definition exact_match (query : string) (x : suggestion) : Prop :=
  lower (default "" (s_l x)) = strip (lower query).

End Feed.

(** ** The shape of an image URL *)

Module ImageUrl.
Import Py Posters Shape.

(** A query string of the pattern: nothing, or a question mark and a text
    without a newline. *)
Definition is_query (qs : string) : Prop :=
  qs = "" ∨ ∃ q, qs = String "?" q ∧ ("010"%char ∉ chars q).

(** The optional part between prefix and extension: nothing, or [_V1_]
    (in either letter case) and flags without a dot. *)
Definition is_v1_flags (mid : string) : Prop :=
  mid = "" ∨ ∃ v flags, mid = v +:+ flags ∧ lower v = "_v1_" ∧ ("."%char ∉ chars flags).

(** [url] reads as prefix, optional [_V1_] flags, a dot, an image
    extension, an optional query string and possibly a final newline. *)
Definition splits (url prefix mid ext qs nl : string) : Prop :=
  url = prefix +:+ mid +:+ "." +:+ ext +:+ qs +:+ nl
  ∧ prefix ≠ "" ∧ ("010"%char ∉ chars prefix)
  ∧ is_v1_flags mid
  ∧ lower ext ∈ ["jpeg"; "jpg"; "png"; "webp"]
  ∧ is_query qs
  ∧ at_end nl = true.

(** The size flags of the seventeen variants, in order. *)
Definition variant_tags : list string :=
  ["FMjpg_UY6000_"; "FMjpg_UY5000_"; "FMjpg_UY4000_"; "FMjpg_UY3500_";
   "FMjpg_UY3000_"; "FMjpg_UY2500_"; "FMjpg_UY2200_"; "FMjpg_UY2000_";
   "FMjpg_UX6000_"; "FMjpg_UX5000_"; "FMjpg_UX4000_"; "FMjpg_UX3500_";
   "FMjpg_UX3000_"; "FMjpg_UX2500_"; "FMjpg_UX2200_"; "FMjpg_UX2000_"; ""].

End ImageUrl.

(** How a match on a result page becomes a URL of the result list. *)
Module Search.
Import Py Posters.

Definition ddg_made (html_unescape : string → string) (m d : string) : Prop :=
  d = html_unescape m ∧ names_any ddg_blocked d = false.

Definition bing_made (url_unquote : string → option string) (m d : string)
  : Prop :=
  url_unquote (str_replace "\u0026" "&" (str_replace "\/" "/" m)) = Some d
  ∧ names_any bing_blocked d = false
  ∧ startswith d "http" = true.

Definition google_made (html_unescape : string → string)
  (url_unquote : string → option string) (m d : string) : Prop :=
  url_unquote (html_unescape m) = Some d
  ∧ names_any google_blocked d = false
  ∧ names_any google_thumbs d = false
  ∧ startswith d "http" = true.

End Search.


(** ** Binary64 numbers as rationals

    The vocabulary of the colour arithmetic: the value of a binary64
    number as a rational, and what it means for an operation's result to
    be a rounding of the exact value. *)

Module Binary64.

Definition bpow (e : Z) : Q := (2 ^ e)%Q.

Definition F2Q (m e : Z) : Q := (inject_Z m * bpow e)%Q.

Definition SF2Q (f : spec_float) : Q :=
  match f with
  | S754_finite s m e => if s then (- F2Q (Zpos m) e)%Q else F2Q (Zpos m) e
  | _ => 0%Q
  end.

Definition canon (m : positive) (e : Z) : Prop := bounded prec emax m e = true.

Definition nonneg (f : spec_float) : Prop :=
  match f with
  | S754_zero _ => True
  | S754_finite false m e => canon m e
  | _ => False
  end.

Definition located (x : Q) (mrs : shr_record) (e : Z) : Prop :=
  (0 ≤ shr_m mrs)%Z
  ∧ (F2Q (shr_m mrs) e <= x)%Q
  ∧ (x < F2Q (shr_m mrs + 1) e)%Q
  ∧ (shr_r mrs || shr_s mrs = true → (F2Q (shr_m mrs) e < x)%Q).

(** The second pass of [binary_round_aux], on the rounded mantissa. *)
Definition round_tail (m2 E : Z) : spec_float :=
  let '(mrs, e) := shr_fexp prec emax m2 E loc_Exact in
  match shr_m mrs with
  | Z0 => S754_zero false
  | Zpos m => if (e <=? emax - prec)%Z then S754_finite false m e
              else S754_infinity false
  | Zneg _ => S754_nan
  end.

(** [r] is a rounding of the exact value [x]: whenever a binary64 number
    bounds [x] from above, [r] is a non-negative binary64 number under
    that bound, and above every binary64 number that is at most [x]. *)
Definition rounds_to (x : Q) (r : spec_float) : Prop :=
  ∀ hm he, canon hm he → (x <= F2Q (Zpos hm) he)%Q →
    nonneg r
    ∧ (SF2Q r <= F2Q (Zpos hm) he)%Q
    ∧ ∀ lm le, canon lm le → (F2Q (Zpos lm) le <= x)%Q →
               (F2Q (Zpos lm) le <= SF2Q r)%Q.

(** The value of a binary64 number, and the numbers of the colour
    arithmetic: zero or positive and finite. *)
Definition R64 (f : float) : Q := SF2Q (Prim2SF f).

Definition good (f : float) : Prop := nonneg (Prim2SF f).

Definition pos (f : float) : Prop := good f ∧ (0 < R64 f)%Q.

End Binary64.

(** Constants are evaluated. *)
Ltac const := first [ by vm_compute | split; by vm_compute ].

Ltac r64 c :=
  let H := fresh in
  let v := eval vm_compute in (Binary64.R64 c) in
  assert (Binary64.R64 c = v) as H by (vm_compute; reflexivity);
  rewrite ?H in *; clear H.

(** ** Stubs for the network and the scorer

    A probe stub and a score stub in the manner of the tests the
    specification describes: an image is tagged by its one byte of data and
    the score stub reads the tag. *)

Module Stub.
Import Py Posters.

Definition tagged (n : N) : bytes :=
  match Byte.of_N n with
  | Some b => [b]
  | None => []
  end.

Definition tag (data : bytes) : N :=
  match data with
  | b :: _ => Byte.to_N b
  | [] => 0
  end.

(** Hosts: every URL under [http://dead/] fails to download, every URL
    under [http://small/] is a 500x281 image (tag 9) and every URL under
    [http://full/] a 1920x1080 image (tag 5); the other URLs are single
    images. *)
Definition fetch (url : string) : option (bytes * Z * Z * string) :=
  if String.prefix "http://dead/" url then None
  else if String.prefix "http://small/" url
       then Some (tagged 9, 500, 281, "image/jpeg")%Z
  else if String.prefix "http://full/" url
       then Some (tagged 5, 1920, 1080, "image/jpeg")%Z
  else if String.eqb url "http://a/five.jpg"
       then Some (tagged 5, 1920, 1080, "image/jpeg")%Z
  else if String.eqb url "http://a/two.png"
       then Some (tagged 2, 1920, 1080, "image/png")%Z
  else if String.eqb url "http://a/eight.jpg"
       then Some (tagged 8, 1920, 1080, "image/jpeg")%Z
  else if String.eqb url "http://a/half.webp"
       then Some (tagged 1, 2000, 1125, "")%Z
  else if String.eqb url "http://a/quarter.jpg"
       then Some (tagged 4, 2560, 1440, "image/jpeg")%Z
  else None.

(** Scores by tag: 5.0, 2.0, 8.0, 0.5, 0.25, and -100 for the small image. *)
Definition score (data : bytes) (w h : Z) : Q :=
  match tag data with
  | 5%N => 5
  | 2%N => 2
  | 8%N => 8
  | 1%N => 1 # 2
  | 4%N => 1 # 4
  | 9%N => -100
  | _ => 0
  end.

(** [n] distinct URLs under a host. *)
Definition numbered (host : string) (n : nat) : list string :=
  (λ i, host +:+ pretty i) <$> seq 0 n.

(** Candidate lists. *)
Definition scored_5_2_8 : list string :=
  ["http://a/five.jpg"; "http://a/two.png"; "http://a/eight.jpg"].

Definition hundred_then_better : list string :=
  numbered "http://full/" 100 ++ ["http://a/two.png"].

Definition small_then_half : list string :=
  ["http://small/x.jpg"; "http://a/half.webp"].

Definition five_then_two : list string :=
  ["http://a/five.jpg"; "http://a/two.png"].

Definition hundred_small_then_two : list string :=
  numbered "http://small/" 100 ++ five_then_two.

Definition half_then_quarter : list string :=
  ["http://a/half.webp"; "http://a/quarter.jpg"].

Definition two_dead_then_two : list string :=
  ["http://dead/1"; "http://dead/2"; "http://a/two.png"].

(** Back ends for one title: the movie databases give the three direct
    wallpaper addresses, the free image APIs five photos, Google fifteen
    images and DuckDuckGo twenty, the first fifteen of which are the ones
    Google gave. *)
Definition movie_databases (title : string) : list string :=
  ["http://images.wallpapersden.com/" +:+ title;
   "http://wallpaperaccess.com/" +:+ title;
   "http://w0.peakpx.com/" +:+ title].

Definition free_image_apis (title : string) : list string :=
  numbered "http://unsplash/" 5.

Definition google (title : string) (max_results : nat) : list string :=
  take max_results (numbered "http://img/" 15).

Definition ddg (title : string) (max_results : nat) : list string :=
  take max_results (numbered "http://img/" 20).

Definition bing (title : string) (max_results : nat) : list string :=
  take max_results (numbered "http://bing/" 5).

Definition no_results (title : string) (max_results : nat) : list string := [].

(** A movie database that answers with 101 backdrops, all of them dead
    links. *)
Definition dead_databases (title : string) : list string :=
  numbered "http://dead/" 101.

Definition no_apis (title : string) : list string := [].

End Stub.

(** ** More stubs *)

Module Stub2.
Import Py Posters.

(** The probe stub with one more image, whose header gives a height of
    zero. *)
Definition fetch (url : string) : option (bytes * Z * Z * string) :=
  if String.eqb url "http://a/flat.gif"
  then Some (Stub.tagged 7, 1920, 0, "image/gif")%Z
  else Stub.fetch url.

Definition small_then_flat : list string :=
  ["http://small/x.jpg"; "http://dead/1"; "http://a/flat.gif";
   "http://a/two.png"].

Definition all_rejected : list string :=
  ["http://small/x.jpg"; "http://dead/1"; "http://small/y.jpg"].

End Stub2.

(** A suggestion feed, and the images behind its poster URL. *)
Module Stub3.
Import Py Posters.

Definition entry (id : string) (qid : option string) (l : string)
  (y : option Z) (image_url : option string) : suggestion :=
  {| s_id := Some id; s_qid := qid; s_q := None; s_l := Some l; s_y := y;
     s_image_url := image_url |}.

Definition al_pacino : suggestion :=
  entry "nm0000199" None "Heat" None None.

Definition the_heat : suggestion :=
  entry "tt2404463" (Some "movie") "The Heat" (Some 2013%Z)
    (Some "https://m.media-amazon.com/images/M/theheat._V1_.jpg").

Definition heat_1972 : suggestion :=
  entry "tt0068675" (Some "movie") "Heat" (Some 1972%Z) None.

Definition heat_1995 : suggestion :=
  entry "tt0113277" (Some "movie") "Heat" (Some 1995%Z)
    (Some "https://m.media-amazon.com/images/M/heat._V1_UX128_.jpg").

Definition heat_feed : feed :=
  Some (Some [al_pacino; the_heat; heat_1972; heat_1995]).

(** A feed whose first title begins with the capital letter À (code 192),
    and a query that begins with the small letter à (code 224). *)
Definition a_bout_de_souffle : suggestion :=
  entry "tt0053472" (Some "movie") (String "192" " bout de souffle")
    (Some 1960%Z) None.

Definition breathless : suggestion :=
  entry "tt0085276" (Some "movie") "Breathless" (Some 1983%Z) None.

Definition souffle_feed : feed :=
  Some (Some [a_bout_de_souffle; breathless]).

Definition souffle_query : string := String "224" " bout de souffle".

Definition url_quote (s : string) : string := s.

Definition get_json (url : string) : feed :=
  if String.eqb url "https://v2.sg.media-imdb.com/suggestion/h/Heat.json"
  then heat_feed
  else None.

(** The tallest variant of the poster is a small image, the next one a
    2000x3000 image; no other URL answers. *)
Definition fetch (url : string) : option (bytes * Z * Z * string) :=
  if String.eqb url
       "https://m.media-amazon.com/images/M/heat._V1_FMjpg_UY6000_.jpg"
  then Some (Stub.tagged 3, 1000, 1500, "image/jpeg")%Z
  else if String.eqb url
       "https://m.media-amazon.com/images/M/heat._V1_FMjpg_UY5000_.jpg"
  then Some (Stub.tagged 4, 2000, 3000, "image/jpeg")%Z
  else None.

Definition grey : float * float * float := (50%float, 0%float, 0%float).

Definition avg_color_lab (data : bytes) : option (float * float * float) :=
  Some grey.

(** The landscape search: the tokens are iterated in the order of their
    first occurrence; the result page has three links; the image server
    answers the 4096x2304 variant with a small image and the 3840x2160
    variant with the full one. *)
Definition set_order (tokens : list string) : list string :=
  remove_dups tokens.

Definition ddg_links (q : string) : option (list string) :=
  Some ["https://thumbnails.cbsig.net/dead/heat_640x360.jpg";
        "https://other.example/heat_640x360.jpg";
        "https://thumbnails.cbsig.net/heat_640x360.jpg"].

Definition url_unquote (s : string) : option string := Some s.

Definition fetch_still (url : string) : option (bytes * Z * Z * string) :=
  if String.eqb url "https://thumbnails.cbsig.net/heat_4096x2304.jpg"
  then Some (Stub.tagged 6, 1280, 720, "image/jpeg")%Z
  else if String.eqb url "https://thumbnails.cbsig.net/heat_3840x2160.jpg"
  then Some (Stub.tagged 7, 3840, 2160, "")%Z
  else None.

End Stub3.

(** * Properties *)

(** ** Extension inference *)

Section InferExt.
Import Py.

Lemma str_app_nil (s : string) : "" +:+ s = s.
Proof. reflexivity. Qed.

Lemma str_app_cons c (s t : string) : String c s +:+ t = String c (s +:+ t).
Proof. reflexivity. Qed.

Lemma match_lit_i_sound lit s g r :
  match_lit_i lit s = Some (g, r) → s = g +:+ r ∧ lower g = lit.
Proof.
  revert s g r. induction lit as [|a lit IH]; intros s g r; simpl.
  - intros [= <- <-]. done.
  - destruct s as [|c s]; [done|].
    destruct (Ascii.eqb (ascii_lower c) a) eqn:Hc; [|done].
    destruct (match_lit_i lit s) as [[g' r']|] eqn:Hm; [|done].
    intros [= <- <-]. apply IH in Hm as [-> <-].
    apply Ascii.eqb_eq in Hc as <-. done.
Qed.

Lemma match_lit_i_complete g r :
  match_lit_i (lower g) (g +:+ r) = Some (g, r).
Proof.
  induction g as [|c g IH]; simpl; [done|].
  rewrite Ascii.eqb_refl, IH. done.
Qed.

Lemma first_alt_sound alts s g :
  first_alt alts s = Some g →
  ∃ r, s = g +:+ r ∧ lower g ∈ alts ∧ match_tail r = true.
Proof.
  induction alts as [|a alts IH]; simpl; [done|].
  destruct (match_lit_i a s) as [[g' r']|] eqn:Hm.
  - destruct (match_tail r') eqn:Ht.
    + intros [= <-]. apply match_lit_i_sound in Hm as [-> <-].
      exists r'. split_and!; [done|left|done].
    + intros (r & ? & ? & ?)%IH. exists r. split_and!; [done|by right|done].
  - intros (r & ? & ? & ?)%IH. exists r. split_and!; [done|by right|done].
Qed.

Lemma first_alt_complete alts g r :
  lower g ∈ alts → match_tail r = true → is_Some (first_alt alts (g +:+ r)).
Proof.
  intros Hin Ht. induction alts as [|a alts IH]; [by apply elem_of_nil in Hin|].
  simpl. destruct (match_lit_i a (g +:+ r)) as [[g' r']|] eqn:Hm.
  - destruct (match_tail r') eqn:Ht'; [by eexists|].
    apply elem_of_cons in Hin as [<-|Hin]; [|by apply IH].
    rewrite match_lit_i_complete in Hm. congruence.
  - apply elem_of_cons in Hin as [<-|Hin]; [|by apply IH].
    rewrite match_lit_i_complete in Hm. congruence.
Qed.

Lemma re_search_ext_unfold s :
  re_search_ext s =
  match match_at s with
  | Some g => Some g
  | None => match s with "" => None | String _ r => re_search_ext r end
  end.
Proof. by destruct s. Qed.

Lemma re_search_ext_sound s g :
  re_search_ext s = Some g →
  ∃ pre rest, s = pre +:+ "." +:+ g +:+ rest
              ∧ lower g ∈ ext_alts ∧ match_tail rest = true.
Proof.
  induction s as [|c s IH]; [done|].
  rewrite re_search_ext_unfold. unfold match_at.
  destruct (Ascii.eqb c ".") eqn:Hc.
  - destruct (first_alt ext_alts s) as [g'|] eqn:Hf.
    + intros [= <-]. apply first_alt_sound in Hf as (r & -> & ? & ?).
      apply Ascii.eqb_eq in Hc as ->. by exists "", r.
    + intros (pre & rest & -> & ? & ?)%IH. by exists (String c pre), rest.
  - intros (pre & rest & -> & ? & ?)%IH. by exists (String c pre), rest.
Qed.

Lemma re_search_ext_complete pre g rest :
  lower g ∈ ext_alts → match_tail rest = true →
  is_Some (re_search_ext (pre +:+ "." +:+ g +:+ rest)).
Proof.
  intros Hg Ht. induction pre as [|c pre IH].
  - rewrite re_search_ext_unfold, str_app_nil, str_app_cons, str_app_nil.
    unfold match_at. rewrite Ascii.eqb_refl.
    destruct (first_alt_complete _ _ _ Hg Ht) as [g' ->]. by eexists.
  - rewrite re_search_ext_unfold, str_app_cons.
    destruct (match_at _); [by eexists|]. exact IH.
Qed.

(** The match that [re.search] reports is the leftmost one. *)
Lemma re_search_ext_leftmost s g :
  re_search_ext s = Some g ↔
  ∃ pre rest, s = pre +:+ rest ∧ match_at rest = Some g ∧
    ∀ p1 p2, pre = p1 +:+ p2 → p2 ≠ "" → match_at (p2 +:+ rest) = None.
Proof.
  split.
  - induction s as [|c s IH]; [done|].
    rewrite re_search_ext_unfold.
    destruct (match_at (String c s)) as [g'|] eqn:Hm.
    + intros [= <-]. exists "", (String c s). split_and!; [done..|].
      intros [|??] [|??]; rewrite ?str_app_nil, ?str_app_cons; congruence.
    + intros (pre & rest & -> & Hr & Hleft)%IH.
      exists (String c pre), rest. split_and!; [done..|].
      intros [|c1 p1] p2; rewrite ?str_app_nil, ?str_app_cons.
      * intros <- _. exact Hm.
      * intros [= <- ->]. by apply (Hleft p1 p2).
  - intros (pre & rest & -> & Hr & Hleft).
    induction pre as [|c pre IH].
    + rewrite str_app_nil, re_search_ext_unfold, Hr. done.
    + rewrite re_search_ext_unfold.
      rewrite (Hleft "" (String c pre)) by done. rewrite str_app_cons.
      apply IH. intros p1 p2 -> ?. by apply (Hleft (String c p1) p2).
Qed.

Lemma str_app_eq_app (a b c d : string) :
  a +:+ b = c +:+ d → String.length a ≤ String.length c →
  ∃ k, c = a +:+ k ∧ b = k +:+ d.
Proof.
  revert c. induction a as [|x a IH]; intros c H Hl.
  - exists c. by rewrite !str_app_nil in *.
  - destruct c as [|y c]; [cbn in Hl; lia|].
    rewrite !str_app_cons in H. injection H as -> H.
    destruct (IH c H) as (k & -> & ->); [cbn in Hl; lia|].
    by exists k.
Qed.

(** At a position where a token stands, the pattern matches that token
    and no other. *)
Lemma match_at_exact g rest :
  lower g ∈ ext_alts → match_tail rest = true →
  match_at ("." +:+ g +:+ rest) = Some g.
Proof.
  intros Hg Ht. rewrite str_app_cons, str_app_nil.
  cbn [match_at Ascii.eqb Bool.eqb]. unfold ext_alts in *.
  repeat (apply elem_of_cons in Hg as [Hg|Hg]); [..|by apply elem_of_nil in Hg].
  all: destruct g as [|c1 [|c2 [|c3 [|c4 [|c5 g]]]]]; try discriminate Hg.
  all: cbn [lower] in Hg.
  all: repeat match goal with
         | H : String ?a ?r = String ?b ?r' |- _ =>
             assert (a = b) by congruence; assert (r = r') by congruence;
             clear H
         end.
  all: rewrite ?str_app_cons, ?str_app_nil; cbn [first_alt match_lit_i].
  all: repeat match goal with
         | H : ascii_lower ?c = _ |- _ => rewrite H; clear H
         end.
  all: cbn [Ascii.eqb Bool.eqb]; by rewrite ?Ht.
Qed.

(** The token that [re.search] reports is the one at the leftmost
    position where a token stands. *)
Lemma re_search_ext_leftmost_token url pre g rest :
  url = pre +:+ "." +:+ g +:+ rest →
  lower g ∈ ext_alts → match_tail rest = true →
  (∀ pre' g' rest', url = pre' +:+ "." +:+ g' +:+ rest' →
     lower g' ∈ ext_alts → match_tail rest' = true →
     String.length pre ≤ String.length pre') →
  re_search_ext url = Some g.
Proof.
  intros Hurl Hg Ht Hleft.
  destruct (re_search_ext_complete pre g rest Hg Ht) as [g0 Hg0].
  rewrite <- Hurl in Hg0. rewrite Hg0. f_equal.
  apply re_search_ext_leftmost in Hg0 as (pre0 & rest0 & Hurl0 & Hm0 & Hl0).
  assert (∃ r0, rest0 = "." +:+ g0 +:+ r0 ∧ lower g0 ∈ ext_alts
                ∧ match_tail r0 = true) as (r0 & Hr0 & Hg0 & Ht0).
  { destruct rest0 as [|c r]; [done|]. unfold match_at in Hm0.
    destruct (Ascii.eqb_spec c ".") as [->|]; [|done].
    apply first_alt_sound in Hm0 as (r0 & -> & ? & ?). by exists r0. }
  assert (String.length pre ≤ String.length pre0) as Hlen.
  { apply (Hleft pre0 g0 r0); [by rewrite Hurl0, Hr0|done..]. }
  rewrite Hurl in Hurl0.
  destruct (str_app_eq_app _ _ _ _ Hurl0 Hlen) as (k & -> & Hk).
  pose proof (match_at_exact g rest Hg Ht) as Hex. rewrite Hk in Hex.
  destruct k as [|c k].
  - rewrite str_app_nil in Hex. congruence.
  - rewrite (Hl0 pre (String c k)) in Hex by done. done.
Qed.

Lemma from_url_range url :
  match re_search_ext url with Some g => "." +:+ lower g | None => ".jpg" end
  ∈ [".jpg"; ".jpeg"; ".png"; ".webp"].
Proof.
  destruct (re_search_ext url) as [g|] eqn:Hs; [|by repeat constructor].
  apply re_search_ext_sound in Hs as (_ & _ & _ & Hg & _).
  unfold ext_alts in Hg.
  repeat (apply elem_of_cons in Hg as [->|Hg]); [by repeat constructor..|].
  by apply elem_of_nil in Hg.
Qed.

(** The truth test on the content type is subsumed by the substring tests:
    an absent or empty content type mentions nothing. *)
Lemma infer_ext_eq url content_type :
  Posters.infer_ext url content_type =
  if mentions content_type "png" then ".png"
  else if mentions content_type "webp" then ".webp"
  else if mentions content_type "jpeg" || mentions content_type "jpg" then ".jpg"
  else match re_search_ext url with
       | Some g => "." +:+ lower g
       | None => ".jpg"
       end.
Proof. by destruct content_type as [[|c ct]|]. Qed.

(** C8, as the program has it.  The content type decides when it mentions
    png, then webp, then jpeg or jpg; otherwise the result is a dot and the
    lower-cased token of the leftmost ".jpg", ".jpeg", ".png" or ".webp"
    (in any case) that is followed by "?" or ends the URL: of every
    place in the URL where such a token stands, the one with the shortest
    text before it decides; when no such token stands anywhere the result
    is ".jpg".  The result is one of ".jpg", ".jpeg", ".png", ".webp". *)
Theorem infer_ext_cascade (url : string) (content_type : option string) :
  (mentions content_type "png" = true →
     Posters.infer_ext url content_type = ".png")
  ∧ (mentions content_type "png" = false →
     mentions content_type "webp" = true →
     Posters.infer_ext url content_type = ".webp")
  ∧ (mentions content_type "png" = false →
     mentions content_type "webp" = false →
     mentions content_type "jpeg" = true ∨ mentions content_type "jpg" = true →
     Posters.infer_ext url content_type = ".jpg")
  ∧ (mentions content_type "png" = false →
     mentions content_type "webp" = false →
     mentions content_type "jpeg" = false →
     mentions content_type "jpg" = false →
     (∀ g, re_search_ext url = Some g →
        Posters.infer_ext url content_type = "." +:+ lower g)
     ∧ (re_search_ext url = None →
        Posters.infer_ext url content_type = ".jpg")
     ∧ (∀ pre g rest,
          url = pre +:+ "." +:+ g +:+ rest →
          lower g ∈ ["jpeg"; "jpg"; "png"; "webp"] →
          match_tail rest = true →
          (∀ pre' g' rest',
             url = pre' +:+ "." +:+ g' +:+ rest' →
             lower g' ∈ ["jpeg"; "jpg"; "png"; "webp"] →
             match_tail rest' = true →
             String.length pre ≤ String.length pre') →
          Posters.infer_ext url content_type = "." +:+ lower g)
     ∧ ((∀ pre g rest,
           url = pre +:+ "." +:+ g +:+ rest →
           lower g ∈ ["jpeg"; "jpg"; "png"; "webp"] →
           match_tail rest = false) →
        Posters.infer_ext url content_type = ".jpg"))
  ∧ (∀ g, re_search_ext url = Some g →
       ∃ pre rest, url = pre +:+ "." +:+ g +:+ rest
                   ∧ lower g ∈ ["jpeg"; "jpg"; "png"; "webp"]
                   ∧ match_tail rest = true)
  ∧ (re_search_ext url = None →
       ∀ pre g rest, url = pre +:+ "." +:+ g +:+ rest →
                     lower g ∈ ["jpeg"; "jpg"; "png"; "webp"] →
                     match_tail rest = false)
  ∧ Posters.infer_ext url content_type ∈ [".jpg"; ".jpeg"; ".png"; ".webp"].
Proof.
  rewrite infer_ext_eq. split_and!.
  - by intros ->.
  - by intros -> ->.
  - intros -> -> [->| ->]; [done|]. by rewrite orb_true_r.
  - intros -> -> -> ->. split_and!; [by intros g ->|by intros ->| |].
    + intros pre g rest Hurl Hg Ht Hleft. cbn [orb].
      by rewrite (re_search_ext_leftmost_token url pre g rest).
    + intros Hnone. cbn [orb].
      destruct (re_search_ext url) as [g|] eqn:Hs; [|done].
      apply re_search_ext_sound in Hs as (pre & rest & Hurl & Hg & Ht).
      by rewrite (Hnone pre g rest) in Ht.
  - intros g Hg. by apply re_search_ext_sound.
  - intros Hnone pre g rest -> Hg. destruct (match_tail rest) eqn:Ht; [|done].
    destruct (re_search_ext_complete pre g rest Hg Ht) as [g' Hg'].
    congruence.
  - pose proof (from_url_range url) as Hr.
    destruct (mentions content_type "png"); [by repeat constructor|].
    destruct (mentions content_type "webp"); [by repeat constructor|].
    destruct (_ || _); [by repeat constructor|done].
Qed.

(** The witness runs the cascade on a URL with two tokens, the first in
    upper case and followed by a query string that holds the second, under
    a content type that names no image format: the first token decides. *)
Lemma infer_ext_cascade_witness :
  Posters.infer_ext "http://h/still.JPEG?next=b.png" (Some "text/html")
  = ".jpeg".
Proof.
  destruct (infer_ext_cascade "http://h/still.JPEG?next=b.png"
              (Some "text/html")) as (_ & _ & _ & H & _).
  destruct H as [H _]; [reflexivity..|].
  apply (H "JPEG"). reflexivity.
Defined.

(** C8 as stated fails: a URL token ".jpeg" is returned as it is, and
    ".jpeg" is none of ".jpg", ".png", ".webp". *)
Lemma infer_ext_returns_jpeg :
  Posters.infer_ext "http://h/a.jpeg" None = ".jpeg"
  ∧ ".jpeg" ∉ [".jpg"; ".png"; ".webp"].
Proof.
  split; [reflexivity|].
  intros H. repeat (apply elem_of_cons in H as [[=]|H]).
  by apply elem_of_nil in H.
Qed.

(** C10: the two programs infer the same extension. *)
Theorem infer_ext_same (url : string) (content_type : option string) :
  Posters.infer_ext url content_type = Script.infer_ext url content_type.
Proof.
  unfold Posters.infer_ext, Script.infer_ext.
  destruct (truthy content_type); [|done].
  by repeat (match goal with |- context [if ?b then _ else _] => destruct b end).
Qed.

End InferExt.
(** ** The aggregator *)

Section Dedup.
Import Posters.
Implicit Types (seen : gset string) (ordered probe : list string).

(** [ordered] only ever grows at its end. *)
Lemma dedup_loop_acc seen ordered probe :
  dedup_loop seen ordered probe = ordered ++ dedup_loop seen [] probe.
Proof.
  revert seen ordered. induction probe as [|u rest IH]; intros seen ordered.
  - simpl. by rewrite app_nil_r.
  - simpl. destruct (decide (u ∈ seen)); [apply IH|].
    rewrite (IH _ (ordered ++ [u])), (IH _ [u]). by rewrite <- app_assoc.
Qed.

Lemma dedup_loop_cons seen u rest :
  dedup_loop seen [] (u :: rest) =
  if decide (u ∈ seen) then dedup_loop seen [] rest
  else u :: dedup_loop ({[u]} ∪ seen) [] rest.
Proof.
  simpl. destruct (decide (u ∈ seen)); [done|]. by rewrite dedup_loop_acc.
Qed.

Lemma elem_of_dedup_loop seen probe x :
  x ∈ dedup_loop seen [] probe ↔ x ∈ probe ∧ x ∉ seen.
Proof.
  revert seen. induction probe as [|u rest IH]; intros seen.
  - simpl. set_solver.
  - rewrite dedup_loop_cons. destruct (decide (u ∈ seen)).
    + rewrite IH. set_solver.
    + rewrite !elem_of_cons, IH. destruct (decide (x = u)) as [->|]; set_solver.
Qed.

Lemma NoDup_dedup_loop seen probe : NoDup (dedup_loop seen [] probe).
Proof.
  revert seen. induction probe as [|u rest IH]; intros seen.
  - constructor.
  - rewrite dedup_loop_cons. destruct (decide (u ∈ seen)); [apply IH|].
    constructor; [|apply IH]. rewrite elem_of_dedup_loop. set_solver.
Qed.

Lemma sublist_dedup_loop seen probe : sublist (dedup_loop seen [] probe) probe.
Proof.
  revert seen. induction probe as [|u rest IH]; intros seen.
  - constructor.
  - rewrite dedup_loop_cons. destruct (decide (u ∈ seen)).
    + by apply sublist_cons.
    + by apply sublist_skip.
Qed.

(** What was seen before the loop only removes elements from its output. *)
Lemma dedup_loop_seen (s1 s2 : gset string) probe :
  dedup_loop (s1 ∪ s2) [] probe = filter (λ x, x ∉ s1) (dedup_loop s2 [] probe).
Proof.
  revert s2. induction probe as [|u rest IH]; intros s2; [done|].
  rewrite !dedup_loop_cons.
  destruct (decide (u ∈ s2)) as [H2|H2].
  - rewrite decide_True by set_solver. apply IH.
  - destruct (decide (u ∈ s1)) as [H1|H1].
    + rewrite decide_True by set_solver.
      rewrite filter_cons_False by (by intros ?).
      rewrite <- IH. f_equal. set_solver.
    + rewrite decide_False by set_solver.
      rewrite filter_cons_True by done.
      rewrite <- IH. do 2 f_equal. set_solver.
Qed.

Lemma dedup_loop_app seen p1 p2 :
  dedup_loop seen [] (p1 ++ p2) =
  dedup_loop seen [] p1 ++ dedup_loop (list_to_set p1 ∪ seen) [] p2.
Proof.
  revert seen. induction p1 as [|u p1 IH]; intros seen.
  - simpl. f_equal. set_solver.
  - rewrite <- app_comm_cons, !dedup_loop_cons.
    destruct (decide (u ∈ seen)).
    + rewrite IH. do 2 f_equal. set_solver.
    + rewrite IH, <- app_comm_cons. do 3 f_equal. set_solver.
Qed.

(** The outputs of later adapters are appended without what earlier ones
    already gave. *)
Lemma dedup_app p1 p2 :
  dedup (p1 ++ p2) = dedup p1 ++ filter (λ x, x ∉ p1) (dedup p2).
Proof.
  unfold dedup. rewrite dedup_loop_app, dedup_loop_seen. f_equal.
  apply list_filter_iff. intros x. set_solver.
Qed.

Lemma elem_of_concat (outputs : list (list string)) u :
  u ∈ concat outputs ↔ ∃ out, out ∈ outputs ∧ u ∈ out.
Proof.
  induction outputs as [|o outputs IH]; simpl.
  - split; [by intros ?%elem_of_nil|]. by intros (? & ?%elem_of_nil & _).
  - rewrite elem_of_app, IH. split.
    + intros [?|(out & ? & ?)]; [exists o|exists out]; split; try done.
      * left.
      * by right.
    + intros (out & [->|?]%elem_of_cons & ?); [by left|right; by exists out].
Qed.

(** [download-images/script.py] runs the same loop. *)
Lemma script_dedup_loop seen ordered probe :
  Script.dedup_loop seen ordered probe = dedup_loop seen ordered probe.
Proof.
  revert seen ordered. induction probe as [|u rest IH]; intros; simpl; [done|].
  by rewrite !IH.
Qed.

(** C7: the aggregation of the adapter outputs is duplicate-free, holds
    exactly the URLs of the outputs, keeps them in the order of their first
    appearance (a URL first seen after the prefix [l1] comes right after the
    distinct URLs of [l1]; the outputs of a later adapter are appended
    without the URLs already there), and the other program's loop gives the
    same list; [["u1","u2"], ["u2","u3"]] gives ["u1","u2","u3"]. *)
Theorem aggregate_first_seen (outputs : list (list string)) :
  NoDup (Spec.aggregate outputs)
  ∧ (∀ u, u ∈ Spec.aggregate outputs ↔ ∃ out, out ∈ outputs ∧ u ∈ out)
  ∧ sublist (Spec.aggregate outputs) (concat outputs)
  ∧ (∀ l1 u l2, concat outputs = l1 ++ u :: l2 → u ∉ l1 →
       ∃ r2, Spec.aggregate outputs = dedup l1 ++ u :: r2)
  ∧ (∀ out, Spec.aggregate (outputs ++ [out]) =
       Spec.aggregate outputs
       ++ filter (λ x, x ∉ concat outputs) (dedup out))
  ∧ Script.dedup (concat outputs) = Spec.aggregate outputs
  ∧ Spec.aggregate [["u1"; "u2"]; ["u2"; "u3"]] = ["u1"; "u2"; "u3"].
Proof.
  unfold Spec.aggregate. split_and!.
  - apply NoDup_dedup_loop.
  - intros u. unfold dedup. rewrite elem_of_dedup_loop, elem_of_concat.
    set_solver.
  - apply sublist_dedup_loop.
  - intros l1 u l2 -> Hu. unfold dedup.
    rewrite dedup_loop_app, dedup_loop_cons, decide_False by set_solver.
    by eexists.
  - intros out. rewrite concat_app. simpl. by rewrite app_nil_r, dedup_app.
  - apply script_dedup_loop.
  - by vm_compute.
Qed.

End Dedup.

(** ** The ranking loop *)

Section Engine.
Import Py Posters Spec.

Variable fetch : string → option (bytes * Z * Z * string).
Variable score : bytes → Z → Z → Q.
Variable min_width : Z.

Local Abbreviation step := (scan_step fetch score min_width).
Local Abbreviation loop := (scan_loop fetch score min_width).
Local Abbreviation exam := (examine fetch score min_width).

Implicit Types (st : scan_state) (url u : string) (ordered : list string).
Implicit Types (b e : Q * bytes * string).

Lemma score_lt_true x y : score_lt x y = true ↔ (x < y)%Q.
Proof. unfold score_lt, Qlt. apply Z.ltb_lt. Qed.

Lemma score_lt_false x y : score_lt x y = false ↔ (y <= x)%Q.
Proof. unfold score_lt, Qle. apply Z.ltb_ge. Qed.

(** The loop body, by what it finds out about the candidate. *)
Lemma scan_step_examine st url :
  step st url =
  match exam url with
  | Failed => Next (with_fetched url st)
  | TooSmall | NotLandscape => Next (with_checked (with_fetched url st))
  | NoRatio => Raise (with_checked (with_fetched url st))
  | Valid e =>
      let st1 := with_valid (with_checked (with_fetched url st)) in
      let st2 :=
        if improves (entry_score e) (best st1) then with_best e st1 else st1 in
      if good_enough st2 then Break GoodEnough st2
      else if (100 <=? checked st2)%nat then Break SafetyCap st2
      else Next st2
  end.
Proof.
  unfold scan_step, examine.
  destruct (fetch url) as [[[[data w] h] ct]|]; [|done].
  destruct (w <? min_width)%Z; [done|].
  destruct (h =? 0)%Z; [done|].
  by destruct (too_narrow w h).
Qed.

Lemma loop_app st l1 l2 :
  loop st (l1 ++ l2) =
  match loop st l1 with
  | Exhausted st1 => loop st1 l2
  | e => e
  end.
Proof.
  revert st. induction l1 as [|u l1 IH]; intros st; simpl; [done|].
  by destruct (step st u).
Qed.

(** *** What a run of the body does to the accumulator *)

Lemma step_best st u :
  best (flow_state (step st u)) =
  match exam u with
  | Valid e => if improves (entry_score e) (best st) then Some e else best st
  | _ => best st
  end.
Proof.
  rewrite scan_step_examine. destruct (exam u) as [| | | |e]; try done.
  cbv zeta. cbn [best with_valid with_checked with_fetched].
  destruct (improves (entry_score e) (best st));
    destruct (good_enough _); try done; by destruct (_ <=? _)%nat.
Qed.

Lemma loop_exhausted_best st ordered st' :
  loop st ordered = Exhausted st' → best st' = fold_best fetch score min_width (best st) ordered.
Proof.
  revert st. induction ordered as [|u l IH]; intros st; simpl.
  - by intros [= ->].
  - pose proof (step_best st u) as Hb.
    destruct (step st u) as [st1| |]; [|done..].
    intros ->%IH. simpl in Hb. by rewrite Hb.
Qed.

Lemma fold_best_cons (ob : option (Q * bytes * string)) u l :
  fold_best fetch score min_width ob (u :: l) =
  fold_best fetch score min_width
    (match exam u with
     | Valid e => if improves (entry_score e) ob then Some e else ob
     | _ => ob
     end) l.
Proof. done. Qed.

(** From a recorded best [b], the scan ends either with [b], which
    nothing valid undercuts, or with a strictly better candidate that is
    the first minimum of the list. *)
Lemma fold_best_some b l r :
  fold_best fetch score min_width (Some b) l = Some r →
  (r = b ∧ ∀ u' e', u' ∈ l → exam u' = Valid e' →
                     (entry_score b <= entry_score e')%Q)
  ∨ ((entry_score r < entry_score b)%Q ∧ first_minimum fetch score min_width l r).
Proof.
  revert b. induction l as [|u l IH]; intros b.
  - intros [= <-]. left. split; [done|]. by intros ?? ?%elem_of_nil.
  - rewrite fold_best_cons. destruct (exam u) as [| | | |e] eqn:Hu.
    1-4: intros [[-> Hall]|[Hlt (pre & u0 & post & -> & Hu0 & Hpre & Hpost)]]%IH;
      [ left; split; [done|];
        intros u' e' [->|?]%elem_of_cons; [congruence|by eapply Hall]
      | right; split; [done|]; exists (u :: pre), u0, post;
        split_and!; [done..| |done];
        intros u' e' [->|?]%elem_of_cons; [congruence|by eapply Hpre] ].
    unfold improves. destruct b as [[s d] x].
    destruct (score_lt (entry_score e) s) eqn:Hlt.
    + apply score_lt_true in Hlt.
      intros [[-> Hall]|[Hlt' (pre & u0 & post & -> & Hu0 & Hpre & Hpost)]]%IH.
      * right. split; [done|]. exists [], u, l. split_and!; [done..| |done].
        by intros ?? ?%elem_of_nil.
      * right. split; [by eapply Qlt_trans|].
        exists (u :: pre), u0, post. split_and!; [done..| |done].
        intros u' e' [->|?]%elem_of_cons; [|by eapply Hpre].
        rewrite Hu. intros [= <-]. done.
    + apply score_lt_false in Hlt.
      intros [[-> Hall]|[Hlt' (pre & u0 & post & -> & Hu0 & Hpre & Hpost)]]%IH.
      * left. split; [done|].
        intros u' e' [->|?]%elem_of_cons; [|by eapply Hall].
        rewrite Hu. intros [= <-]. done.
      * right. split; [done|].
        exists (u :: pre), u0, post. split_and!; [done..| |done].
        intros u' e' [->|?]%elem_of_cons; [|by eapply Hpre].
        rewrite Hu. intros [= <-]. by eapply Qlt_le_trans.
Qed.

Lemma fold_best_none l :
  fold_best fetch score min_width None l = None →
  ∀ u e, u ∈ l → exam u ≠ Valid e.
Proof.
  induction l as [|u l IH]; [by intros _ ?? ?%elem_of_nil|].
  rewrite fold_best_cons. destruct (exam u) as [| | | |e] eqn:Hu.
  1-4: intros H u' e' [->|?]%elem_of_cons; [congruence|by apply IH].
  simpl. intros H. exfalso. clear -H.
  assert (∀ l b, fold_best fetch score min_width (Some b) l ≠ None) as Hne.
  { clear. induction l as [|u l IH]; intros b; [done|].
    rewrite fold_best_cons. destruct (exam u); try apply IH.
    destruct (improves _ _); apply IH. }
  by eapply Hne.
Qed.

Lemma fold_best_first_minimum l r :
  fold_best fetch score min_width None l = Some r →
  first_minimum fetch score min_width l r.
Proof.
  induction l as [|u l IH]; [done|].
  rewrite fold_best_cons. destruct (exam u) as [| | | |e] eqn:Hu.
  1-4: intros (pre & u0 & post & -> & Hu0 & Hpre & Hpost)%IH;
    exists (u :: pre), u0, post; split_and!; [done..| |done];
    intros u' e' [->|?]%elem_of_cons; [congruence|by eapply Hpre].
  simpl.
  intros [[-> Hall]|[Hlt (pre & u0 & post & -> & Hu0 & Hpre & Hpost)]]%fold_best_some.
  - exists [], u, l. split_and!; [done..| |done]. by intros ?? ?%elem_of_nil.
  - exists (u :: pre), u0, post. split_and!; [done..| |done].
    intros u' e' [->|?]%elem_of_cons; [|by eapply Hpre].
    rewrite Hu. intros [= <-]. done.
Qed.

(** The best score never goes up, however the loop ends. *)
Lemma step_best_decreases st u b :
  best st = Some b →
  ∃ b', best (flow_state (step st u)) = Some b'
        ∧ (entry_score b' <= entry_score b)%Q.
Proof.
  intros Hb. rewrite step_best, Hb.
  destruct (exam u) as [| | | |e]; try (exists b; split; [done|apply Qle_refl]).
  unfold improves. destruct b as [[s d] x].
  destruct (score_lt (entry_score e) s) eqn:Hlt.
  - apply score_lt_true in Hlt. exists e. split; [done|]. by apply Qlt_le_weak.
  - exists (s, d, x). split; [done|apply Qle_refl].
Qed.

Lemma loop_best_decreases st l b :
  best st = Some b →
  ∃ b', best (final_state (loop st l)) = Some b'
        ∧ (entry_score b' <= entry_score b)%Q.
Proof.
  revert st b. induction l as [|u l IH]; intros st b Hb; simpl.
  - exists b. split; [done|apply Qle_refl].
  - destruct (step_best_decreases st u b Hb) as (b1 & Hb1 & Hle).
    destruct (step st u) as [st1|why st1|st1]; simpl in *.
    + destruct (IH st1 b1 Hb1) as (b' & ? & ?). exists b'.
      split; [done|]. by eapply Qle_trans.
    + by exists b1.
    + by exists b1.
Qed.

(** *** The log of fetched URLs and the counters *)

Lemma step_fetched st u : fetched (flow_state (step st u)) = fetched st ++ [u].
Proof.
  rewrite scan_step_examine. destruct (exam u) as [| | | |e]; try done.
  cbv zeta. destruct (improves _ _);
    destruct (good_enough _); try done; by destruct (_ <=? _)%nat.
Qed.

Lemma loop_fetched st l :
  ∃ k, fetched (final_state (loop st l)) = fetched st ++ take k l.
Proof.
  revert st. induction l as [|u l IH]; intros st; simpl.
  - exists 0. by rewrite app_nil_r.
  - pose proof (step_fetched st u) as Hf.
    destruct (step st u) as [st1|why st1|st1]; simpl in *.
    + destruct (IH st1) as [k Hk]. exists (S k).
      rewrite Hk, Hf, <- app_assoc. done.
    + exists 1. by rewrite Hf.
    + exists 1. by rewrite Hf.
Qed.

Lemma step_valid st u :
  valid_candidates (flow_state (step st u)) =
  if passes fetch score min_width u then S (valid_candidates st)
  else valid_candidates st.
Proof.
  rewrite scan_step_examine. unfold passes.
  destruct (exam u) as [| | | |e]; try done.
  cbv zeta. destruct (improves _ _);
    destruct (good_enough _); try done; by destruct (_ <=? _)%nat.
Qed.

Lemma step_checked st u :
  checked (flow_state (step st u)) =
  if fetch u is Some _ then S (checked st) else checked st.
Proof.
  rewrite scan_step_examine. unfold examine.
  destruct (fetch u) as [[[[data w] h] ct]|]; [|done].
  destruct (w <? min_width)%Z; [done|].
  destruct (h =? 0)%Z; [done|].
  destruct (too_narrow w h); [done|].
  cbv zeta. destruct (improves _ _);
    destruct (good_enough _); try done; by destruct (_ <=? _)%nat.
Qed.

Lemma passes_fetched u :
  passes fetch score min_width u = true → is_Some (fetch u).
Proof.
  unfold passes, examine. destruct (fetch u); [by eexists|done].
Qed.

(** [checked] counts the fetched URLs whose download succeeded. *)
Lemma loop_checked st l :
  checked st = length (filter (λ x, is_Some (fetch x)) (fetched st)) →
  checked (final_state (loop st l))
  = length (filter (λ x, is_Some (fetch x)) (fetched (final_state (loop st l)))).
Proof.
  revert st. induction l as [|u l IH]; intros st Hc; simpl; [done|].
  assert (checked (flow_state (step st u))
          = length (filter (λ x, is_Some (fetch x))
                      (fetched (flow_state (step st u))))) as Hstep.
  { rewrite step_checked, step_fetched, filter_app, length_app, <- Hc.
    destruct (fetch u) eqn:Hu.
    - rewrite filter_cons_True by (by rewrite Hu). simpl. lia.
    - rewrite filter_cons_False by (rewrite Hu; by intros [? ?]). simpl. lia. }
  destruct (step st u) as [st1|why st1|st1]; simpl in *; [by apply IH|done..].
Qed.

(** A state from which the loop goes on has seen fewer than 100 valid
    candidates; any state has counted each URL at most once. *)
Lemma step_counters st u :
  valid_candidates st ≤ checked st →
  valid_candidates st < 100 →
  valid_candidates st = length (filter (λ x, passes fetch score min_width x = true) (fetched st)) →
  checked st ≤ length (fetched st) →
  let st' := flow_state (step st u) in
  valid_candidates st' ≤ checked st'
  ∧ valid_candidates st' ≤ 100
  ∧ valid_candidates st' = length (filter (λ x, passes fetch score min_width x = true) (fetched st'))
  ∧ checked st' ≤ length (fetched st')
  ∧ (∀ st1, step st u = Next st1 → valid_candidates st' < 100).
Proof.
  intros Hvc Hv Hlen Hc. cbv zeta.
  rewrite step_valid, step_checked, step_fetched.
  rewrite filter_app, !length_app. simpl.
  pose proof (passes_fetched u) as Hp.
  destruct (passes fetch score min_width u) eqn:Hpass.
  - destruct Hp as [i Hi]; [done|]. rewrite Hi.
    rewrite filter_cons_True, filter_nil by done. simpl.
    split_and!; try lia.
    intros st1 Hst1. pose proof (step_checked st u) as Hch.
    rewrite Hi, Hst1 in Hch. simpl in Hch.
    rewrite scan_step_examine in Hst1. unfold passes in Hpass.
    destruct (exam u) as [| | | |e]; try done. cbv zeta in Hst1.
    destruct (good_enough _); [done|].
    destruct (100 <=? _)%nat eqn:Hcap; [done|].
    apply Nat.leb_gt in Hcap. injection Hst1 as <-.
    assert (checked (if improves (entry_score e)
                         (best (with_valid (with_checked (with_fetched u st))))
                     then with_best e (with_valid (with_checked (with_fetched u st)))
                     else with_valid (with_checked (with_fetched u st)))
            = S (checked st)) as Heq by (by destruct (improves _ _)).
    lia.
  - rewrite filter_cons_False, filter_nil by (by rewrite Hpass). simpl.
    destruct (fetch u); split_and!; try lia.
Qed.

Lemma loop_counters st l :
  valid_candidates st ≤ checked st →
  valid_candidates st < 100 →
  valid_candidates st = length (filter (λ x, passes fetch score min_width x = true) (fetched st)) →
  checked st ≤ length (fetched st) →
  let st' := final_state (loop st l) in
  valid_candidates st' ≤ checked st'
  ∧ valid_candidates st' ≤ 100
  ∧ valid_candidates st' = length (filter (λ x, passes fetch score min_width x = true) (fetched st'))
  ∧ checked st' ≤ length (fetched st').
Proof.
  revert st. induction l as [|u l IH]; intros st Hvc Hv Hlen Hc; simpl.
  - split_and!; [done|lia|done..].
  - destruct (step_counters st u Hvc Hv Hlen Hc) as (H1 & H2 & H3 & H4 & H5).
    destruct (step st u) as [st1|why st1|st1] eqn:Hstep; simpl in *.
    + apply IH; try done. by eapply H5.
    + done.
    + done.
Qed.

(** C1, with the safety cap taken into account.  In a run that consumes
    the whole list (neither the early exit nor the safety cap stops it, and
    no image has height zero) the final best is the first strict minimum
    over all filter-passing candidates, or there is none and no candidate
    passes.  In any state the first valid candidate becomes the best, a
    later one replaces it exactly when its score is strictly lower (on an
    equal score the recorded one stays), anything else leaves it alone, and
    the best score after a longer prefix is never above the one after a
    shorter prefix. *)
Theorem best_is_first_minimum ordered st :
  scan fetch score min_width ordered = Exhausted st →
  match best st with
  | Some b => first_minimum fetch score min_width ordered b
  | None => ∀ u e, u ∈ ordered → exam u ≠ Valid e
  end
  ∧ (∀ st0 u e, exam u = Valid e → best st0 = None →
       best (flow_state (step st0 u)) = Some e)
  ∧ (∀ st0 u b e, exam u = Valid e → best st0 = Some b →
       (entry_score e < entry_score b)%Q →
       best (flow_state (step st0 u)) = Some e)
  ∧ (∀ st0 u b e, exam u = Valid e → best st0 = Some b →
       (entry_score b <= entry_score e)%Q →
       best (flow_state (step st0 u)) = Some b)
  ∧ (∀ st0 u b, best st0 = Some b → (∀ e, exam u ≠ Valid e) →
       best (flow_state (step st0 u)) = Some b)
  ∧ (∀ pre post b1, ordered = pre ++ post →
       best (final_state (scan fetch score min_width pre)) = Some b1 →
       ∃ b, best st = Some b ∧ (entry_score b <= entry_score b1)%Q).
Proof.
  intros Hscan. split_and!.
  - apply loop_exhausted_best in Hscan. simpl in Hscan.
    destruct (best st) as [b|].
    + by apply fold_best_first_minimum.
    + by apply fold_best_none.
  - intros st0 u e Hu Hb. by rewrite step_best, Hu, Hb.
  - intros st0 u [[s d] x] e Hu Hb Hlt. rewrite step_best, Hu, Hb.
    change (entry_score (s, d, x)) with s in Hlt.
    apply score_lt_true in Hlt. unfold improves. by rewrite Hlt.
  - intros st0 u [[s d] x] e Hu Hb Hle. rewrite step_best, Hu, Hb.
    change (entry_score (s, d, x)) with s in Hle.
    apply score_lt_false in Hle. unfold improves. by rewrite Hle.
  - intros st0 u b Hb Hu. rewrite step_best, Hb.
    destruct (exam u) as [| | | |e]; try done. by destruct (Hu e).
  - intros pre post b1 -> Hb1. unfold scan in *. rewrite loop_app in Hscan.
    destruct (loop scan_init pre) as [st1| |]; [|done..].
    destruct (loop_best_decreases st1 post b1 Hb1) as (b & Hb & Hle).
    rewrite Hscan in Hb. by exists b.
Qed.

(** *** Rejected candidates *)

Lemma loop_best_origin st l b :
  best (final_state (loop st l)) = Some b →
  best st = Some b ∨ ∃ u, u ∈ l ∧ exam u = Valid b.
Proof.
  revert st. induction l as [|u l IH]; intros st; simpl; [by left|].
  pose proof (step_best st u) as Hb.
  assert (∀ st1, best st1 = best (flow_state (step st u)) →
            best st1 = Some b →
            best st = Some b ∨ ∃ u0, u0 ∈ u :: l ∧ exam u0 = Valid b) as Hone.
  { intros st1 -> H1. rewrite Hb in H1.
    destruct (exam u) as [| | | |e] eqn:Hu; try by left.
    destruct (improves _ _); [|by left].
    injection H1 as ->. right. exists u. split; [left|done]. }
  destruct (step st u) as [st1|why st1|st1]; simpl in *.
  - intros [H1|(u0 & ? & ?)]%IH; [by apply (Hone st1)|].
    right. exists u0. split; [by right|done].
  - by apply Hone.
  - by apply Hone.
Qed.

Lemma rank_result_of ordered :
  rank fetch score min_width ordered
  = result_of (scan fetch score min_width ordered).
Proof. by destruct ordered. Qed.

(** C4, as the program has it.  A candidate that fails to download, is too
    narrow or is not landscape enough never ends the loop and leaves the
    best and the count of valid candidates as they were; a failed download
    changes nothing else, a downloaded but rejected image is still counted
    in [checked].  Whatever a run returns is the data and extension of a
    candidate that passes the filters; a 500 px wide image scored -100
    loses to a 2000 px wide one scored 0.5. *)
Theorem rejected_leaves_best :
  (∀ st u, rejected fetch score min_width u →
     ∃ st', step st u = Next st'
            ∧ best st' = best st
            ∧ valid_candidates st' = valid_candidates st
            ∧ fetched st' = fetched st ++ [u]
            ∧ checked st' = if fetch u is Some _ then S (checked st)
                            else checked st)
  ∧ (∀ ordered data ext,
       rank fetch score min_width ordered = Returned (Some (data, ext)) →
       ∃ u s, u ∈ ordered ∧ exam u = Valid (s, data, ext)
              ∧ ¬ rejected fetch score min_width u)
  ∧ rank Stub.fetch Stub.score MIN_LANDSCAPE_WIDTH Stub.small_then_half
    = Returned (Some (Stub.tagged 1, ".webp")).
Proof.
  split_and!.
  - intros st u Hrej.
    pose proof (step_checked st u) as Hc. rewrite scan_step_examine in *.
    destruct Hrej as [Hu|[Hu|Hu]]; rewrite Hu in *; eexists; by split_and!.
  - intros ordered data ext. rewrite rank_result_of. unfold result_of.
    destruct (scan fetch score min_width ordered) as [st| why st|st] eqn:Hscan;
      [| |done].
    all: destruct (best st) as [[[s d] x]|] eqn:Hb; [|done].
    all: intros [= <- <-].
    all: pose proof (loop_best_origin scan_init ordered (s, d, x)) as Ho.
    all: unfold scan in Hscan; rewrite Hscan in Ho.
    all: destruct (Ho Hb) as [?|(u & Hin & Hu)]; [done|].
    all: exists u, s; split_and!; [done..|].
    all: unfold rejected; rewrite Hu; by intros [?|[?|?]].
  - by vm_compute.
Qed.

(** *** The early exit *)

Lemma step_good_enough st u :
  good_enough st = false →
  match step st u with
  | Break GoodEnough st' => good_enough st' = true
  | f => good_enough (flow_state f) = false
  end.
Proof.
  intros Hg. rewrite scan_step_examine.
  destruct (exam u) as [| | | |e]; try done.
  cbv zeta. clear Hg.
  match goal with |- context [Break GoodEnough ?x] => generalize x end.
  intros st2. destruct (good_enough st2) eqn:Hg'; [done|].
  by destruct (100 <=? _).
Qed.

Lemma loop_good_enough st l :
  good_enough st = false →
  match loop st l with
  | Stopped GoodEnough st' => good_enough st' = true
  | e => good_enough (final_state e) = false
  end.
Proof.
  revert st. induction l as [|u l IH]; intros st Hg; simpl; [done|].
  pose proof (step_good_enough st u Hg) as Hs.
  destruct (step st u) as [st1|[|] st1|st1]; simpl in *; try done.
  by apply IH.
Qed.

(** C5: once the state after a prefix of the list has a best score below
    the binary64 number 0.3 and counts at least 2 valid candidates, the
    loop has stopped there for that reason: the scan of any longer list is
    the same stopped scan, and every URL it fetched lies in the prefix. *)
Theorem early_exit_stops pre post s data ext :
  best (final_state (scan fetch score min_width pre)) = Some (s, data, ext) →
  (s < good_enough_score)%Q →
  2 ≤ valid_candidates (final_state (scan fetch score min_width pre)) →
  ∃ st, scan fetch score min_width pre = Stopped GoodEnough st
        ∧ scan fetch score min_width (pre ++ post) = Stopped GoodEnough st
        ∧ ∃ k, fetched st = take k pre.
Proof.
  intros Hb Hs Hv.
  assert (good_enough (final_state (scan fetch score min_width pre)) = true)
    as Hg.
  { unfold good_enough. rewrite Hb. apply andb_true_iff. split.
    - by apply score_lt_true.
    - by apply Nat.leb_le. }
  pose proof (loop_good_enough scan_init pre eq_refl) as Hl.
  pose proof (loop_fetched scan_init pre) as [k Hk].
  unfold scan in *.
  destruct (loop scan_init pre) as [st|[|] st|st] eqn:Hpre; simpl in *;
    try congruence.
  exists st. split_and!; [done| |by exists k].
  by rewrite loop_app, Hpre.
Qed.

(** *** Failed downloads *)

Lemma step_agree st st' u :
  agree st st' →
  match step st u, step st' u with
  | Next a, Next a' | Raise a, Raise a' => agree a a'
  | Break why a, Break why' a' => why = why' ∧ agree a a'
  | _, _ => False
  end.
Proof.
  intros (Hb & Hc & Hv).
  destruct st as [b c v f], st' as [b' c' v' f']. simpl in Hb, Hc, Hv.
  subst b' c' v'. rewrite !scan_step_examine.
  destruct (exam u) as [| | | |e]; try (by repeat split).
  cbv zeta. unfold with_valid, with_checked, with_fetched. cbn [best].
  destruct (improves (entry_score e) b); unfold good_enough, with_best;
    cbn [best valid_candidates checked].
  - destruct e as [[s d] x].
    destruct (_ && _); [by repeat split|].
    destruct (_ <=? _); by repeat split.
  - destruct b as [[[s d] x]|].
    + destruct (_ && _); [by repeat split|].
      destruct (_ <=? _); by repeat split.
    + destruct (_ <=? _); by repeat split.
Qed.

Lemma loop_skip_failed st st' l :
  agree st st' →
  match loop st l, loop st' (filter (λ u, is_Some (fetch u)) l) with
  | Exhausted a, Exhausted a' | Crashed a, Crashed a' => agree a a'
  | Stopped why a, Stopped why' a' => why = why' ∧ agree a a'
  | _, _ => False
  end.
Proof.
  revert st st'. induction l as [|u l IH]; intros st st' Ha; simpl; [done|].
  destruct (decide (is_Some (fetch u))) as [Hu|Hu].
  - rewrite filter_cons_True by done. simpl.
    pose proof (step_agree st st' u Ha) as Hs.
    destruct (step st u), (step st' u); try done. by apply IH.
  - rewrite filter_cons_False by done.
    rewrite scan_step_examine. unfold examine.
    destruct (fetch u); [by destruct Hu|]. apply IH.
    destruct Ha as (? & ? & ?). by repeat split.
Qed.

(** C6: a candidate whose download raises is skipped and nothing else
    happens: a run on any list returns what the run on its successfully
    downloaded candidates returns; when the first two of three URLs fail
    and the third downloads and passes the filters, the third is what is
    returned. *)
Theorem failed_downloads_are_skipped :
  (∀ ordered,
     rank fetch score min_width ordered
     = rank fetch score min_width (filter (λ u, is_Some (fetch u)) ordered))
  ∧ (∀ u1 u2 u3 s data ext,
       fetch u1 = None → fetch u2 = None → exam u3 = Valid (s, data, ext) →
       rank fetch score min_width [u1; u2; u3] = Returned (Some (data, ext))).
Proof.
  split.
  - intros ordered. rewrite !rank_result_of. unfold scan.
    pose proof (loop_skip_failed scan_init scan_init ordered) as H.
    destruct (loop scan_init ordered), (loop scan_init (filter _ ordered));
      simpl; try (by destruct H).
    + destruct H as (-> & _ & _); [done|]. done.
    + destruct H as (_ & -> & _ & _); [done|]. done.
  - intros u1 u2 u3 s data ext H1 H2 H3. rewrite rank_result_of.
    assert (exam u1 = Failed) as E1 by (unfold examine; by rewrite H1).
    assert (exam u2 = Failed) as E2 by (unfold examine; by rewrite H2).
    unfold scan. cbn [scan_loop].
    rewrite scan_step_examine, E1, scan_step_examine, E2, scan_step_examine, H3.
    cbv zeta. cbn [best with_valid with_checked with_fetched scan_init improves].
    unfold good_enough. cbn [best with_best valid_candidates andb Nat.leb].
    rewrite andb_false_r. by cbn.
Qed.

(** C2, as the program has it.  The URLs fetched in a run are a prefix of
    the list, each fetched once, so there are at most as many attempts as
    candidates; [checked] counts the attempts that succeeded and
    [valid_candidates] those whose image passes the filters, and the latter
    never exceeds 100. *)
Theorem scan_cap ordered :
  (∃ k, fetched (final_state (scan fetch score min_width ordered))
        = take k ordered)
  ∧ length (fetched (final_state (scan fetch score min_width ordered)))
    ≤ length ordered
  ∧ checked (final_state (scan fetch score min_width ordered))
    = length (filter (λ u, is_Some (fetch u))
                (fetched (final_state (scan fetch score min_width ordered))))
  ∧ valid_candidates (final_state (scan fetch score min_width ordered))
    = length (filter (λ u, passes fetch score min_width u = true)
                (fetched (final_state (scan fetch score min_width ordered))))
  ∧ valid_candidates (final_state (scan fetch score min_width ordered))
    ≤ checked (final_state (scan fetch score min_width ordered))
  ∧ valid_candidates (final_state (scan fetch score min_width ordered)) ≤ 100.
Proof.
  unfold scan.
  destruct (loop_fetched scan_init ordered) as [k Hk]. simpl in Hk.
  destruct (loop_counters scan_init ordered) as (H1 & H2 & H3 & H4);
    [simpl; lia..|done|simpl; lia|].
  split_and!; try done.
  - by exists k.
  - rewrite Hk, length_take. lia.
  - by apply loop_checked.
Qed.

End Engine.

(** ** Runs against the stubs *)

Section StubRuns.
Import Py Posters Spec.

Local Abbreviation scan' := (scan Stub.fetch Stub.score MIN_LANDSCAPE_WIDTH).
Local Abbreviation rank' := (rank Stub.fetch Stub.score MIN_LANDSCAPE_WIDTH).
Local Abbreviation step' :=
  (scan_step Stub.fetch Stub.score MIN_LANDSCAPE_WIDTH).
Local Abbreviation examine' :=
  (examine Stub.fetch Stub.score MIN_LANDSCAPE_WIDTH).
Local Abbreviation first_minimum' :=
  (first_minimum Stub.fetch Stub.score MIN_LANDSCAPE_WIDTH).

(** For valid candidates scored 5.0, 2.0, 8.0 in that order the scan ends
    with the one scored 2.0, the first minimum of the three. *)
Lemma best_is_first_minimum_witness :
  ∃ st, scan' Stub.scored_5_2_8 = Exhausted st
        ∧ best st = Some (2%Q, Stub.tagged 2, ".png")
        ∧ first_minimum' Stub.scored_5_2_8 (2%Q, Stub.tagged 2, ".png").
Proof.
  eexists. split; [by vm_compute|]. split; [reflexivity|].
  eapply (proj1 (best_is_first_minimum Stub.fetch Stub.score
                   MIN_LANDSCAPE_WIDTH Stub.scored_5_2_8 _ eq_refl)).
Defined.

(** C1 as stated fails: with 100 valid candidates scored 5.0 ahead of one
    scored 2.0 the early exit never triggers, yet the safety cap ends the
    scan after the hundredth download and the best returned scores 5.0. *)
Lemma cap_hides_the_minimum :
  (∃ st, scan' Stub.hundred_then_better = Stopped SafetyCap st
         ∧ best st = Some (5%Q, Stub.tagged 5, ".jpg"))
  ∧ rank' Stub.hundred_then_better = Returned (Some (Stub.tagged 5, ".jpg"))
  ∧ "http://a/two.png" ∈ Stub.hundred_then_better
  ∧ examine' "http://a/two.png" = Valid (2%Q, Stub.tagged 2, ".png")
  ∧ ¬ first_minimum' Stub.hundred_then_better (5%Q, Stub.tagged 5, ".jpg").
Proof.
  split_and!.
  - eexists. split; [by vm_compute|reflexivity].
  - by vm_compute.
  - unfold Stub.hundred_then_better. apply elem_of_app. right. left.
  - by vm_compute.
  - intros (pre & u & post & Heq & Hu & _ & Hpost).
    unfold Stub.hundred_then_better in Heq.
    destruct post as [|x post _] using rev_ind.
    + apply app_inj_tail in Heq as [_ <-]. by vm_compute in Hu.
    + rewrite app_comm_cons, app_assoc in Heq.
      apply app_inj_tail in Heq as [_ <-].
      specialize (Hpost "http://a/two.png" (2%Q, Stub.tagged 2, ".png")).
      apply Hpost; [|by vm_compute..].
      apply elem_of_app. right. left.
Qed.

(** The stub's small image is rejected: the step from the initial state
    goes on with no best and no valid candidate. *)
Lemma rejected_leaves_best_witness :
  ∃ st', step' scan_init "http://small/x.jpg" = Next st'
         ∧ best st' = None
         ∧ valid_candidates st' = 0
         ∧ fetched st' = [] ++ ["http://small/x.jpg"]
         ∧ checked st' = 1.
Proof.
  apply (proj1 (rejected_leaves_best Stub.fetch Stub.score MIN_LANDSCAPE_WIDTH)
           scan_init "http://small/x.jpg").
  right. left. by vm_compute.
Defined.

(** C4 as stated fails: rejected candidates are counted in [checked], so
    100 too-narrow images ahead of two valid ones make the safety cap end
    the scan at the first valid one (scored 5.0); without them the second
    (scored 2.0) is returned. *)
Lemma rejected_candidates_trip_the_cap :
  examine' <$> Stub.numbered "http://small/" 100 = replicate 100 TooSmall
  ∧ rank' Stub.hundred_small_then_two
    = Returned (Some (Stub.tagged 5, ".jpg"))
  ∧ rank' Stub.five_then_two = Returned (Some (Stub.tagged 2, ".png"))
  ∧ checked (final_state (scan' Stub.hundred_small_then_two)) = 101.
Proof. split_and!; by vm_compute. Qed.

(** With scores 0.5 and then 0.25 the second valid candidate ends the
    scan; a third URL is never fetched. *)
Lemma early_exit_stops_witness :
  ∃ st, scan' Stub.half_then_quarter = Stopped GoodEnough st
        ∧ scan' (Stub.half_then_quarter ++ ["http://a/two.png"])
          = Stopped GoodEnough st
        ∧ ∃ k, fetched st = take k Stub.half_then_quarter.
Proof.
  apply (early_exit_stops Stub.fetch Stub.score MIN_LANDSCAPE_WIDTH
           Stub.half_then_quarter ["http://a/two.png"]
           (1 # 4)%Q (Stub.tagged 4) ".jpg").
  - by vm_compute.
  - by vm_compute.
  - vm_compute. lia.
Defined.

(** Two dead links and then a valid image: the image is returned. *)
Lemma failed_downloads_are_skipped_witness :
  rank' Stub.two_dead_then_two = Returned (Some (Stub.tagged 2, ".png")).
Proof.
  apply (proj2 (failed_downloads_are_skipped Stub.fetch Stub.score
                  MIN_LANDSCAPE_WIDTH)
           "http://dead/1" "http://dead/2" "http://a/two.png" 2%Q).
  - by vm_compute.
  - by vm_compute.
  - by vm_compute.
Defined.

(** C2 as stated fails: a movie database that answers with 101 dead links
    makes the run attempt 101 downloads. *)
Lemma dead_links_are_not_capped :
  Stub.fetch <$>
    dedup (collect Stub.dead_databases Stub.no_apis Stub.no_results
             Stub.no_results Stub.no_results "t").1
  = replicate 101 None
  ∧ length (fetched (final_state
      (scan' (dedup (collect Stub.dead_databases Stub.no_apis Stub.no_results
                       Stub.no_results Stub.no_results "t").1))))
    = 101
  ∧ fetch_best_landscape_any Stub.dead_databases Stub.no_apis Stub.no_results
      Stub.no_results Stub.no_results Stub.fetch Stub.score
      "t" MIN_LANDSCAPE_WIDTH
    = Returned None.
Proof. split_and!; by vm_compute. Qed.

End StubRuns.

(** ** The escalation through the sources *)

Section Sources.
Import Posters Spec.

Variable try_movie_databases : string → list string.
Variable try_free_image_apis : string → list string.
Variable google_image_search_any : string → nat → list string.
Variable ddg_image_search_any : string → nat → list string.
Variable bing_image_search_any : string → nat → list string.

Local Abbreviation collect' :=
  (collect try_movie_databases try_free_image_apis google_image_search_any
     ddg_image_search_any bing_image_search_any).
Local Abbreviation output' :=
  (output try_movie_databases try_free_image_apis google_image_search_any
     ddg_image_search_any bing_image_search_any).

(** C3, as the program has it.  The back ends are asked in the fixed
    order; the movie databases always; each of the others is skipped
    exactly when the number of URLs already collected from the back ends
    asked before it, duplicates included, has reached its threshold (10,
    20, 30, 40); the list handed to the aggregator is the outputs of the
    back ends asked, in that order. *)
Theorem collect_escalation (title : string) :
  sublist (collect' title).2 all_sources
  ∧ MovieDatabases ∈ (collect' title).2
  ∧ (∀ s, s ≠ MovieDatabases →
       (s ∉ (collect' title).2 ↔
        threshold s ≤ length (concat (output' title <$> above s (collect' title).2))))
  ∧ (collect' title).1 = concat (output' title <$> (collect' title).2).
Proof.
  unfold collect, all_sources.
  destruct (length (try_movie_databases title) <? 10) eqn:H1;
  match goal with |- context [(length ?l <? 20)] =>
    destruct (length l <? 20) eqn:H2 end;
  match goal with |- context [(length ?l <? 30)] =>
    destruct (length l <? 30) eqn:H3 end;
  match goal with |- context [(length ?l <? 40)] =>
    destruct (length l <? 40) eqn:H4 end;
  cbn [fst snd app].
  all: repeat match goal with
              | H : (_ <? _) = true |- _ => apply Nat.ltb_lt in H
              | H : (_ <? _) = false |- _ => apply Nat.ltb_ge in H
              end.
  all: repeat rewrite length_app in *.
  all: split_and!;
    [ repeat (first [apply sublist_nil | apply sublist_skip | apply sublist_cons])
    | by left
    | intros s Hs; rewrite ?elem_of_cons, elem_of_nil;
      destruct s; try done; vm_compute above; cbn [fmap list_fmap concat output];
      rewrite ?length_app, ?app_nil_r; cbn [threshold length];
      (split; [intros Hnot; first [lia | exfalso; apply Hnot; tauto]
              | intros Hle Hin; first [lia | intuition discriminate]])
    | cbn [fmap list_fmap concat output]; by rewrite ?app_nil_r, <- ?app_assoc ].
Qed.

End Sources.

(** C3 as stated fails: after DuckDuckGo the list holds 43 URLs of which
    28 are distinct (fifteen came from Google already); Bing, whose
    threshold is 40, is skipped all the same. *)
Lemma duplicates_count_towards_threshold :
  (Posters.collect Stub.movie_databases Stub.free_image_apis Stub.google
     Stub.ddg Stub.bing "t").2
  = [Posters.MovieDatabases; Posters.FreeImageApis; Posters.Google;
     Posters.DuckDuckGo]
  ∧ length (Posters.collect Stub.movie_databases Stub.free_image_apis
              Stub.google Stub.ddg Stub.bing "t").1 = 43
  ∧ length (Posters.dedup
              (Posters.collect Stub.movie_databases Stub.free_image_apis
                 Stub.google Stub.ddg Stub.bing "t").1) = 28.
Proof. split_and!; by vm_compute. Qed.

(** ** Numbers *)

(** The threshold of the early exit is the binary64 number that the
    literal [0.3] denotes. *)
Lemma good_enough_score_binary64 :
  Prim2SF 0.3%float = S754_finite false 5404319552844595 (-54)
  ∧ Qnum Posters.good_enough_score = 5404319552844595%Z
  ∧ Zpos (Qden Posters.good_enough_score) = (2 ^ 54)%Z.
Proof. split_and!; by vm_compute. Qed.

(** The binary64 aspect test at the floor: 1199:1000 is under 1.2, 6:5
    and 1201:1000 are not, and 16:9 is landscape. *)
Lemma too_narrow_at_the_floor :
  Posters.too_narrow 1199 1000 = true
  ∧ Posters.too_narrow 6 5 = false
  ∧ Posters.too_narrow 1201 1000 = false
  ∧ Posters.too_narrow 1920 1080 = false.
Proof. split_and!; by vm_compute. Qed.

(** ** Colour

    The lightness of a Lab triple is [116 * f_lab (Y / Yn) - 16] in
    binary64.  Where the value does not depend on how [pow] rounds it can
    be evaluated: channels up to 10 take the linear branches only, and
    white needs nothing but [pow 1 y = 1]. *)

Section Colour.
Import Posters.
Variable pow : float → float → float.

Lemma lightness_black : (lab_of_rgb pow 0 0 0).1.1 = 0%float.
Proof. by vm_compute. Qed.

Lemma lightness_dark (r g b : Z) :
  (0 <= r <= 10)%Z → (0 <= g <= 10)%Z → (0 <= b <= 10)%Z →
  ((0 <=? (lab_of_rgb pow r g b).1.1)
   && ((lab_of_rgb pow r g b).1.1 <=? 100))%float = true.
Proof.
  intros Hr Hg Hb.
  assert (∀ x, (0 <= x <= 10)%Z →
            x ∈ [0; 1; 2; 3; 4; 5; 6; 7; 8; 9; 10]%Z) as Hin.
  { intros x Hx. rewrite !elem_of_cons.
    assert (x = 0 ∨ x = 1 ∨ x = 2 ∨ x = 3 ∨ x = 4 ∨ x = 5 ∨ x = 6 ∨ x = 7
            ∨ x = 8 ∨ x = 9 ∨ x = 10)%Z by lia. tauto. }
  apply Hin in Hr, Hg, Hb.
  assert (Forall (λ r, Forall (λ g, Forall (λ b,
            ((0 <=? (lab_of_rgb pow r g b).1.1)
             && ((lab_of_rgb pow r g b).1.1 <=? 100))%float = true)
            [0; 1; 2; 3; 4; 5; 6; 7; 8; 9; 10]%Z)
            [0; 1; 2; 3; 4; 5; 6; 7; 8; 9; 10]%Z)
            [0; 1; 2; 3; 4; 5; 6; 7; 8; 9; 10]%Z) as Hall.
  { repeat (constructor; [repeat (constructor;
                            [repeat (constructor; [by vm_compute|])|])|]);
      constructor. }
  rewrite Forall_forall in Hall. specialize (Hall r Hr).
  rewrite Forall_forall in Hall. specialize (Hall g Hg).
  rewrite Forall_forall in Hall. by apply Hall.
Qed.

Lemma lightness_white :
  (∀ y, pow 1 y = 1%float) → (lab_of_rgb pow 255 255 255).1.1 = 100%float.
Proof.
  intros Hpow.
  assert (srgb_to_linear pow (float_of_int 255) = 1%float) as Hlin.
  { unfold srgb_to_linear.
    change (float_of_int 255 / 255.0)%float with 1%float.
    change (1 <=? 0.04045)%float with false.
    change ((1 + 0.055) / 1.055)%float with 1%float. apply Hpow. }
  unfold lab_of_rgb, rgb_to_xyz. rewrite Hlin. cbv zeta.
  unfold xyz_to_lab. cbv zeta. cbn [fst].
  change ((1 * 0.2126 + 1 * 0.7152 + 1 * 0.0722) / 1.00000)%float with 1%float.
  unfold f_lab. cbv zeta.
  change (216 / 24389 <? 1)%float with true. cbv iota.
  rewrite Hpow. by vm_compute.
Qed.

End Colour.

(** ** Binary64 arithmetic

    The operations of the colour conversion are those of [SpecFloat]:
    the exact result, located between two multiples of a unit, is rounded
    to the nearest even mantissa.  A result lies between any two binary64
    numbers that enclose the exact value. *)

Section Bpow.
Import Binary64.
Local Open Scope Q_scope.

Lemma bpow_pos e : 0 < bpow e.
Proof. apply Qpower_0_lt. reflexivity. Qed.

Lemma bpow_add a b : bpow (a + b) == bpow a * bpow b.
Proof. apply Qpower_plus. discriminate. Qed.

Lemma bpow_succ e : bpow (e + 1) == 2 * bpow e.
Proof. rewrite bpow_add. unfold bpow at 2. rewrite Qpower_1_r. ring. Qed.

Lemma bpow_le a b : (a ≤ b)%Z → bpow a <= bpow b.
Proof. intros. apply Qpower_le_compat_l; [done|]. discriminate. Qed.

Lemma bpow_lt a b : (a < b)%Z → bpow a < bpow b.
Proof. intros. apply Qpower_lt_compat_l; [done|]. reflexivity. Qed.

Lemma bpow_Z k : (0 ≤ k)%Z → bpow k == inject_Z (2 ^ k).
Proof. intros. unfold bpow. by rewrite Zpower_Qpower. Qed.

Lemma F2Q_le a b e : (a ≤ b)%Z → F2Q a e <= F2Q b e.
Proof.
  intros H. unfold F2Q. apply Qmult_le_compat_r.
  - by rewrite <- Zle_Qle.
  - apply Qlt_le_weak, bpow_pos.
Qed.

Lemma F2Q_lt a b e : (a < b)%Z → F2Q a e < F2Q b e.
Proof.
  intros H. unfold F2Q. apply Qmult_lt_compat_r; [apply bpow_pos|].
  by rewrite <- Zlt_Qlt.
Qed.

Lemma F2Q_le_inv a b e : F2Q a e <= F2Q b e → (a ≤ b)%Z.
Proof.
  intros H. destruct (Z.le_gt_cases a b) as [|Hlt]; [done|].
  apply (F2Q_lt _ _ e) in Hlt. lra.
Qed.

Lemma F2Q_lt_inv a b e : F2Q a e < F2Q b e → (a < b)%Z.
Proof.
  intros H. destruct (Z.lt_ge_cases a b) as [|Hle]; [done|].
  apply (F2Q_le _ _ e) in Hle. lra.
Qed.

(** The same number with a smaller exponent. *)
Lemma F2Q_shift m e k : (0 ≤ k)%Z → F2Q m e == F2Q (m * 2 ^ k) (e - k).
Proof.
  intros Hk. unfold F2Q. rewrite inject_Z_mult, <- (bpow_Z k Hk).
  replace e with ((e - k) + k)%Z at 1 by lia. rewrite bpow_add. ring.
Qed.

Lemma F2Q_0 e : F2Q 0 e == 0.
Proof. unfold F2Q. ring. Qed.

Lemma F2Q_succ m e : F2Q (m + 1) e == F2Q m e + bpow e.
Proof. unfold F2Q. rewrite inject_Z_plus. ring. Qed.

End Bpow.

Section Digits.
Import Binary64.
Local Open Scope Z_scope.

Lemma digits2_pos_bounds p :
  2 ^ (Zpos (digits2_pos p) - 1) ≤ Zpos p < 2 ^ Zpos (digits2_pos p).
Proof.
  induction p as [p IH|p IH|]; cbn [digits2_pos].
  - rewrite Pos2Z.inj_succ.
    replace (Z.succ (Zpos (digits2_pos p)) - 1) with (Z.succ (Zpos (digits2_pos p) - 1)) by lia.
    rewrite !Z.pow_succ_r by lia. lia.
  - rewrite Pos2Z.inj_succ.
    replace (Z.succ (Zpos (digits2_pos p)) - 1) with (Z.succ (Zpos (digits2_pos p) - 1)) by lia.
    rewrite !Z.pow_succ_r by lia. lia.
  - done.
Qed.

Lemma digits2_pos_ge p k : 0 ≤ k → 2 ^ k ≤ Zpos p → k + 1 ≤ Zpos (digits2_pos p).
Proof.
  intros Hk Hp. pose proof (digits2_pos_bounds p) as [_ Hd].
  assert (2 ^ k < 2 ^ Zpos (digits2_pos p)) as Hlt by lia.
  apply Z.pow_lt_mono_r_iff in Hlt; lia.
Qed.

Lemma digits2_pos_le p k : 0 ≤ k → Zpos p < 2 ^ k → Zpos (digits2_pos p) ≤ k.
Proof.
  intros Hk Hp. pose proof (digits2_pos_bounds p) as [Hd _].
  assert (2 ^ (Zpos (digits2_pos p) - 1) < 2 ^ k) as Hlt by lia.
  apply Z.pow_lt_mono_r_iff in Hlt; lia.
Qed.

(** What a canonical mantissa and exponent satisfy. *)
Lemma canon_facts m e :
  canon m e →
  Zpos (digits2_pos m) ≤ 53 ∧ -1074 ≤ e ≤ 971
  ∧ (-1074 < e → Zpos (digits2_pos m) = 53).
Proof.
  unfold canon, bounded, canonical_mantissa, fexp, SpecFloat.emin, prec, emax.
  intros [H1 H2]%andb_prop. apply Z.eqb_eq in H1. apply Z.leb_le in H2. lia.
Qed.

Lemma canon_intro m e :
  -1074 ≤ e ≤ 971 → Zpos (digits2_pos m) ≤ 53 →
  (-1074 < e → Zpos (digits2_pos m) = 53) → canon m e.
Proof.
  unfold canon, bounded, canonical_mantissa, fexp, SpecFloat.emin, prec, emax.
  intros. apply andb_true_intro. split; [apply Z.eqb_eq|apply Z.leb_le]; lia.
Qed.

Lemma canon_mantissa m e :
  canon m e → Zpos m < 2 ^ 53 ∧ (-1074 < e → 2 ^ 52 ≤ Zpos m).
Proof.
  intros (Hd & He & Hn)%canon_facts. pose proof (digits2_pos_bounds m) as [Hlo Hhi].
  split.
  - eapply Z.lt_le_trans; [exact Hhi|]. apply Z.pow_le_mono_r; lia.
  - intros H. rewrite (Hn H) in Hlo. exact Hlo.
Qed.

End Digits.

Section Shift.
Import Binary64.

Lemma located_shr_1 x mrs e :
  located x mrs e → located x (shr_1 mrs) (e + 1).
Proof.
  destruct mrs as [m r s]. unfold located. cbn [shr_m shr_r shr_s].
  intros (Hm & Hlo & Hhi & Hst).
  pose proof (bpow_pos e) as Hb. pose proof (bpow_succ e) as Hs.
  unfold F2Q in *.
  destruct m as [|[p|p|]|p]; [| | | |lia]; cbn [shr_1 shr_m shr_r shr_s].
  - (* 0 *)
    rewrite ?inject_Z_plus in *.
    change (inject_Z 0) with 0%Q in *. change (inject_Z 1) with 1%Q in *.
    split_and!; [done|lra|lra|].
    intros H. rewrite orb_false_l in H. apply Hst in H. lra.
  - (* 2p+1 *)
    change (Z.pos p~1) with (2 * Z.pos p + 1)%Z in *.
    rewrite ?inject_Z_plus, ?inject_Z_mult in *.
    change (inject_Z 2) with 2%Q in *. change (inject_Z 1) with 1%Q in *.
    split_and!; [done|nra|nra|]. intros _. nra.
  - (* 2p *)
    change (Z.pos p~0) with (2 * Z.pos p)%Z in *.
    rewrite ?inject_Z_plus, ?inject_Z_mult in *.
    change (inject_Z 2) with 2%Q in *. change (inject_Z 1) with 1%Q in *.
    split_and!; [done|nra|nra|].
    intros H. rewrite orb_false_l in H. apply Hst in H. nra.
  - (* 1 *)
    rewrite ?inject_Z_plus in *.
    change (inject_Z 0) with 0%Q in *. change (inject_Z 1) with 1%Q in *.
    split_and!; [done|nra|nra|]. intros _. nra.
Qed.

Lemma located_iter x p mrs e :
  located x mrs e → located x (SpecFloat.iter_pos shr_1 p mrs) (e + Zpos p).
Proof.
  revert mrs e. induction p as [p IH|p IH|]; intros mrs e H; cbn [SpecFloat.iter_pos].
  - replace (e + Z.pos p~1)%Z with (e + 1 + Z.pos p + Z.pos p)%Z by lia.
    by apply IH, IH, located_shr_1.
  - replace (e + Z.pos p~0)%Z with (e + Z.pos p + Z.pos p)%Z by lia.
    by apply IH, IH.
  - by apply located_shr_1.
Qed.

End Shift.

Section Order.
Import Binary64.
Local Open Scope Z_scope.

(** A 53-bit mantissa at a lower exponent is below a full mantissa at a
    higher one. *)
Lemma F2Q_lt_exp m1 e1 m2 e2 :
  e1 < e2 → m1 < 2 ^ 53 → 2 ^ 52 ≤ m2 → (F2Q m1 e1 < F2Q m2 e2)%Q.
Proof.
  intros He H1 H2.
  rewrite (F2Q_shift m2 e2 (e2 - e1)) by lia.
  replace (e2 - (e2 - e1)) with e1 by lia. apply F2Q_lt.
  assert (2 ^ 1 ≤ 2 ^ (e2 - e1)) by (apply Z.pow_le_mono_r; lia).
  change (2 ^ 1) with 2 in *. change (2 ^ 53) with (2 ^ 52 * 2) in H1. nia.
Qed.

Lemma F2Q_same_exp m e1 e2 : e1 ≤ e2 → (F2Q m e2 == F2Q (m * 2 ^ (e2 - e1)) e1)%Q.
Proof.
  intros. rewrite (F2Q_shift m e2 (e2 - e1)) by lia.
  by replace (e2 - (e2 - e1)) with e1 by lia.
Qed.

(** A canonical number above [m1 * 2^E] is at least [(m1 + 1) * 2^E],
    when [m1] is a full mantissa or [E] is the least exponent. *)
Lemma canon_above m1 E mc ec :
  canon mc ec → -1074 ≤ E → (-1074 < E → 2 ^ 52 ≤ m1) →
  (F2Q m1 E < F2Q (Zpos mc) ec)%Q → (F2Q (m1 + 1) E <= F2Q (Zpos mc) ec)%Q.
Proof.
  intros Hc HE Hm Hlt. pose proof (canon_mantissa _ _ Hc) as [Hmc _].
  pose proof (canon_facts _ _ Hc) as (_ & Hec & _).
  destruct (Z.le_gt_cases E ec) as [Hle|Hgt].
  - rewrite (F2Q_same_exp _ E ec Hle) in *.
    apply F2Q_lt_inv in Hlt. apply F2Q_le. lia.
  - pose proof (F2Q_lt_exp (Zpos mc) ec m1 E Hgt Hmc) as H.
    specialize (H (Hm ltac:(lia))). lra.
Qed.

Lemma canon_below m1 E ml el :
  canon ml el → -1074 ≤ E → (-1074 < E → 2 ^ 52 ≤ m1) →
  (F2Q (Zpos ml) el < F2Q (m1 + 1) E)%Q → (F2Q (Zpos ml) el <= F2Q m1 E)%Q.
Proof.
  intros Hc HE Hm Hlt. pose proof (canon_mantissa _ _ Hc) as [Hmc _].
  pose proof (canon_facts _ _ Hc) as (_ & Hec & _).
  destruct (Z.le_gt_cases E el) as [Hle|Hgt].
  - rewrite (F2Q_same_exp _ E el Hle) in *.
    apply F2Q_lt_inv in Hlt. apply F2Q_le. lia.
  - pose proof (F2Q_lt_exp (Zpos ml) el m1 E Hgt Hmc) as H.
    specialize (H (Hm ltac:(lia))). lra.
Qed.

Lemma canon_exp_le m3 e3 mc ec :
  canon mc ec → (-1074 < e3 → 2 ^ 52 ≤ m3) → -1074 ≤ e3 →
  (F2Q m3 e3 <= F2Q (Zpos mc) ec)%Q → e3 ≤ ec.
Proof.
  intros Hc Hm He Hle. pose proof (canon_mantissa _ _ Hc) as [Hmc _].
  pose proof (canon_facts _ _ Hc) as (_ & Hec & _).
  destruct (Z.le_gt_cases e3 ec) as [|Hgt]; [done|].
  pose proof (F2Q_lt_exp (Zpos mc) ec m3 e3 Hgt Hmc) as H.
  specialize (H (Hm ltac:(lia))). lra.
Qed.

(** The comparison of two canonical numbers is that of the rationals. *)
Lemma SFcompare_canon m1 e1 m2 e2 :
  canon m1 e1 → canon m2 e2 →
  SFcompare (S754_finite false m1 e1) (S754_finite false m2 e2)
  = Some (F2Q (Zpos m1) e1 ?= F2Q (Zpos m2) e2)%Q.
Proof.
  intros H1 H2. cbn [SFcompare]. f_equal.
  pose proof (canon_mantissa _ _ H1) as [Hm1 Hn1].
  pose proof (canon_mantissa _ _ H2) as [Hm2 Hn2].
  pose proof (canon_facts _ _ H1) as (_ & He1 & _).
  pose proof (canon_facts _ _ H2) as (_ & He2 & _).
  destruct (Z.compare_spec e1 e2) as [->|Hlt|Hgt].
  - change (Pos.compare_cont Eq m1 m2) with (Pos.compare m1 m2).
    destruct (Pos.compare_spec m1 m2) as [->|Hm|Hm]; symmetry.
    + by apply Qeq_alt.
    + apply Qlt_alt, F2Q_lt. lia.
    + apply Qgt_alt, F2Q_lt. lia.
  - symmetry. apply Qlt_alt, F2Q_lt_exp; [done..|]. apply Hn2. lia.
  - symmetry. apply Qgt_alt, F2Q_lt_exp; [done..|]. apply Hn1. lia.
Qed.

End Order.

Section Round.
Import Binary64.
Local Open Scope Z_scope.

Lemma fexp64 k : fexp prec emax k = Z.max (k - 53) (-1074).
Proof. reflexivity. Qed.

Lemma F2Q_pow2 k e : 0 ≤ k → (F2Q (2 ^ k) e == bpow (k + e))%Q.
Proof. intros. unfold F2Q. by rewrite <- bpow_Z, bpow_add. Qed.

Lemma shr_m_of_loc m l : shr_m (shr_record_of_loc m l) = m.
Proof. by destruct l as [|[]]. Qed.

Lemma located_mag x m e l :
  located x (shr_record_of_loc m l) e →
  (x < bpow (Zdigits2 m + e))%Q
  ∧ (0 < m → (bpow (Zdigits2 m + e - 1) <= x)%Q).
Proof.
  unfold located. rewrite shr_m_of_loc. intros (Hm & Hlo & Hhi & _).
  destruct m as [|p|p]; [| |lia].
  - cbn [Zdigits2]. split; [|lia].
    change (F2Q (0 + 1) e) with (F2Q (2 ^ 0) e) in Hhi.
    by rewrite F2Q_pow2 in Hhi.
  - cbn [Zdigits2]. pose proof (digits2_pos_bounds p) as [Hd1 Hd2].
    split.
    + rewrite <- F2Q_pow2 by lia.
      eapply Qlt_le_trans; [exact Hhi|]. apply F2Q_le. lia.
    + intros _. replace (Z.pos (digits2_pos p) + e - 1)
        with ((Z.pos (digits2_pos p) - 1) + e) by lia.
      rewrite <- F2Q_pow2 by lia.
      eapply Qle_trans; [|exact Hlo]. by apply F2Q_le.
Qed.

Lemma located_shr_fexp x m e l :
  located x (shr_record_of_loc m l) e →
  e ≤ fexp prec emax (Zdigits2 m + e) →
  ∃ mrs, shr_fexp prec emax m e l = (mrs, fexp prec emax (Zdigits2 m + e))
         ∧ located x mrs (fexp prec emax (Zdigits2 m + e)).
Proof.
  intros Hl He. unfold shr_fexp, shr.
  set (E := fexp prec emax (Zdigits2 m + e)) in *.
  destruct (E - e) as [|p|p] eqn:Hn; [| |lia].
  - exists (shr_record_of_loc m l). replace E with e by lia. done.
  - exists (SpecFloat.iter_pos shr_1 p (shr_record_of_loc m l)).
    replace E with (e + Z.pos p) by lia. split; [done|]. by apply located_iter.
Qed.

Lemma round_nearest_even_cases mrs :
  round_nearest_even (shr_m mrs) (loc_of_shr_record mrs) = shr_m mrs
  ∨ (round_nearest_even (shr_m mrs) (loc_of_shr_record mrs) = shr_m mrs + 1
     ∧ shr_r mrs || shr_s mrs = true).
Proof.
  destruct mrs as [m [] []]; cbn; try destruct (Z.even m); auto.
Qed.

Lemma round_tail_spec m2 E :
  -1074 ≤ E → 0 ≤ m2 ≤ 2 ^ 53 → (-1074 < E → 2 ^ 52 ≤ m2) →
  (m2 = 0 ∧ round_tail m2 E = S754_zero false)
  ∨ ∃ m3 e3,
      round_tail m2 E = (if e3 <=? 971 then S754_finite false m3 e3
                         else S754_infinity false)
      ∧ (F2Q (Zpos m3) e3 == F2Q m2 E)%Q
      ∧ -1074 ≤ e3
      ∧ Zpos (digits2_pos m3) ≤ 53
      ∧ (-1074 < e3 → Zpos (digits2_pos m3) = 53).
Proof.
  intros HE Hm Hn. unfold round_tail, shr_fexp, shr. rewrite fexp64.
  destruct (Z.eq_dec m2 0) as [->|Hnz].
  - left. split; [done|]. cbn [Zdigits2].
    destruct (Z.max (0 + E - 53) (-1074) - E) as [|p|p] eqn:Hd; [done|lia|done].
  - right. destruct (Z.eq_dec m2 (2 ^ 53)) as [->|Hne].
    + exists 4503599627370496%positive, (E + 1).
      change (Zdigits2 (2 ^ 53)) with 54.
      replace (Z.max (54 + E - 53) (-1074) - E) with 1 by lia.
      split_and!; [done| |lia|done|done].
      rewrite (F2Q_same_exp _ E (E + 1)) by lia.
      replace (E + 1 - E) with 1 by lia. done.
    + destruct m2 as [|p|p]; [done| |lia]. exists p, E.
      assert (Z.pos (digits2_pos p) ≤ 53) as Hd
        by (apply digits2_pos_le; lia).
      cbn [Zdigits2].
      destruct (Z.max (Z.pos (digits2_pos p) + E - 53) (-1074) - E)
        as [|q|q] eqn:Hs; [|lia|].
      * split_and!; [done|done|done|done|].
        intros H. pose proof (digits2_pos_ge p 52 ltac:(lia) (Hn H)). lia.
      * split_and!; [done|done|done|done|].
        intros H. pose proof (digits2_pos_ge p 52 ltac:(lia) (Hn H)). lia.
Qed.

Lemma binary_round_aux_tail m e l mrs E :
  shr_fexp prec emax m e l = (mrs, E) →
  binary_round_aux prec emax false m e l
  = round_tail (round_nearest_even (shr_m mrs) (loc_of_shr_record mrs)) E.
Proof. intros H. unfold binary_round_aux, round_tail. by rewrite H. Qed.

(** Rounding stays between the canonical numbers around the exact
    value. *)
Lemma round_aux_rounds x m e l :
  located x (shr_record_of_loc m l) e →
  e ≤ fexp prec emax (Zdigits2 m + e) →
  rounds_to x (binary_round_aux prec emax false m e l).
Proof.
  intros Hloc He hm he Hc Hx.
  destruct (located_mag _ _ _ _ Hloc) as [Hmag Hmag'].
  assert (0 ≤ m) as Hm0.
  { destruct Hloc as [H _]. by rewrite shr_m_of_loc in H. }
  destruct (located_shr_fexp _ _ _ _ Hloc He) as (mrs & Heq & Hloc1).
  rewrite (binary_round_aux_tail _ _ _ _ _ Heq).
  set (g := Zdigits2 m + e) in *. set (E := fexp prec emax g) in *.
  assert (-1074 ≤ E ∧ g - 53 ≤ E ∧ (-1074 < E → E = g - 53)) as (HE & HgE & HEg).
  { unfold E. rewrite fexp64. lia. }
  destruct Hloc1 as (Hm1 & Hlo & Hhi & Hst).
  set (m1 := shr_m mrs) in *.
  assert (m1 < 2 ^ 53) as F1.
  { apply (F2Q_lt_inv _ _ E). rewrite F2Q_pow2 by lia.
    eapply Qle_lt_trans; [exact Hlo|]. eapply Qlt_le_trans; [exact Hmag|].
    apply bpow_le. lia. }
  assert (-1074 < E → 2 ^ 52 ≤ m1) as F2.
  { intros H. assert (0 < m) as Hmp.
    { destruct (Z.eq_dec m 0) as [->|]; [|lia]. exfalso.
      unfold g, E in *. cbn [Zdigits2] in *. rewrite fexp64 in *. lia. }
    specialize (Hmag' Hmp). rewrite (HEg H) in Hhi.
    assert (F2Q (2 ^ 52) (g - 53) < F2Q (m1 + 1) (g - 53))%Q as Hlt.
    { rewrite F2Q_pow2 by lia. replace (52 + (g - 53)) with (g - 1) by lia.
      eapply Qle_lt_trans; [exact Hmag'|exact Hhi]. }
    apply F2Q_lt_inv in Hlt. lia. }
  set (m2 := round_nearest_even m1 (loc_of_shr_record mrs)).
  assert (m1 ≤ m2 ≤ m1 + 1 ∧ (m2 = m1 + 1 → (F2Q m1 E < x)%Q)) as (Hm2 & Hup).
  { destruct (round_nearest_even_cases mrs) as [H|[H Hrs]]; fold m1 m2 in H.
    - split; [lia|]. intros. lia.
    - split; [lia|]. intros _. by apply Hst. }
  assert (F2Q m2 E <= F2Q (Z.pos hm) he)%Q as Vhi.
  { destruct (Z.eq_dec m2 m1) as [->|Hne].
    - lra.
    - assert (m2 = m1 + 1) as -> by lia.
      apply canon_above; [done..|]. specialize (Hup eq_refl). lra. }
  assert (∀ lm le, canon lm le → (F2Q (Z.pos lm) le <= x)%Q →
                   (F2Q (Z.pos lm) le <= F2Q m2 E)%Q) as Vlo.
  { intros lm le Hl Hle.
    apply Qle_trans with (F2Q m1 E); [|apply F2Q_le; lia].
    apply canon_below; [done..|]. lra. }
  destruct (round_tail_spec m2 E HE ltac:(lia) ltac:(intros H; specialize (F2 H); lia))
    as [[H0 ->]|(m3 & e3 & -> & Hv & He3 & Hd3 & Hn3)].
  - cbn [nonneg SF2Q]. split_and!; [done| |].
    + rewrite H0, F2Q_0 in Vhi. done.
    + intros lm le Hl Hle. specialize (Vlo lm le Hl Hle).
      by rewrite H0, F2Q_0 in Vlo.
  - assert (e3 ≤ he) as Hle3.
    { apply (canon_exp_le (Zpos m3) e3 hm he); [done| |done|lra].
      intros H. pose proof (digits2_pos_bounds m3) as [Hb _].
      by rewrite (Hn3 H) in Hb. }
    pose proof (canon_facts _ _ Hc) as (_ & Hhe & _).
    replace (e3 <=? 971) with true by (symmetry; apply Z.leb_le; lia).
    cbn [nonneg SF2Q]. split_and!.
    + apply canon_intro; [lia|done|done].
    + lra.
    + intros lm le Hl Hle. specialize (Vlo lm le Hl Hle). lra.
Qed.

End Round.

Section Operations.
Import Binary64.
Local Open Scope Z_scope.

Lemma iter_xO_spec m d : Zpos (Pos.iter xO m d) = Zpos m * 2 ^ Zpos d.
Proof.
  induction d as [|d IH] using Pos.peano_ind.
  - cbn [Pos.iter]. rewrite Pos2Z.inj_xO. change (2 ^ 1) with 2. lia.
  - rewrite Pos.iter_succ, Pos2Z.inj_xO, IH, Pos2Z.inj_succ, Z.pow_succ_r by lia.
    ring.
Qed.

Lemma iter_xO_digits m d :
  Zpos (digits2_pos (Pos.iter xO m d)) = Zpos (digits2_pos m) + Zpos d.
Proof.
  induction d as [|d IH] using Pos.peano_ind.
  - cbn [Pos.iter digits2_pos]. lia.
  - rewrite Pos.iter_succ. cbn [digits2_pos]. lia.
Qed.

Lemma F2Q_pos m e : (0 < F2Q (Zpos m) e)%Q.
Proof.
  rewrite <- (F2Q_0 e). by apply F2Q_lt.
Qed.

Lemma located_exact x m e :
  0 ≤ m → (x == F2Q m e)%Q → located x (shr_record_of_loc m loc_Exact) e.
Proof.
  intros Hm Hx. unfold located. cbn [shr_record_of_loc shr_m shr_r shr_s orb].
  split_and!; [done|lra| |done].
  rewrite Hx. apply F2Q_lt. lia.
Qed.

Lemma rounds_zero x s : (x == 0)%Q → rounds_to x (S754_zero s).
Proof.
  intros Hx hm he Hc Hh. cbn [nonneg SF2Q]. split_and!; [done| |].
  - pose proof (F2Q_pos hm he). lra.
  - intros lm le _ Hl. lra.
Qed.

Lemma rounds_self x f : nonneg f → (x == SF2Q f)%Q → rounds_to x f.
Proof.
  intros Hf Hx hm he Hc Hh. split_and!; [done|lra|].
  intros lm le _ Hl. lra.
Qed.

Lemma binary_round_rounds x M ez :
  (x == F2Q (Zpos M) ez)%Q → rounds_to x (binary_round prec emax false M ez).
Proof.
  intros Hx. unfold binary_round, shl_align.
  set (E := fexp prec emax (Zpos (digits2_pos M) + ez)).
  destruct (E - ez) as [|k|d] eqn:Hd.
  - apply round_aux_rounds; [by apply located_exact|].
    cbn [Zdigits2]. fold E. lia.
  - apply round_aux_rounds; [by apply located_exact|].
    cbn [Zdigits2]. fold E. lia.
  - apply round_aux_rounds.
    + apply located_exact; [done|]. rewrite Hx, iter_xO_spec.
      rewrite (F2Q_shift (Zpos M) ez (Zpos d)) by lia.
      replace (ez - Zpos d) with E by lia. done.
    + cbn [Zdigits2]. rewrite iter_xO_digits.
      replace (Zpos (digits2_pos M) + Zpos d + E)
        with (Zpos (digits2_pos M) + ez) by lia.
      fold E. lia.
Qed.

Lemma shl_align_spec m e ez :
  ez ≤ e →
  (F2Q (Zpos (shl_align m e ez).1) ez == F2Q (Zpos m) e)%Q.
Proof.
  intros Hle. unfold shl_align.
  destruct (ez - e) as [|k|d] eqn:Hd; cbn [fst].
  - by replace ez with e by lia.
  - lia.
  - rewrite iter_xO_spec, (F2Q_shift (Zpos m) e (Zpos d)) by lia.
    by replace (e - Zpos d) with ez by lia.
Qed.

Lemma SFmul_rounds a b :
  nonneg a → nonneg b →
  rounds_to (SF2Q a * SF2Q b) (SFmul prec emax a b).
Proof.
  destruct a as [sa|sa| |sa ma ea]; destruct b as [sb|sb| |sb mb eb];
    cbn [nonneg];
    intros Ha Hb; try contradiction.
  - apply rounds_zero. cbn [SF2Q]. lra.
  - destruct sb; [by cbn in Hb|]. apply rounds_zero. cbn [SF2Q]. lra.
  - destruct sa; [by cbn in Ha|]. apply rounds_zero. cbn [SF2Q]. lra.
  - destruct sa, sb; try (by cbn in Ha); try (by cbn in Hb). cbn [SFmul xorb SF2Q].
    apply round_aux_rounds.
    + apply located_exact; [done|].
      unfold F2Q. rewrite bpow_add, Pos2Z.inj_mul, inject_Z_mult. ring.
    + cbn [Zdigits2]. rewrite fexp64.
      pose proof (canon_facts _ _ Ha) as (_ & Hea & _).
      pose proof (canon_facts _ _ Hb) as (_ & Heb & _).
      pose proof (canon_mantissa _ _ Ha) as (_ & Hma).
      pose proof (canon_mantissa _ _ Hb) as (_ & Hmb).
      destruct (Z.eq_dec ea (-1074)) as [->|Hna];
        [destruct (Z.eq_dec eb (-1074)) as [->|Hnb]; [lia|]|].
      * assert (2 ^ 52 ≤ Zpos (ma * mb)) as H by nia.
        pose proof (digits2_pos_ge _ 52 ltac:(lia) H). lia.
      * assert (2 ^ 52 ≤ Zpos (ma * mb)) as H by nia.
        pose proof (digits2_pos_ge _ 52 ltac:(lia) H). lia.
Qed.

Lemma SFadd_rounds a b :
  nonneg a → nonneg b →
  rounds_to (SF2Q a + SF2Q b) (SFadd prec emax a b).
Proof.
  destruct a as [sa|sa| |sa ma ea]; destruct b as [sb|sb| |sb mb eb];
    cbn [nonneg];
    intros Ha Hb; try contradiction.
  - cbn [SFadd]. destruct sa, sb; apply rounds_zero; cbn [SF2Q]; lra.
  - destruct sb; [by cbn in Hb|]. cbn [SFadd]. apply rounds_self; [done|].
    cbn [SF2Q]. lra.
  - destruct sa; [by cbn in Ha|]. cbn [SFadd]. apply rounds_self; [done|].
    cbn [SF2Q]. lra.
  - destruct sa, sb; try (by cbn in Ha); try (by cbn in Hb). cbn [SFadd cond_Zopp SF2Q binary_normalize].
    change (Zpos ?a + Zpos ?b) with (Zpos (a + b)). cbv iota.
    apply binary_round_rounds.
    rewrite <- (shl_align_spec ma ea (Z.min ea eb)) by lia.
    rewrite <- (shl_align_spec mb eb (Z.min ea eb)) by lia.
    unfold F2Q. rewrite Pos2Z.inj_add, inject_Z_plus. ring.
Qed.

Lemma SFsub_rounds a b :
  nonneg a → nonneg b → (SF2Q b <= SF2Q a)%Q →
  rounds_to (SF2Q a - SF2Q b) (SFsub prec emax a b).
Proof.
  destruct a as [sa|sa| |sa ma ea]; destruct b as [sb|sb| |sb mb eb];
    cbn [nonneg];
    intros Ha Hb Hle; try contradiction.
  - cbn [SFsub]. destruct sa, sb; apply rounds_zero; cbn [SF2Q]; lra.
  - destruct sb; [by cbn in Hb|]. cbn [SF2Q] in Hle.
    pose proof (F2Q_pos mb eb). lra.
  - destruct sa; [by cbn in Ha|]. cbn [SFsub]. apply rounds_self; [done|].
    cbn [SF2Q]. lra.
  - destruct sa, sb; try (by cbn in Ha); try (by cbn in Hb). cbn [SFsub cond_Zopp SF2Q] in *.
    pose proof (shl_align_spec ma ea (Z.min ea eb) ltac:(lia)) as Hsa.
    pose proof (shl_align_spec mb eb (Z.min ea eb) ltac:(lia)) as Hsb.
    set (ez := Z.min ea eb) in *.
    set (xa := (shl_align ma ea ez).1) in *.
    set (xb := (shl_align mb eb ez).1) in *.
    assert (Zpos xb ≤ Zpos xa) as Hxab.
    { apply (F2Q_le_inv _ _ ez). lra. }
    assert (F2Q (Zpos ma) ea - F2Q (Zpos mb) eb == F2Q (Zpos xa - Zpos xb) ez)%Q
      as Hx.
    { rewrite <- Hsa, <- Hsb. unfold F2Q, Z.sub.
      rewrite inject_Z_plus, inject_Z_opp. ring. }
    destruct (Zpos xa - Zpos xb) as [|p|p] eqn:Hd; [| |lia];
      cbn [binary_normalize].
    + apply rounds_zero. rewrite Hx. apply F2Q_0.
    + by apply binary_round_rounds.
Qed.

Lemma new_location_exact n r :
  new_location n r = loc_Exact → r = 0.
Proof.
  unfold new_location, new_location_even, new_location_odd.
  destruct (Z.even n), (Z.eqb_spec r 0); done.
Qed.

Lemma bpow_lt_inv a b : (bpow a < bpow b)%Q → a < b.
Proof.
  intros H. destruct (Z_lt_le_dec a b) as [|Hle]; [done|].
  apply bpow_le in Hle. lra.
Qed.

Lemma SFdiv_rounds a b :
  nonneg a → nonneg b → (0 < SF2Q b)%Q →
  rounds_to (SF2Q a / SF2Q b) (SFdiv prec emax a b).
Proof.
  destruct a as [sa|sa| |sa ma ea]; destruct b as [sb|sb| |sb mb eb];
    cbn [nonneg];
    intros Ha Hb Hpos; try contradiction.
  - cbn [SF2Q] in Hpos. lra.
  - destruct sb; [by cbn in Hb|]. cbn [SFdiv]. apply rounds_zero. cbn [SF2Q].
    unfold Qdiv. lra.
  - cbn [SF2Q] in Hpos. lra.
  - destruct sa, sb; try (by cbn in Ha); try (by cbn in Hb). cbn [SFdiv xorb SF2Q]. clear Hpos.
    unfold SFdiv_core_binary. cbn [Zdigits2].
    set (da := Zpos (digits2_pos ma)). set (db := Zpos (digits2_pos mb)).
    set (G := da + ea - (db + eb)).
    set (e' := Z.min (fexp prec emax G) (ea - eb)).
    set (s := ea - eb - e').
    assert (0 ≤ s) as Hs by (unfold s, e'; lia).
    set (m' := match s with Zpos _ => Z.shiftl (Zpos ma) s | Z0 => Zpos ma
                       | Zneg _ => 0 end).
    assert (m' = Zpos ma * 2 ^ s) as Hm'.
    { unfold m'. destruct s as [|p|p] eqn:Hp; [lia| |lia].
      by rewrite Z.shiftl_mul_pow2. }
    clearbody m'.
    pose proof (Z_div_mod m' (Zpos mb) ltac:(lia)) as Hdiv.
    destruct (Z.div_eucl m' (Zpos mb)) as [q r]. destruct Hdiv as [Hqr Hr].
    assert (0 ≤ q) as Hq by nia.
    pose proof (bpow_pos e') as Hbe. pose proof (F2Q_pos mb eb) as Hbpos.
    pose proof (F2Q_pos ma ea) as Hapos.
    set (x := (F2Q (Zpos ma) ea / F2Q (Zpos mb) eb)%Q).
    assert (x * inject_Z (Zpos mb) == inject_Z m' * bpow e')%Q as Hx.
    { unfold x. rewrite Hm', inject_Z_mult, <- bpow_Z by done.
      unfold F2Q. replace ea with (s + e' + eb) at 1 by (unfold s; lia).
      rewrite !bpow_add. field. split.
      - pose proof (bpow_pos eb). lra.
      - change 0%Q with (inject_Z 0). rewrite inject_Z_injective. lia. }
    assert (0 < inject_Z (Zpos mb))%Q as Hmbpos.
    { change 0%Q with (inject_Z 0). rewrite <- Zlt_Qlt. lia. }
    assert (inject_Z m' == inject_Z (Zpos mb) * inject_Z q + inject_Z r)%Q as Hqr'.
    { rewrite Hqr at 1. by rewrite inject_Z_plus, inject_Z_mult. }
    assert (0 <= inject_Z r)%Q as Hr0.
    { change 0%Q with (inject_Z 0). rewrite <- Zle_Qle. lia. }
    assert (inject_Z r < inject_Z (Zpos mb))%Q as Hr1.
    { rewrite <- Zlt_Qlt. lia. }
    assert (F2Q q e' <= x)%Q as Hlo.
    { unfold F2Q.
      apply Qmult_le_r with (z := inject_Z (Zpos mb)); [done|].
      rewrite Hx, Hqr'. nra. }
    assert (x < F2Q (q + 1) e')%Q as Hhi.
    { unfold F2Q. rewrite inject_Z_plus.
      apply Qmult_lt_r with (z := inject_Z (Zpos mb)); [done|].
      rewrite Hx, Hqr'. change (inject_Z 1) with 1%Q. nra. }
    assert (r ≠ 0 → (F2Q q e' < x)%Q) as Hstrict.
    { intros Hne. unfold F2Q.
      apply Qmult_lt_r with (z := inject_Z (Zpos mb)); [done|].
      rewrite Hx, Hqr'.
      assert (0 < inject_Z r)%Q.
      { change 0%Q with (inject_Z 0). rewrite <- Zlt_Qlt. lia. }
      nra. }
    assert (located x (shr_record_of_loc q (new_location (Zpos mb) r)) e') as Hloc.
    { unfold located. rewrite shr_m_of_loc. split_and!; [done..|].
      intros Hrs. apply Hstrict. intros ->.
      assert (new_location (Zpos mb) 0 = loc_Exact) as Hn.
      { unfold new_location, new_location_even, new_location_odd.
        by destruct (Z.even _). }
      by rewrite Hn in Hrs. }
    apply round_aux_rounds; [done|].
    destruct (located_mag _ _ _ _ Hloc) as [Hmag _].
    assert (bpow (G - 1) <= x)%Q as HG.
    { pose proof (digits2_pos_bounds ma) as [Ha1 Ha2].
      pose proof (digits2_pos_bounds mb) as [Hb1 Hb2]. fold da in Ha1, Ha2.
      fold db in Hb1, Hb2.
      assert (bpow (da - 1 + ea) <= F2Q (Zpos ma) ea)%Q as H1.
      { rewrite <- F2Q_pow2 by lia. by apply F2Q_le. }
      assert (F2Q (Zpos mb) eb <= bpow (db + eb))%Q as H2.
      { rewrite <- F2Q_pow2 by lia. apply F2Q_le. lia. }
      unfold x. apply Qle_shift_div_l; [done|].
      apply Qle_trans with (bpow (G - 1) * bpow (db + eb))%Q.
      - apply Qmult_le_l; [apply bpow_pos|done].
      - rewrite <- bpow_add. replace (G - 1 + (db + eb)) with (da - 1 + ea)
          by (unfold G; lia). done. }
    assert (G - 1 < Zdigits2 q + e') as Hlt.
    { apply bpow_lt_inv. lra. }
    assert (e' ≤ Z.max (G - 53) (-1074)) as He'.
    { unfold e'. rewrite fexp64. lia. }
    rewrite fexp64. clearbody e'. lia.
Qed.

End Operations.

Section Interface.
Import Binary64.
Local Open Scope Q_scope.

Lemma good_nonneg a : good a → 0 <= R64 a.
Proof.
  unfold good, R64. destruct (Prim2SF a) as [s|s| |s m e]; cbn [nonneg SF2Q];
    try done.
  destruct s; [done|]. intros _. pose proof (F2Q_pos m e). lra.
Qed.

Lemma pos_canon h :
  pos h → ∃ m e, Prim2SF h = S754_finite false m e ∧ canon m e.
Proof.
  unfold pos, good, R64. destruct (Prim2SF h) as [s|s| |s m e];
    cbn [nonneg SF2Q]; intros [Hg Hp]; try done.
  destruct s; [done|]. by exists m, e.
Qed.

Lemma good_pos a : good a → 0 < R64 a → pos a.
Proof. by split. Qed.

Lemma rounds_hi x r h :
  rounds_to x (Prim2SF r) → pos h → x <= R64 h → good r ∧ R64 r <= R64 h.
Proof.
  intros Hr Hh Hx. destruct (pos_canon _ Hh) as (m & e & Heq & Hc).
  unfold R64 in *. rewrite Heq in *. cbn [SF2Q] in *.
  destruct (Hr m e Hc Hx) as (H1 & H2 & _). done.
Qed.

Lemma rounds_lo x r h l :
  rounds_to x (Prim2SF r) → pos h → x <= R64 h → pos l → R64 l <= x →
  R64 l <= R64 r.
Proof.
  intros Hr Hh Hx Hl Hlx. destruct (pos_canon _ Hh) as (m & e & Heq & Hc).
  destruct (pos_canon _ Hl) as (lm & le & Heql & Hcl).
  unfold R64 in *. rewrite Heq, Heql in *. cbn [SF2Q] in *.
  destruct (Hr m e Hc Hx) as (_ & _ & H3). by apply H3.
Qed.

Lemma mul_rounds a b :
  good a → good b → rounds_to (R64 a * R64 b) (Prim2SF (a * b)).
Proof. intros. rewrite mul_spec. by apply SFmul_rounds. Qed.

Lemma add_rounds a b :
  good a → good b → rounds_to (R64 a + R64 b) (Prim2SF (a + b)).
Proof. intros. rewrite add_spec. by apply SFadd_rounds. Qed.

Lemma sub_rounds a b :
  good a → good b → R64 b <= R64 a →
  rounds_to (R64 a - R64 b) (Prim2SF (a - b)).
Proof. intros. rewrite sub_spec. by apply SFsub_rounds. Qed.

Lemma div_rounds a b :
  good a → pos b → rounds_to (R64 a / R64 b) (Prim2SF (a / b)).
Proof. intros ? [? ?]. rewrite div_spec. by apply SFdiv_rounds. Qed.

Lemma SFcompare_nonneg a b :
  nonneg a → nonneg b → SFcompare a b = Some (SF2Q a ?= SF2Q b).
Proof.
  destruct a as [sa|sa| |sa ma ea]; destruct b as [sb|sb| |sb mb eb];
    cbn [nonneg]; intros Ha Hb; try contradiction.
  - done.
  - destruct sb; [done|]. cbn [SFcompare SF2Q]. f_equal. symmetry.
    apply Qlt_alt, F2Q_pos.
  - destruct sa; [done|]. cbn [SFcompare SF2Q]. f_equal. symmetry.
    apply Qgt_alt, F2Q_pos.
  - destruct sa, sb; try done. by apply SFcompare_canon.
Qed.

Lemma leb_good a b :
  good a → good b → (a <=? b)%float = true ↔ R64 a <= R64 b.
Proof.
  intros Ha Hb. rewrite leb_spec. unfold SFleb.
  rewrite (SFcompare_nonneg _ _ Ha Hb). fold (R64 a) (R64 b).
  rewrite Qle_alt. by destruct (R64 a ?= R64 b).
Qed.

Lemma ltb_good a b :
  good a → good b → (a <? b)%float = true ↔ R64 a < R64 b.
Proof.
  intros Ha Hb. rewrite ltb_spec. unfold SFltb.
  rewrite (SFcompare_nonneg _ _ Ha Hb). fold (R64 a) (R64 b).
  rewrite Qlt_alt. by destruct (R64 a ?= R64 b).
Qed.

Lemma ltb_good_false a b :
  good a → good b → (a <? b)%float = false → R64 b <= R64 a.
Proof.
  intros Ha Hb H. apply Qnot_lt_le. intros Hlt.
  apply (ltb_good _ _ Ha Hb) in Hlt. congruence.
Qed.

(** A number between two good numbers is good. *)
Lemma between_good l h a :
  good l → good h → ((l <=? a) && (a <=? h))%float = true →
  good a ∧ R64 l <= R64 a ∧ R64 a <= R64 h.
Proof.
  intros Hl Hh [H1 H2]%andb_prop.
  assert (good a) as Ha.
  { rewrite leb_spec in H1, H2. unfold good, SFleb in *.
    pose proof (Prim2SF_valid a) as Hv.
    destruct (Prim2SF l) as [sl|sl| |sl ml el]; try done;
      destruct (Prim2SF h) as [sh|sh| |sh mh eh]; try done;
      destruct (Prim2SF a) as [sa|sa| |sa ma ea]; try done;
      cbn [nonneg SFcompare valid_binary] in *;
      repeat match goal with
             | s : bool |- _ => destruct s
             end; done. }
  split; [done|]. split; by apply leb_good.
Qed.

Lemma canon_unique m1 e1 m2 e2 :
  canon m1 e1 → canon m2 e2 → F2Q (Zpos m1) e1 == F2Q (Zpos m2) e2 →
  m1 = m2 ∧ e1 = e2.
Proof.
  intros H1 H2 Heq. pose proof (SFcompare_canon _ _ _ _ H1 H2) as Hc.
  apply Qeq_alt in Heq. rewrite Heq in Hc. cbn [SFcompare] in Hc.
  destruct (Z.compare_spec e1 e2) as [->|?|?]; [|done..].
  change (Pos.compare_cont Eq m1 m2) with (Pos.compare m1 m2) in Hc.
  destruct (Pos.compare_spec m1 m2) as [->|?|?]; done.
Qed.

(** A good number at or above a positive one is that number, or at least
    the next multiple of its unit. *)
Lemma good_above c a m e :
  Prim2SF c = S754_finite false m e → good a → R64 c <= R64 a →
  a = c ∨ F2Q (Zpos m + 1) e <= R64 a.
Proof.
  intros Hc Ha Hle.
  pose proof (Prim2SF_valid c) as Hvc. rewrite Hc in Hvc.
  cbn [valid_binary] in Hvc. fold (canon m e) in Hvc.
  unfold R64 in Hle. rewrite Hc in Hle. cbn [SF2Q] in Hle.
  pose proof (F2Q_pos m e) as Hp.
  unfold good, R64 in *.
  destruct (Prim2SF a) as [sa|sa| |sa ma ea] eqn:Hpa; cbn [nonneg SF2Q] in *;
    try done; [lra|].
  destruct sa; [done|].
  apply Qle_lt_or_eq in Hle as [Hlt|Heq].
  - right. pose proof (canon_mantissa _ _ Hvc) as [_ Hn].
    pose proof (canon_facts _ _ Hvc) as (_ & He & _).
    apply canon_above; [done|lia|done|done].
  - left. destruct (canon_unique _ _ _ _ Hvc Ha Heq) as [-> ->].
    apply Prim2SF_inj. congruence.
Qed.

End Interface.

Section Bounds.
Import Binary64.
Local Open Scope Q_scope.

Lemma mul_hi a b h :
  good a → good b → pos h → R64 a * R64 b <= R64 h →
  good (a * b) ∧ R64 (a * b) <= R64 h.
Proof. intros. apply (rounds_hi (R64 a * R64 b)); [by apply mul_rounds|done..]. Qed.

Lemma mul_lo a b h l :
  good a → good b → pos h → R64 a * R64 b <= R64 h →
  pos l → R64 l <= R64 a * R64 b → R64 l <= R64 (a * b).
Proof.
  intros. apply (rounds_lo (R64 a * R64 b) _ h); [by apply mul_rounds|done..].
Qed.

Lemma add_hi a b h :
  good a → good b → pos h → R64 a + R64 b <= R64 h →
  good (a + b) ∧ R64 (a + b) <= R64 h.
Proof. intros. apply (rounds_hi (R64 a + R64 b)); [by apply add_rounds|done..]. Qed.

Lemma add_lo a b h l :
  good a → good b → pos h → R64 a + R64 b <= R64 h →
  pos l → R64 l <= R64 a + R64 b → R64 l <= R64 (a + b).
Proof.
  intros. apply (rounds_lo (R64 a + R64 b) _ h); [by apply add_rounds|done..].
Qed.

Lemma sub_hi a b h :
  good a → good b → R64 b <= R64 a → pos h → R64 a - R64 b <= R64 h →
  good (a - b) ∧ R64 (a - b) <= R64 h.
Proof. intros. apply (rounds_hi (R64 a - R64 b)); [by apply sub_rounds|done..]. Qed.

Lemma div_hi a b h :
  good a → pos b → pos h → R64 a <= R64 h * R64 b →
  good (a / b) ∧ R64 (a / b) <= R64 h.
Proof.
  intros Ha Hb Hh Hle. apply (rounds_hi (R64 a / R64 b)); [by apply div_rounds|done|].
  apply Qle_shift_div_r; [apply Hb|done].
Qed.

Lemma div_lo a b h l :
  good a → pos b → pos h → R64 a <= R64 h * R64 b →
  pos l → R64 l * R64 b <= R64 a → R64 l <= R64 (a / b).
Proof.
  intros Ha Hb Hh Hle Hl Hge.
  apply (rounds_lo (R64 a / R64 b) _ h); [by apply div_rounds|done| |done|].
  - apply Qle_shift_div_r; [apply Hb|done].
  - apply Qle_shift_div_l; [apply Hb|done].
Qed.

End Bounds.

Section Lightness.
Import Binary64 Posters.
Local Open Scope Q_scope.

Variable pow : float → float → float.

Hypothesis Hlin : ∀ x,
  ((0 <=? x) && (x <=? 1))%float = true →
  ((0 <=? pow x 2.4) && (pow x 2.4 <=? 1))%float = true.

Hypothesis Hcbrt : ∀ t,
  ((216 / 24389 <? t) && (t <=? 1))%float = true →
  ((16 / 116 <=? pow t (1 / 3)) && (pow t (1 / 3) <=? 1))%float = true.

Lemma unit_interval a :
  ((0 <=? a) && (a <=? 1))%float = true → good a ∧ R64 a <= 1.
Proof.
  intros H. apply between_good in H as (Hg & _ & Hle); [|const..].
  split; [done|]. r64 1%float. lra.
Qed.

Lemma channels_checked :
  forallb
    (λ n, let c := (float_of_int n / 255.0)%float in
          if (c <=? 0.04045)%float
          then ((0 <=? c / 12.92) && (c / 12.92 <=? 1))%float
          else ((0 <=? (c + 0.055) / 1.055)
                && ((c + 0.055) / 1.055 <=? 1))%float)
    (seqZ 0 256) = true.
Proof. by vm_compute. Qed.

Lemma srgb_to_linear_unit n :
  (0 ≤ n ≤ 255)%Z →
  ((0 <=? srgb_to_linear pow (float_of_int n))
   && (srgb_to_linear pow (float_of_int n) <=? 1))%float = true.
Proof.
  intros Hn. pose proof channels_checked as H.
  rewrite forallb_forall in H. specialize (H n). cbv zeta in H.
  assert (In n (seqZ 0 256)) as Hin.
  { apply list_elem_of_In, elem_of_seqZ. lia. }
  specialize (H Hin). unfold srgb_to_linear. cbv zeta.
  destruct (_ <=? 0.04045)%float; [done|]. by apply Hlin.
Qed.

Lemma luminance_unit R G B :
  good R → R64 R <= 1 → good G → R64 G <= 1 → good B → R64 B <= 1 →
  good (R * 0.2126 + G * 0.7152 + B * 0.0722)
  ∧ R64 (R * 0.2126 + G * 0.7152 + B * 0.0722) <= 1.
Proof.
  intros HR HR1 HG HG1 HB HB1.
  pose proof (good_nonneg _ HR). pose proof (good_nonneg _ HG).
  pose proof (good_nonneg _ HB).
  destruct (mul_hi R 0.2126 0.2126 HR ltac:(const) ltac:(const)) as [Hp1 Hp1'].
  { r64 0.2126%float. nra. }
  destruct (mul_hi G 0.7152 0.7152 HG ltac:(const) ltac:(const)) as [Hp2 Hp2'].
  { r64 0.7152%float. nra. }
  destruct (mul_hi B 0.0722 0.0722 HB ltac:(const) ltac:(const)) as [Hp3 Hp3'].
  { r64 0.0722%float. nra. }
  destruct (add_hi _ _ (0.2126 + 0.7152)%float Hp1 Hp2 ltac:(const)) as [Hs Hs'].
  { r64 0.2126%float. r64 0.7152%float. r64 (0.2126 + 0.7152)%float. lra. }
  destruct (add_hi _ _ 1%float Hs Hp3 ltac:(const)) as [HY HY'].
  { r64 0.2126%float. r64 0.7152%float. r64 (0.2126 + 0.7152)%float.
    r64 0.0722%float. r64 1%float. lra. }
  split; [done|]. r64 1%float. lra.
Qed.

Lemma f_lab_bounds t :
  good t → R64 t <= 1 →
  good (f_lab pow t)
  ∧ R64 (16 / 116)%float <= R64 (f_lab pow t)
  ∧ R64 (f_lab pow t) <= 1.
Proof.
  intros Ht Ht1. unfold f_lab. cbv zeta.
  destruct (216 / 24389 <? t)%float eqn:Hb.
  - assert ((t <=? 1)%float = true) as Hle.
    { apply leb_good; [done|const|]. r64 1%float. lra. }
    pose proof (Hcbrt t ltac:(by rewrite Hb, Hle)) as H.
    apply between_good in H as (Hg & H1 & H2); [|const..].
    split_and!; [done|done|]. r64 1%float. lra.
  - apply ltb_good_false in Hb; [|const|done].
    pose proof (good_nonneg _ Ht).
    destruct (mul_hi (24389 / 27) t 9 ltac:(const) Ht ltac:(const)) as [Hk Hk'].
    { r64 (24389 / 27)%float. r64 (216 / 24389)%float. r64 9%float. lra. }
    pose proof (good_nonneg _ Hk).
    destruct (add_hi _ 16 25 Hk ltac:(const) ltac:(const)) as [Hu Hu'].
    { r64 9%float. r64 16%float. r64 25%float. lra. }
    assert (R64 16 <= R64 (24389 / 27 * t + 16)) as Hu16.
    { apply (add_lo _ _ 25); [done|const|const| |const|].
      - r64 9%float. r64 16%float. r64 25%float. lra.
      - r64 16%float. lra. }
    destruct (div_hi _ 116 1 Hu ltac:(const) ltac:(const)) as [Hf Hf'].
    { r64 25%float. r64 116%float. r64 1%float. lra. }
    split_and!; [done| |r64 1%float; lra].
    apply (div_lo _ _ 1); [done|const|const| |const|].
    + r64 25%float. r64 116%float. r64 1%float. lra.
    + r64 (16 / 116)%float. r64 116%float. r64 16%float. lra.
Qed.

Lemma lightness_bounds fy :
  good fy → R64 (16 / 116)%float <= R64 fy → R64 fy <= 1 →
  ((0 <=? 116 * fy - 16) && (116 * fy - 16 <=? 100))%float = true.
Proof.
  intros Hg Hlo Hhi.
  destruct (good_above (16 / 116)%float fy 4969489243995030 (-55)
              ltac:(by vm_compute) Hg Hlo) as [->|Habove]; [by vm_compute|].
  assert (F2Q (4969489243995030 + 1) (-55)
          = (4969489243995031 # 36028797018963968)) as Hv by (by vm_compute).
  rewrite Hv in Habove. clear Hv Hlo.
  destruct (mul_hi 116 fy 116 ltac:(const) Hg ltac:(const)) as [Hw Hw'].
  { r64 116%float. lra. }
  assert (R64 16 <= R64 (116 * fy)) as Hw16.
  { apply (mul_lo _ _ 116); [const|done|const| |const|].
    - r64 116%float. lra.
    - r64 116%float. r64 16%float. lra. }
  destruct (sub_hi _ 16 100 Hw ltac:(const) Hw16 ltac:(const)) as [HL HL'].
  { r64 116%float. r64 16%float. r64 100%float. lra. }
  apply andb_true_intro. split.
  - apply leb_good; [const|done|]. pose proof (good_nonneg _ HL).
    r64 0%float. lra.
  - by apply leb_good; [done|const|].
Qed.

Lemma lab_lightness r g b :
  (0 ≤ r ≤ 255)%Z → (0 ≤ g ≤ 255)%Z → (0 ≤ b ≤ 255)%Z →
  ((0 <=? (lab_of_rgb pow r g b).1.1)
   && ((lab_of_rgb pow r g b).1.1 <=? 100))%float = true.
Proof.
  intros Hr Hg Hb.
  destruct (unit_interval _ (srgb_to_linear_unit r Hr)) as [HR HR1].
  destruct (unit_interval _ (srgb_to_linear_unit g Hg)) as [HG HG1].
  destruct (unit_interval _ (srgb_to_linear_unit b Hb)) as [HB HB1].
  destruct (luminance_unit _ _ _ HR HR1 HG HG1 HB HB1) as [HY HY1].
  unfold lab_of_rgb, rgb_to_xyz, xyz_to_lab. cbv zeta. cbn [fst].
  set (Y := (_ * 0.2126 + _ * 0.7152 + _ * 0.0722)%float) in *.
  destruct (div_hi Y 1 1 HY ltac:(const) ltac:(const)) as [Ht Ht1].
  { r64 1%float. lra. }
  assert (R64 (Y / 1) <= 1) as Ht1' by (r64 1%float; lra).
  destruct (f_lab_bounds _ Ht Ht1') as (Hf & Hf1 & Hf2).
  by apply lightness_bounds.
Qed.

End Lightness.

(** ** The lightness of the average colour *)

(** C9: the conversion of the channel averages to Lab is a function of
    the averages and of the values of [**] alone: with a power function
    that returns the same values it returns the same triple.  And for
    channels within 0..255 the lightness [L] lies within [0, 100], in
    binary64, for every power function that keeps [x ** 2.4] within
    [0, 1] for [x] within [0, 1], and [t ** (1/3)] within [16/116, 1] for
    [t] above [216/24389] and at most 1 (the exact cube root is above
    6/29 there). *)
Theorem lab_lightness_range (pow : float → float → float) (r g b : Z) :
  (∀ pow' : float → float → float,
     (∀ x y, pow' x y = pow x y) →
     Posters.lab_of_rgb pow' r g b = Posters.lab_of_rgb pow r g b)
  ∧ ((∀ x, ((0 <=? x) && (x <=? 1))%float = true →
           ((0 <=? pow x 2.4) && (pow x 2.4 <=? 1))%float = true) →
     (∀ t, ((216 / 24389 <? t) && (t <=? 1))%float = true →
           ((16 / 116 <=? pow t (1 / 3)) && (pow t (1 / 3) <=? 1))%float = true) →
     (0 ≤ r ≤ 255)%Z → (0 ≤ g ≤ 255)%Z → (0 ≤ b ≤ 255)%Z →
     ((0 <=? (Posters.lab_of_rgb pow r g b).1.1)
      && ((Posters.lab_of_rgb pow r g b).1.1 <=? 100))%float = true).
Proof.
  split.
  - intros pow' Hext.
    unfold Posters.lab_of_rgb, Posters.rgb_to_xyz, Posters.xyz_to_lab,
      Posters.f_lab, Posters.srgb_to_linear.
    cbv zeta. by rewrite !Hext.
  - intros Hlin Hcbrt Hr Hg Hb. by apply lab_lightness.
Qed.

Lemma lab_lightness_range_witness :
  ((0 <=? (Posters.lab_of_rgb (λ _ _, 1%float) 200 120 40).1.1)
   && ((Posters.lab_of_rgb (λ _ _, 1%float) 200 120 40).1.1 <=? 100))%float
  = true.
Proof.
  apply (lab_lightness_range (λ _ _, 1%float) 200 120 40).
  - intros x _. reflexivity.
  - intros t _. by vm_compute.
  - lia.
  - lia.
  - lia.
Defined.

(** * Further properties of the two programs *)

(** ** File names *)

Section Filenames.
Import Py Posters Shape.

Lemma chars_re_sub_class class s :
  chars (re_sub_class class s) = filter (λ c, c ∉ class) (chars s).
Proof.
  induction s as [|c s IH]; [done|]. cbn [re_sub_class].
  destruct (bool_decide_reflect (c ∈ class)) as [Hc|Hc]; cbn [chars list_ascii_of_string].
  - rewrite filter_cons_False by (by intros ?). apply IH.
  - rewrite filter_cons_True by done. f_equal. apply IH.
Qed.

Lemma chars_re_sub_spaces (P : ascii → Prop) in_run s :
  P " "%char → Forall P (chars s) → Forall P (chars (re_sub_spaces " " in_run s)).
Proof.
  intros Hsp. revert in_run. induction s as [|c s IH]; intros in_run Hs; [done|].
  apply Forall_cons in Hs as [Hc Hs]. cbn [re_sub_spaces].
  destruct (is_space c).
  - destruct in_run; [by apply IH|]. constructor; [done|by apply IH].
  - constructor; [done|by apply IH].
Qed.

Lemma chars_lstrip (P : ascii → Prop) s :
  Forall P (chars s) → Forall P (chars (lstrip s)).
Proof.
  induction s as [|c s IH]; [done|]. intros Hs. cbn [lstrip].
  destruct (is_space c); [|done]. apply Forall_cons in Hs as [_ Hs]. by apply IH.
Qed.

Lemma chars_rstrip (P : ascii → Prop) s :
  Forall P (chars s) → Forall P (chars (rstrip s)).
Proof.
  induction s as [|c s IH]; [done|]. intros [Hc Hs]%Forall_cons.
  cbn [rstrip]. specialize (IH Hs).
  destruct (rstrip s) as [|c' r'].
  - destruct (is_space c); [done|]. by constructor.
  - by constructor.
Qed.

(** The order of the solid characters is untouched by each step. *)
Lemma solid_re_sub_class s :
  filter solid (chars (re_sub_class forbidden_in_filenames s))
  = filter solid (chars s).
Proof.
  rewrite chars_re_sub_class. induction (chars s) as [|c l IH]; [done|].
  destruct (decide (c ∈ forbidden_in_filenames)) as [Hc|Hc].
  - rewrite filter_cons_False by (by intros ?).
    rewrite (filter_cons_False solid) by (by intros [_ ?]). done.
  - rewrite filter_cons_True by done.
    destruct (decide (solid c)).
    + rewrite !(filter_cons_True solid) by done. by f_equal.
    + rewrite !(filter_cons_False solid) by done. done.
Qed.

Lemma solid_re_sub_spaces in_run s :
  filter solid (chars (re_sub_spaces " " in_run s)) = filter solid (chars s).
Proof.
  revert in_run. induction s as [|c s IH]; intros in_run; [done|].
  cbn [re_sub_spaces]. destruct (is_space c) eqn:Hc.
  - cbn [chars list_ascii_of_string].
    rewrite (filter_cons_False solid c) by (intros [? _]; congruence).
    destruct in_run; [apply IH|].
    change (chars (" " +:+ ?x)) with (" "%char :: chars x).
    rewrite filter_cons_False by (by intros [? _]). apply IH.
  - cbn [chars list_ascii_of_string]. fold (chars s).
    fold (chars (re_sub_spaces " " false s)).
    destruct (decide (solid c)).
    + rewrite !(filter_cons_True solid) by done. f_equal. apply IH.
    + rewrite !(filter_cons_False solid) by done. apply IH.
Qed.

Lemma solid_lstrip s : filter solid (chars (lstrip s)) = filter solid (chars s).
Proof.
  induction s as [|c s IH]; [done|]. cbn [lstrip].
  destruct (is_space c) eqn:Hc; [|done].
  cbn [chars list_ascii_of_string].
  rewrite (filter_cons_False solid c) by (intros [? _]; congruence). apply IH.
Qed.

Lemma solid_rstrip s : filter solid (chars (rstrip s)) = filter solid (chars s).
Proof.
  induction s as [|c s IH]; [done|]. cbn [rstrip].
  cbn [chars list_ascii_of_string]. fold (chars s).
  destruct (rstrip s) as [|c' r'] eqn:Hr.
  - destruct (is_space c) eqn:Hc.
    + rewrite (filter_cons_False solid c) by (intros [? _]; congruence).
      by rewrite <- IH.
    + cbn [chars list_ascii_of_string].
      destruct (decide (solid c)).
      * rewrite !(filter_cons_True solid) by done. f_equal. by rewrite <- IH.
      * rewrite !(filter_cons_False solid) by done. by rewrite <- IH.
  - cbn [chars list_ascii_of_string]. fold (chars r').
    change (c' :: chars r') with (chars (String c' r')).
    destruct (decide (solid c)).
    + rewrite !(filter_cons_True solid) by done. by f_equal.
    + rewrite !(filter_cons_False solid) by done. done.
Qed.

Lemma sanitize_no_forbidden name :
  Forall (λ c, c ∉ forbidden_in_filenames) (chars (sanitize_filename name)).
Proof.
  unfold sanitize_filename, strip.
  apply chars_rstrip, chars_lstrip, chars_re_sub_spaces.
  - unfold forbidden_in_filenames. intros H.
    repeat (apply elem_of_cons in H as [[=]|H]). by apply elem_of_nil in H.
  - rewrite chars_re_sub_class. apply Forall_forall.
    by intros c [? _]%list_elem_of_filter.
Qed.

(** A sanitized name holds none of the nine characters that the first
    substitution removes, and every other character of the name that is not
    whitespace is still there, in the same order. *)
Theorem sanitize_filename_chars (name : string) :
  Forall (λ c, c ∉ forbidden_in_filenames) (chars (sanitize_filename name))
  ∧ filter solid (chars (sanitize_filename name)) = filter solid (chars name).
Proof.
  split; [apply sanitize_no_forbidden|]. unfold sanitize_filename, strip.
  by rewrite solid_rstrip, solid_lstrip, solid_re_sub_spaces, solid_re_sub_class.
Qed.

(** *** Whitespace *)

Lemma blank_re_sub_spaces in_run s :
  Forall (λ c, is_space c = true → c = " "%char)
    (chars (re_sub_spaces " " in_run s)).
Proof.
  revert in_run. induction s as [|c s IH]; intros in_run; [constructor|].
  cbn [re_sub_spaces]. destruct (is_space c) eqn:Hc.
  - destruct in_run; [apply IH|]. constructor; [done|apply IH].
  - constructor; [congruence|apply IH].
Qed.

Lemma spaced_re_sub_spaces in_run s :
  spaced in_run (re_sub_spaces " " in_run s).
Proof.
  revert in_run. induction s as [|c s IH]; intros in_run; [done|].
  cbn [re_sub_spaces]. destruct (is_space c) eqn:Hc.
  - destruct in_run; [apply IH|]. split; [done|]. apply (IH true).
  - split; [congruence|]. rewrite Hc. apply IH.
Qed.

Lemma lstrip_head s :
  match lstrip s with
  | EmptyString => True
  | String c _ => is_space c = false
  end.
Proof.
  induction s as [|c s IH]; [done|]. cbn [lstrip].
  by destruct (is_space c) eqn:Hc.
Qed.

Lemma lstrip_fixed s :
  match s with EmptyString => True | String c _ => is_space c = false end →
  lstrip s = s.
Proof. destruct s as [|c s]; [done|]. cbn [lstrip]. by intros ->. Qed.

Lemma spaced_lstrip b b' s : spaced b s → spaced b' (lstrip s).
Proof.
  revert b. induction s as [|c s IH]; intros b; [done|].
  cbn [lstrip spaced]. destruct (is_space c) eqn:Hc.
  - intros [_ Hs]. by apply (IH true).
  - intros [_ Hs]. cbn [spaced]. rewrite Hc. split; [congruence|done].
Qed.

Lemma rstrip_head s :
  match s with EmptyString => True | String c _ => is_space c = false end →
  match rstrip s with EmptyString => s = EmptyString | String c' _ =>
    match s with EmptyString => False | String c _ => c' = c end end.
Proof.
  destruct s as [|c s]; [done|]. intros Hc. cbn [rstrip].
  destruct (rstrip s); [by rewrite Hc|done].
Qed.

Lemma spaced_rstrip b s : spaced b s → spaced b (rstrip s).
Proof.
  revert b. induction s as [|c s IH]; intros b; [done|].
  intros [Hc Hs]. cbn [rstrip]. specialize (IH _ Hs).
  destruct (rstrip s) as [|c' r'].
  - destruct (is_space c) eqn:E; [done|]. cbn [spaced]. rewrite E.
    split; [congruence|done].
  - by split.
Qed.

Lemma rstrip_cons c s :
  rstrip (String c s) =
  match rstrip s with
  | EmptyString => if is_space c then EmptyString else String c EmptyString
  | r' => String c r'
  end.
Proof. done. Qed.

(** What [rstrip] leaves does not end in whitespace: stripping again
    changes nothing. *)
Lemma rstrip_rstrip s : rstrip (rstrip s) = rstrip s.
Proof.
  induction s as [|c s IH]; [done|]. rewrite rstrip_cons.
  destruct (rstrip s) as [|c' r'] eqn:Hr.
  - destruct (is_space c) eqn:Hc; [done|].
    rewrite rstrip_cons. cbn [rstrip]. by rewrite Hc.
  - rewrite rstrip_cons, IH. done.
Qed.

Lemma spaced_no_double b s : spaced b s → str_in "  " s = false.
Proof.
  revert b. induction s as [|c s IH]; intros b; [done|].
  intros [Hc Hs]. cbn [str_in]. rewrite (IH _ Hs), orb_false_r.
  cbn [String.prefix]. destruct (Ascii.ascii_dec " " c) as [<-|]; [|done].
  destruct s as [|c2 s]; [done|]. cbn [String.prefix].
  destruct (Ascii.ascii_dec " " c2) as [<-|]; [|done].
  destruct Hs as [H2 _]. by specialize (H2 eq_refl).
Qed.

Lemma re_sub_spaces_fixed b s :
  spaced b s → Forall (λ c, is_space c = true → c = " "%char) (chars s) →
  re_sub_spaces " " b s = s.
Proof.
  revert b. induction s as [|c s IH]; intros b; [done|].
  intros [Hc Hs] [Hb Hbs]%Forall_cons. cbn [re_sub_spaces].
  destruct (is_space c) eqn:Hsp.
  - rewrite (Hc eq_refl), (Hb eq_refl). rewrite (Hb eq_refl) in Hsp.
    change (" " +:+ ?x) with (String " " x). f_equal.
    apply IH; [|done]. by rewrite <- Hsp.
  - f_equal. by apply IH.
Qed.

Lemma re_sub_class_fixed class s :
  Forall (λ c, c ∉ class) (chars s) → re_sub_class class s = s.
Proof.
  induction s as [|c s IH]; [done|]. intros [Hc Hs]%Forall_cons.
  cbn [re_sub_class]. rewrite bool_decide_eq_false_2 by done.
  f_equal. by apply IH.
Qed.

Lemma sanitize_stripped name :
  lstrip (sanitize_filename name) = sanitize_filename name
  ∧ rstrip (sanitize_filename name) = sanitize_filename name.
Proof.
  unfold sanitize_filename, strip.
  set (t := re_sub_spaces " " false (re_sub_class forbidden_in_filenames name)).
  split.
  - apply lstrip_fixed. pose proof (lstrip_head t) as Hh.
    pose proof (rstrip_head (lstrip t)) as Hr.
    destruct (lstrip t) as [|c r]; [done|]. specialize (Hr Hh).
    destruct (rstrip (String c r)); [done|]. by subst.
  - apply rstrip_rstrip.
Qed.

(** The shape of a sanitized name: its only whitespace is the space
    character, it neither begins nor ends with one, and no two spaces are
    adjacent. *)
Theorem sanitize_filename_whitespace (name : string) :
  Forall (λ c, is_space c = true → c = " "%char) (chars (sanitize_filename name))
  ∧ lstrip (sanitize_filename name) = sanitize_filename name
  ∧ rstrip (sanitize_filename name) = sanitize_filename name
  ∧ str_in "  " (sanitize_filename name) = false.
Proof.
  destruct (sanitize_stripped name) as [Hl Hr]. split_and!; [|done|done|].
  - unfold sanitize_filename, strip.
    apply chars_rstrip, chars_lstrip, blank_re_sub_spaces.
  - unfold sanitize_filename, strip.
    apply (spaced_no_double false), spaced_rstrip, (spaced_lstrip false).
    apply spaced_re_sub_spaces.
Qed.

(** Sanitizing is idempotent: a sanitized name is left as it is. *)
Theorem sanitize_filename_idempotent (name : string) :
  sanitize_filename (sanitize_filename name) = sanitize_filename name.
Proof.
  destruct (sanitize_stripped name) as [Hl Hr].
  pose proof (sanitize_no_forbidden name) as Hf.
  assert (Forall (λ c, is_space c = true → c = " "%char)
            (chars (sanitize_filename name))) as Hb.
  { unfold sanitize_filename, strip.
    apply chars_rstrip, chars_lstrip, blank_re_sub_spaces. }
  assert (spaced false (sanitize_filename name)) as Hs.
  { unfold sanitize_filename, strip.
    apply spaced_rstrip, (spaced_lstrip false), spaced_re_sub_spaces. }
  unfold sanitize_filename at 1.
  rewrite re_sub_class_fixed by done.
  rewrite re_sub_spaces_fixed by done.
  unfold strip. by rewrite Hl, Hr.
Qed.

End Filenames.

(** ** More on the ranking loop *)

Section EngineMore.
Import Py Posters Spec.

Variable fetch : string → option (bytes * Z * Z * string).
Variable score : bytes → Z → Z → Q.
Variable min_width : Z.

Local Abbreviation step := (scan_step fetch score min_width).
Local Abbreviation loop := (scan_loop fetch score min_width).
Local Abbreviation exam := (examine fetch score min_width).

Lemma loop_all_rejected st ordered :
  Forall (rejected fetch score min_width) ordered →
  ∃ st', loop st ordered = Exhausted st' ∧ best st' = best st.
Proof.
  revert st. induction ordered as [|u l IH]; intros st Hall; [by eexists|].
  apply Forall_cons in Hall as [Hu Hl]. cbn [scan_loop].
  rewrite scan_step_examine.
  destruct Hu as [Hu|[Hu|Hu]]; rewrite Hu.
  - destruct (IH (with_fetched u st) Hl) as (st' & Hst' & Hb). by exists st'.
  - destruct (IH (with_checked (with_fetched u st)) Hl) as (st' & Hst' & Hb).
    by exists st'.
  - destruct (IH (with_checked (with_fetched u st)) Hl) as (st' & Hst' & Hb).
    by exists st'.
Qed.

Lemma loop_best_none st ordered :
  best st = None →
  match loop st ordered with
  | Crashed _ => True
  | e => best (final_state e) = None →
         Forall (rejected fetch score min_width) ordered
  end.
Proof.
  revert st. induction ordered as [|u l IH]; intros st Hb; [by constructor|].
  cbn [scan_loop]. pose proof (step_best fetch score min_width st u) as Hsb.
  rewrite scan_step_examine in *.
  destruct (exam u) as [| | | |e] eqn:Hu.
  - specialize (IH (with_fetched u st) Hb).
    destruct (loop _ l); try done; intros ?; constructor; try (by left); by apply IH.
  - specialize (IH (with_checked (with_fetched u st)) Hb).
    destruct (loop _ l); try done; intros ?; constructor;
      try (by right; left); by apply IH.
  - done.
  - specialize (IH (with_checked (with_fetched u st)) Hb).
    destruct (loop _ l); try done; intros ?; constructor;
      try (by right; right); by apply IH.
  - rewrite Hb in Hsb. cbn [improves] in Hsb. cbv zeta in Hsb |- *.
    match type of Hsb with best (flow_state ?f) = _ => destruct f as [st1|why st1|st1] eqn:Hf end;
      cbn [flow_state] in Hsb.
    + destruct (loop_best_decreases fetch score min_width st1 l e Hsb)
        as (b' & Hb' & _).
      destruct (loop st1 l); try done; cbn [final_state] in *; congruence.
    + cbn [final_state]. congruence.
    + done.
Qed.

(** "Not found" is the answer exactly when every candidate is rejected:
    [rank] returns [(None, None)] if and only if each URL of the list fails
    to download, is too narrow or is not landscape enough. *)
Theorem rank_none_iff (ordered : list string) :
  rank fetch score min_width ordered = Returned None
  ↔ Forall (rejected fetch score min_width) ordered.
Proof.
  rewrite rank_result_of. unfold scan. split.
  - pose proof (loop_best_none scan_init ordered eq_refl) as H.
    destruct (loop scan_init ordered) as [st|why st|st]; cbn [result_of];
      [| |done].
    all: destruct (best st) as [[[s d] x]|] eqn:Hb; [done|].
    all: intros _; by apply H.
  - intros Hall.
    destruct (loop_all_rejected scan_init ordered Hall) as (st' & -> & Hb).
    cbn [result_of]. by rewrite Hb.
Qed.

(** An image whose height is zero and whose width reaches the floor makes
    the call raise ([ZeroDivisionError] of [w / h]) as soon as the scan
    gets to it, whatever was found before. *)
Theorem zero_height_raises pre url post st data w ct :
  scan fetch score min_width pre = Exhausted st →
  fetch url = Some (data, w, 0%Z, ct) →
  (min_width <= w)%Z →
  rank fetch score min_width (pre ++ url :: post) = Raised.
Proof.
  intros Hpre Hurl Hw. rewrite rank_result_of. unfold scan in *.
  rewrite loop_app, Hpre. cbn [scan_loop]. rewrite scan_step_examine.
  unfold examine. rewrite Hurl.
  destruct (w <? min_width)%Z eqn:E; [apply Z.ltb_lt in E; lia|].
  done.
Qed.

(** No URL is downloaded twice in a run of [fetch_best_landscape_any]: the
    URLs fetched are pairwise distinct, whatever the sources gave. *)
Theorem no_url_fetched_twice (probe : list string) :
  NoDup (fetched (final_state (scan fetch score min_width (dedup probe)))).
Proof.
  destruct (loop_fetched fetch score min_width scan_init (dedup probe)) as [k Hk].
  unfold scan. rewrite Hk. cbn [fetched scan_init app].
  eapply sublist_NoDup; [apply NoDup_dedup_loop|apply sublist_take].
Qed.

End EngineMore.

Section EngineMoreRuns.
Import Py Posters Spec.

Lemma rank_none_iff_witness :
  rank Stub.fetch Stub.score MIN_LANDSCAPE_WIDTH Stub2.all_rejected
  = Returned None.
Proof.
  apply (proj2 (rank_none_iff Stub.fetch Stub.score MIN_LANDSCAPE_WIDTH
                  Stub2.all_rejected)).
  repeat constructor; by vm_compute.
Defined.

Lemma zero_height_raises_witness :
  rank Stub2.fetch Stub.score MIN_LANDSCAPE_WIDTH Stub2.small_then_flat
  = Raised.
Proof.
  eapply (zero_height_raises Stub2.fetch Stub.score MIN_LANDSCAPE_WIDTH
            ["http://small/x.jpg"; "http://dead/1"] "http://a/flat.gif"
            ["http://a/two.png"]).
  - by vm_compute.
  - by vm_compute.
  - by vm_compute.
Defined.

End EngineMoreRuns.

(** ** The choice among the suggestions *)

Section FeedProps.
Import Py Posters Feed.

Lemma key_lt_trans a b c :
  key_lt a b = true → key_lt b c = true → key_lt a c = true.
Proof.
  destruct a as [[[] []] y1], b as [[[] []] y2], c as [[[] []] y3];
    cbn; try done; rewrite ?Z.ltb_lt; lia.
Qed.

Lemma key_lt_neg_trans a b c :
  key_lt a b = false → key_lt b c = false → key_lt a c = false.
Proof.
  destruct a as [[[] []] y1], b as [[[] []] y2], c as [[[] []] y3];
    cbn; try done; rewrite ?Z.ltb_ge; lia.
Qed.

Lemma key_lt_asym a b : key_lt a b = true → key_lt b a = false.
Proof.
  destruct a as [[[] []] y1], b as [[[] []] y2];
    cbn; try done; rewrite ?Z.ltb_lt, ?Z.ltb_ge; lia.
Qed.

Section Sort.
Context {A : Type} (key : A → bool * bool * Z).

(** The head of the sorted list is the first entry of the greatest key. *)
Lemma head_sort_reverse (l : list A) :
  l ≠ [] →
  ∃ x pre post,
    head (sort_reverse key l) = Some x ∧ l = pre ++ x :: post
    ∧ (∀ y, y ∈ pre → key_lt (key y) (key x) = true)
    ∧ (∀ y, y ∈ post → key_lt (key x) (key y) = false).
Proof.
  induction l as [|a l IH]; [done|]. intros _.
  destruct l as [|b l].
  - exists a, [], []. split_and!; [done..| |]; by intros ? ?%elem_of_nil.
  - destruct IH as (x & pre & post & Hx & Hl & Hpre & Hpost); [done|].
    change (sort_reverse key (a :: b :: l))
      with (insert_reverse key a (sort_reverse key (b :: l))).
    destruct (sort_reverse key (b :: l)) as [|x' s]; [done|].
    injection Hx as ->. cbn [insert_reverse].
    destruct (key_lt (key a) (key x)) eqn:Hax.
    + exists x, (a :: pre), post. rewrite Hl. split_and!; [done..| |done].
      intros y [->|?]%elem_of_cons; [done|by apply Hpre].
    + exists a, [], (b :: l). split_and!; [done..| |].
      * by intros ? ?%elem_of_nil.
      * intros y. rewrite Hl.
        intros [Hy|[->|Hy]%elem_of_cons]%elem_of_app; [|done|].
        -- destruct (key_lt (key a) (key y)) eqn:Hay; [|done].
           pose proof (key_lt_trans _ _ _ Hay (Hpre y Hy)). congruence.
        -- by eapply key_lt_neg_trans; [|apply Hpost].
Qed.

End Sort.

Lemma candidates_nonempty js : feed_items js ≠ [] → candidates js ≠ [].
Proof. unfold candidates. by destruct (filter _ _). Qed.

Lemma candidates_sub js x : x ∈ candidates js → x ∈ feed_items js.
Proof.
  unfold candidates. destruct (filter _ _) eqn:Hf; [done|].
  rewrite <- Hf. by intros [_ ?]%list_elem_of_filter.
Qed.

Lemma pick_imdb_title_eq js query :
  pick_imdb_title js query =
  match feed_items js with
  | [] => None
  | _ => head (sort_reverse (pick_key (strip (lower query))) (candidates js))
  end.
Proof.
  unfold pick_imdb_title, candidates.
  destruct (feed_items js) as [|a l]; [done|]. cbv zeta.
  by destruct (filter _ (a :: l)).
Qed.

(** Nothing is picked exactly when the feed is [None], has no ["d"], or
    its list is empty. *)
Theorem pick_imdb_title_none (js : feed) (query : string) :
  pick_imdb_title js query = None ↔ feed_items js = [].
Proof.
  rewrite pick_imdb_title_eq. split; [|by intros ->].
  destruct (feed_items js) as [|a l] eqn:Hi; [done|].
  destruct (head_sort_reverse (pick_key (strip (lower query))) (candidates js))
    as (x & ? & ? & -> & _); [|done].
  apply candidates_nonempty. by rewrite Hi.
Qed.

(** The pick is the first entry with the greatest key [(exact, starts,
    year)] among the entries that look like films (among all entries when
    none does): entries before it in the feed have a strictly smaller key,
    entries after it have no greater one. *)
Theorem pick_imdb_title_first_best (js : feed) (query : string) (x : suggestion) :
  pick_imdb_title js query = Some x →
  ∃ pre post,
    candidates js = pre ++ x :: post
    ∧ (∀ y, y ∈ pre →
         key_lt (pick_key (strip (lower query)) y)
                (pick_key (strip (lower query)) x) = true)
    ∧ (∀ y, y ∈ post →
         key_lt (pick_key (strip (lower query)) x)
                (pick_key (strip (lower query)) y) = false).
Proof.
  rewrite pick_imdb_title_eq.
  destruct (feed_items js) as [|a l] eqn:Hi; [done|].
  destruct (head_sort_reverse (pick_key (strip (lower query))) (candidates js))
    as (x' & pre & post & Hh & Hc & Hpre & Hpost).
  { apply candidates_nonempty. by rewrite Hi. }
  rewrite Hh. intros [= ->]. by exists pre, post.
Qed.

(** What the choice means for a caller: the pick is an entry of the feed;
    it looks like a film whenever some entry does; and its title is the
    query whenever that is so for one of the entries chosen from. *)
Theorem pick_imdb_title_prefers (js : feed) (query : string) (x : suggestion) :
  pick_imdb_title js query = Some x →
  x ∈ feed_items js
  ∧ ((∃ y, y ∈ feed_items js ∧ is_film y = true) → is_film x = true)
  ∧ ((∃ y, y ∈ candidates js ∧ exact_match query y) → exact_match query x).
Proof.
  intros Hpick.
  assert (x ∈ candidates js) as Hx.
  { rewrite pick_imdb_title_eq in Hpick.
    destruct (feed_items js) as [|a l] eqn:Hi; [done|].
    destruct (head_sort_reverse (pick_key (strip (lower query))) (candidates js))
      as (x' & pre & post & Hh & Hc & _).
    { apply candidates_nonempty. by rewrite Hi. }
    rewrite Hh in Hpick. injection Hpick as ->. rewrite Hc.
    apply elem_of_app. right. left. }
  split_and!.
  - by apply candidates_sub.
  - intros (y & Hy & Hf). unfold candidates in Hx.
    destruct (filter _ (feed_items js)) as [|f fs] eqn:Hfil.
    + assert (y ∈ filter (λ x, is_film x = true) (feed_items js)) as Hin
        by (by apply list_elem_of_filter).
      rewrite Hfil in Hin. by apply elem_of_nil in Hin.
    + rewrite <- Hfil in Hx. by apply list_elem_of_filter in Hx as [? _].
  - intros (y & Hy & Hex).
    rewrite pick_imdb_title_eq in Hpick.
    destruct (feed_items js) as [|a l] eqn:Hi; [done|].
    destruct (head_sort_reverse (pick_key (strip (lower query))) (candidates js))
      as (x' & pre & post & Hh & Hc & Hpre & Hpost).
    { apply candidates_nonempty. by rewrite Hi. }
    rewrite Hh in Hpick. injection Hpick as ->.
    unfold exact_match in *.
    assert (key_lt (pick_key (strip (lower query)) x)
                   (pick_key (strip (lower query)) y) = false) as Hxy.
    { rewrite Hc in Hy.
      apply elem_of_app in Hy as [Hy|[->|Hy]%elem_of_cons].
      - by apply key_lt_asym, Hpre.
      - destruct (key_lt _ _) eqn:E; [|done].
        by rewrite (key_lt_asym _ _ E) in E.
      - by apply Hpost. }
    unfold pick_key in Hxy. rewrite Hex in Hxy.
    destruct (bool_decide_reflect
                (lower (default "" (s_l x)) = strip (lower query))); [done|].
    rewrite (bool_decide_eq_true_2 (strip (lower query) = strip (lower query)))
      in Hxy by done.
    done.
Qed.

End FeedProps.

Section FeedRuns.
Import Py Posters Feed.

Lemma pick_imdb_title_first_best_witness :
  ∃ pre post,
    candidates Stub3.heat_feed = pre ++ Stub3.heat_1995 :: post
    ∧ (∀ y, y ∈ pre →
         key_lt (pick_key (strip (lower " HEAT ")) y)
                (pick_key (strip (lower " HEAT ")) Stub3.heat_1995) = true)
    ∧ (∀ y, y ∈ post →
         key_lt (pick_key (strip (lower " HEAT ")) Stub3.heat_1995)
                (pick_key (strip (lower " HEAT ")) y) = false).
Proof.
  apply (pick_imdb_title_first_best Stub3.heat_feed " HEAT ").
  by vm_compute.
Defined.

Lemma pick_imdb_title_prefers_witness :
  Stub3.a_bout_de_souffle ∈ feed_items Stub3.souffle_feed
  ∧ ((∃ y, y ∈ feed_items Stub3.souffle_feed ∧ is_film y = true) →
     is_film Stub3.a_bout_de_souffle = true)
  ∧ ((∃ y, y ∈ candidates Stub3.souffle_feed
           ∧ exact_match Stub3.souffle_query y) →
     exact_match Stub3.souffle_query Stub3.a_bout_de_souffle).
Proof.
  apply (pick_imdb_title_prefers Stub3.souffle_feed Stub3.souffle_query).
  by vm_compute.
Defined.

End FeedRuns.

(** ** The high-resolution variants of a poster URL *)

Section Variants.
Import Py Posters Shape ImageUrl.
Local Arguments String.append !_ _ / : simpl nomatch.

Lemma chars_app (a b : string) : chars (a +:+ b) = chars a ++ chars b.
Proof.
  induction a as [|c a IH]; [done|].
  change (chars (String c a +:+ b)) with (c :: chars (a +:+ b)).
  by rewrite IH.
Qed.

Lemma str_app_assoc (a b c : string) : (a +:+ b) +:+ c = a +:+ b +:+ c.
Proof.
  induction a as [|x a IH]; [done|].
  change ((String x a +:+ b) +:+ c) with (String x ((a +:+ b) +:+ c)).
  by rewrite IH.
Qed.

Lemma str_app_nil_r (a : string) : a +:+ "" = a.
Proof.
  induction a as [|x a IH]; [done|].
  change (String x a +:+ "") with (String x (a +:+ "")). by rewrite IH.
Qed.

Lemma str_length_app (a b : string) :
  String.length (a +:+ b) = String.length a + String.length b.
Proof.
  induction a as [|x a IH]; [done|].
  change (String.length (String x a +:+ b)) with (S (String.length (a +:+ b))).
  by rewrite IH.
Qed.

Lemma str_app_inv_head (a b c : string) : a +:+ b = a +:+ c → b = c.
Proof. induction a as [|x a IH]; [done|]. intros [= ?]. by apply IH. Qed.

Lemma str_app_inv_tail (a b c : string) : a +:+ c = b +:+ c → a = b.
Proof.
  revert b. induction a as [|x a IH]; intros [|y b]; [done| | |].
  - intros H. apply (f_equal String.length) in H.
    rewrite !str_length_app in H. cbn in H. lia.
  - intros H. apply (f_equal String.length) in H.
    rewrite !str_length_app in H. cbn in H. lia.
  - intros [= -> ?]. f_equal. by apply IH.
Qed.

Lemma span_no_dot_spec s :
  s = (span_no_dot s).1 +:+ (span_no_dot s).2
  ∧ "."%char ∉ chars (span_no_dot s).1.
Proof.
  induction s as [|c s [IH1 IH2]]; [split; [done|by intros ?%elem_of_nil]|].
  cbn [span_no_dot]. destruct (Ascii.eqb_spec c ".") as [->|Hc].
  - split; [done|by intros ?%elem_of_nil].
  - destruct (span_no_dot s) as [a b]. cbn in *. split; [by f_equal|].
    intros [?|?]%elem_of_cons; [congruence|done].
Qed.

Lemma span_no_dot_app flags rest :
  "."%char ∉ chars flags → span_no_dot (flags +:+ String "." rest) = (flags, String "." rest).
Proof.
  induction flags as [|c f IH]; [done|]. intros Hc. cbn [String.append span_no_dot].
  change (String c f +:+ ?x) with (String c (f +:+ x)). cbn [span_no_dot].
  destruct (Ascii.eqb_spec c ".") as [->|_].
  - destruct Hc. left.
  - rewrite IH; [done|]. intros ?. apply Hc. by right.
Qed.

Lemma span_line_spec s :
  s = (span_line s).1 +:+ (span_line s).2
  ∧ "010"%char ∉ chars (span_line s).1.
Proof.
  induction s as [|c s [IH1 IH2]]; [split; [done|by intros ?%elem_of_nil]|].
  cbn [span_line]. destruct (Ascii.eqb_spec c "010") as [->|Hc].
  - split; [done|by intros ?%elem_of_nil].
  - destruct (span_line s) as [a b]. cbn in *. split; [by f_equal|].
    intros [?|?]%elem_of_cons; [congruence|done].
Qed.

Lemma span_line_app q nl :
  "010"%char ∉ chars q → at_end nl = true → span_line (q +:+ nl) = (q, nl).
Proof.
  intros Hq Hnl. induction q as [|c q IH].
  - destruct nl as [|c r]; [done|]. cbn in Hnl.
    apply andb_true_iff in Hnl as [->%Ascii.eqb_eq Hr]. by destruct r.
  - change (String c q +:+ nl) with (String c (q +:+ nl)). cbn [span_line].
    destruct (Ascii.eqb_spec c "010") as [->|_].
    + destruct Hq. left.
    + rewrite IH; [done|]. intros ?. apply Hq. by right.
Qed.

Lemma match_qs_end_sound s qs :
  match_qs_end s = Some qs →
  ∃ nl, s = qs +:+ nl ∧ is_query qs ∧ at_end nl = true.
Proof.
  unfold match_qs_end.
  assert ((if at_end s then Some "" else None) = Some qs →
          ∃ nl, s = qs +:+ nl ∧ is_query qs ∧ at_end nl = true) as Hw.
  { destruct (at_end s) eqn:He; [|done]. intros [= <-].
    exists s. split_and!; [done|by left|done]. }
  destruct s as [|c r]; [done|].
  destruct (Ascii.eqb_spec c "?") as [->|_]; [|done].
  pose proof (span_line_spec r) as [Hr Hq].
  destruct (span_line r) as [q rem]. cbn in Hr, Hq.
  destruct (at_end rem) eqn:He; [|done]. intros [= <-].
  exists rem. split_and!; [by rewrite Hr|right; by exists q|done].
Qed.

Lemma match_qs_end_complete qs nl :
  is_query qs → at_end nl = true → match_qs_end (qs +:+ nl) = Some qs.
Proof.
  intros [->|(q & -> & Hq)] Hnl; unfold match_qs_end.
  - rewrite str_app_nil, Hnl. destruct nl as [|c r]; [done|].
    cbn in Hnl. apply andb_true_iff in Hnl as [->%Ascii.eqb_eq _]. done.
  - change (String "?" q +:+ nl) with (String "?" (q +:+ nl)).
    cbn [Ascii.eqb Bool.eqb]. rewrite span_line_app by done. by rewrite Hnl.
Qed.

Lemma first_ext_qs_sound alts s g qs :
  first_ext_qs alts s = Some (g, qs) →
  ∃ nl, s = g +:+ qs +:+ nl ∧ lower g ∈ alts ∧ is_query qs ∧ at_end nl = true.
Proof.
  induction alts as [|a alts IH]; [done|]. cbn [first_ext_qs].
  assert (first_ext_qs alts s = Some (g, qs) →
          ∃ nl, s = g +:+ qs +:+ nl ∧ lower g ∈ a :: alts
                ∧ is_query qs ∧ at_end nl = true) as Hnext.
  { intros (nl & ? & ? & ? & ?)%IH. exists nl. split_and!; [done|by right|done..]. }
  destruct (match_lit_i a s) as [[g' r]|] eqn:Hm; [|done].
  destruct (match_qs_end r) as [qs'|] eqn:Hq; [|done].
  intros [= <- <-]. apply match_lit_i_sound in Hm as [-> <-].
  apply match_qs_end_sound in Hq as (nl & -> & ? & ?).
  exists nl. split_and!; [done|left|done..].
Qed.

Lemma first_ext_qs_complete alts g qs nl :
  lower g ∈ alts → is_query qs → at_end nl = true →
  is_Some (first_ext_qs alts (g +:+ qs +:+ nl)).
Proof.
  intros Hin Hq Hnl. induction alts as [|a alts IH]; [by apply elem_of_nil in Hin|].
  cbn [first_ext_qs].
  destruct (match_lit_i a (g +:+ qs +:+ nl)) as [[g' r]|] eqn:Hm.
  - destruct (match_qs_end r) eqn:Hr; [by eexists|].
    apply elem_of_cons in Hin as [<-|Hin]; [|by apply IH].
    rewrite match_lit_i_complete in Hm. injection Hm as <- <-.
    by rewrite match_qs_end_complete in Hr.
  - apply elem_of_cons in Hin as [<-|Hin]; [|by apply IH].
    by rewrite match_lit_i_complete in Hm.
Qed.

Lemma match_dot_ext_qs_sound s g qs :
  match_dot_ext_qs s = Some (g, qs) →
  ∃ nl, s = "." +:+ g +:+ qs +:+ nl ∧ lower g ∈ ext_alts
        ∧ is_query qs ∧ at_end nl = true.
Proof.
  destruct s as [|c r]; [done|]. cbn [match_dot_ext_qs].
  destruct (Ascii.eqb_spec c ".") as [->|_]; [|done].
  intros (nl & -> & ? & ? & ?)%first_ext_qs_sound. by exists nl.
Qed.

Lemma match_after_prefix_sound s ext qs :
  match_after_prefix s = Some (ext, qs) →
  ∃ mid nl, s = mid +:+ "." +:+ ext +:+ qs +:+ nl ∧ is_v1_flags mid
            ∧ lower ext ∈ ext_alts ∧ is_query qs ∧ at_end nl = true.
Proof.
  unfold match_after_prefix.
  assert (match_dot_ext_qs s = Some (ext, qs) →
          ∃ mid nl, s = mid +:+ "." +:+ ext +:+ qs +:+ nl ∧ is_v1_flags mid
            ∧ lower ext ∈ ext_alts ∧ is_query qs ∧ at_end nl = true) as Hplain.
  { intros (nl & ? & ? & ? & ?)%match_dot_ext_qs_sound.
    exists "", nl. split_and!; [done|by left|done..]. }
  destruct (match_lit_i "_v1_" s) as [[v r]|] eqn:Hv; [|done].
  pose proof (span_no_dot_spec r) as [Hr Hf].
  destruct (span_no_dot r) as [flags r']. cbn in Hr, Hf.
  destruct (match_dot_ext_qs r') as [[g q]|] eqn:Hm; [|done].
  intros [= -> ->].
  apply match_dot_ext_qs_sound in Hm as (nl & -> & ? & ? & ?).
  apply match_lit_i_sound in Hv as [-> Hlow].
  exists (v +:+ flags), nl. split_and!; [|right; by exists v, flags|done..].
  by rewrite Hr, str_app_assoc.
Qed.

Lemma match_after_prefix_complete mid ext qs nl :
  is_v1_flags mid → lower ext ∈ ext_alts → is_query qs → at_end nl = true →
  is_Some (match_after_prefix (mid +:+ "." +:+ ext +:+ qs +:+ nl)).
Proof.
  intros Hmid He Hq Hnl. unfold match_after_prefix.
  pose proof (first_ext_qs_complete ext_alts ext qs nl He Hq Hnl) as [m Hm].
  destruct Hmid as [->|(v & flags & -> & Hv & Hf)].
  - rewrite str_app_nil. change ("." +:+ ?x) with (String "." x).
    assert (match_lit_i "_v1_" (String "." (ext +:+ qs +:+ nl)) = None)
      as -> by done.
    cbn [match_dot_ext_qs Ascii.eqb Bool.eqb]. rewrite Hm. by eexists.
  - rewrite str_app_assoc, <- Hv, match_lit_i_complete.
    change ("." +:+ ?x) with (String "." x).
    rewrite span_no_dot_app by done. cbn [match_dot_ext_qs Ascii.eqb Bool.eqb].
    rewrite Hm. by eexists.
Qed.

Lemma match_imdb_url_from_sound p rest prefix ext qs :
  match_imdb_url_from p rest = Some (prefix, ext, qs) →
  ∃ skipped s, rest = skipped +:+ s ∧ prefix = p +:+ skipped
               ∧ ("010"%char ∉ chars skipped)
               ∧ match_after_prefix s = Some (ext, qs)
               ∧ ∀ k1 k2, skipped = k1 +:+ k2 → k2 ≠ "" →
                          match_after_prefix (k2 +:+ s) = None.
Proof.
  revert p. induction rest as [|c r IH]; intros p; cbn [match_imdb_url_from].
  - destruct (match_after_prefix "") as [[e q]|] eqn:Hm; [|done].
    intros [= <- <- <-]. exists "", "".
    split_and!; [done|by rewrite str_app_nil_r|by intros ?%elem_of_nil|done|].
    by intros [|? ?] [|? ?].
  - destruct (match_after_prefix (String c r)) as [[e q]|] eqn:Hm.
    + intros [= <- <- <-]. exists "", (String c r).
      split_and!; [done|by rewrite str_app_nil_r|by intros ?%elem_of_nil|done|].
      by intros [|? ?] [|? ?].
    + destruct (Ascii.eqb_spec c "010") as [->|Hc]; [done|].
      intros (skipped & s & -> & -> & Hs & Hm' & Hmin)%IH.
      exists (String c skipped), s. split_and!; [done| | |done|].
      * by rewrite str_app_assoc.
      * intros [?|?]%elem_of_cons; [congruence|done].
      * intros [|c1 k1] k2.
        -- rewrite str_app_nil. by intros <- _.
        -- change (String c1 k1 +:+ k2) with (String c1 (k1 +:+ k2)).
           intros [= <- ->] ?. by apply (Hmin k1 k2).
Qed.

Lemma match_imdb_url_from_complete p skipped s :
  "010"%char ∉ chars skipped → is_Some (match_after_prefix s) →
  is_Some (match_imdb_url_from p (skipped +:+ s)).
Proof.
  revert p. induction skipped as [|c k IH]; intros p Hk Hs.
  - rewrite str_app_nil. destruct Hs as [[e q] Hs].
    destruct s; cbn [match_imdb_url_from]; rewrite Hs; by eexists.
  - change (String c k +:+ s) with (String c (k +:+ s)).
    cbn [match_imdb_url_from].
    destruct (match_after_prefix (String c (k +:+ s))) as [[e q]|]; [by eexists|].
    destruct (Ascii.eqb_spec c "010") as [->|_].
    + destruct Hk. left.
    + apply IH; [|done]. intros ?. apply Hk. by right.
Qed.

(** The variants, by the size flag each one carries. *)
Lemma variants_by_tag prefix ext qs :
  ((λ h, prefix +:+ "_V1_FMjpg_UY" +:+ pretty h +:+ "_." +:+ ext +:+ qs)
     <$> hi_res_sizes)
  ++ ((λ w, prefix +:+ "_V1_FMjpg_UX" +:+ pretty w +:+ "_." +:+ ext +:+ qs)
        <$> hi_res_sizes)
  ++ [prefix +:+ "_V1_." +:+ ext +:+ qs]
  = (λ tag, prefix +:+ "_V1_" +:+ tag +:+ "." +:+ ext +:+ qs) <$> variant_tags.
Proof.
  unfold hi_res_sizes, variant_tags. cbn [fmap list_fmap app].
  repeat (f_equal; [f_equal; by vm_compute|]). done.
Qed.

Lemma match_imdb_url_sound url prefix ext qs :
  match_imdb_url url = Some (prefix, ext, qs) →
  ∃ mid nl, splits url prefix mid ext qs nl.
Proof.
  destruct url as [|c r]; [done|]. cbn [match_imdb_url].
  destruct (Ascii.eqb_spec c "010") as [->|Hc]; [done|].
  intros (skipped & s & -> & -> & Hk & Hm & _)%match_imdb_url_from_sound.
  apply match_after_prefix_sound in Hm as (mid & nl & -> & ? & ? & ? & ?).
  exists mid, nl. unfold splits. split_and!; try done.
  all: cbn; try done.
  all: try (intros [?|?]%elem_of_cons; [congruence|done]).
  all: try (by rewrite str_app_assoc).
Qed.

(** The lazy prefix: no reading of the URL has a shorter one. *)
Lemma match_imdb_url_shortest url prefix ext qs :
  match_imdb_url url = Some (prefix, ext, qs) →
  ∀ prefix' mid' ext' qs' nl',
    splits url prefix' mid' ext' qs' nl' →
    String.length prefix ≤ String.length prefix'.
Proof.
  destruct url as [|c r]; [done|]. cbn [match_imdb_url].
  destruct (Ascii.eqb_spec c "010") as [->|Hc]; [done|].
  intros (skipped & s & Hr & -> & Hk & Hm & Hmin)%match_imdb_url_from_sound.
  intros prefix' mid' ext' qs' nl' (Hurl & Hne & Hnl & Hmid & He & Hq & Hend).
  destruct prefix' as [|c' k1]; [done|].
  change (String c' k1 +:+ ?x) with (String c' (k1 +:+ x)) in Hurl.
  injection Hurl as <- Hurl.
  change (String c "" +:+ skipped) with (String c skipped).
  cbn [String.length].
  destruct (decide (String.length k1 < String.length skipped)) as [Hlt|]; [|lia].
  exfalso. rewrite Hr in Hurl. symmetry in Hurl.
  destruct (str_app_eq_app _ _ _ _ Hurl) as (k & -> & Hk'); [lia|].
  assert (is_Some (match_after_prefix (k +:+ s))) as [m Hsome].
  { rewrite <- Hk'. by apply match_after_prefix_complete. }
  rewrite (Hmin k1 k) in Hsome; [done|done|].
  intros ->. rewrite str_app_nil_r in Hlt. lia.
Qed.

Lemma match_imdb_url_complete url prefix mid ext qs nl :
  splits url prefix mid ext qs nl → is_Some (match_imdb_url url).
Proof.
  intros (-> & Hne & Hnl & Hmid & He & Hq & Hend).
  destruct prefix as [|c k]; [done|]. cbn [String.append match_imdb_url].
  destruct (Ascii.eqb_spec c "010") as [->|_].
  - destruct Hnl. left.
  - apply match_imdb_url_from_complete.
    + intros ?. apply Hnl. by right.
    + by apply match_after_prefix_complete.
Qed.

Lemma variants_inj prefix rest :
  Inj (=) (=) (λ tag : string, prefix +:+ "_V1_" +:+ tag +:+ rest).
Proof.
  intros t1 t2 H. apply str_app_inv_head in H.
  change ("_V1_" +:+ ?x) with ("_V1_" +:+ x) in H.
  apply (str_app_inv_head "_V1_") in H. by apply str_app_inv_tail in H.
Qed.

Lemma variants_NoDup url : NoDup (imdb_hi_res_variants url).
Proof.
  unfold imdb_hi_res_variants.
  destruct (match_imdb_url url) as [[[prefix ext] qs]|]; [|apply NoDup_singleton].
  rewrite variants_by_tag.
  apply (NoDup_fmap_2 _ (Inj0:=variants_inj prefix ("." +:+ ext +:+ qs))).
  apply (bool_decide_unpack _). by vm_compute.
Qed.

Lemma variants_length url :
  1 ≤ length (imdb_hi_res_variants url) ≤ 17.
Proof.
  unfold imdb_hi_res_variants.
  destruct (match_imdb_url url) as [[[prefix ext] qs]|]; cbn; lia.
Qed.

(** [imdb_hi_res_variants] never answers with an empty list and never
    lists a URL twice.  It answers with the URL alone, and then the URL has
    no reading as prefix, optional [_V1_] flags, dot, extension, optional
    query string; or it has such readings, and for the one with the
    shortest prefix the answer is the seventeen URLs made of that prefix,
    [_V1_], a size flag (heights 6000 down to 2000, then widths, then
    none), the dot, the extension and the query string.  Flags that the
    URL has stand after the shortest prefix, so they are dropped. *)
Theorem imdb_hi_res_variants_shape (url : string) :
  NoDup (imdb_hi_res_variants url)
  ∧ ((imdb_hi_res_variants url = [url]
      ∧ ∀ prefix mid ext qs nl, ¬ splits url prefix mid ext qs nl)
     ∨ ∃ prefix mid ext qs nl,
         splits url prefix mid ext qs nl
         ∧ (∀ prefix' mid' ext' qs' nl',
              splits url prefix' mid' ext' qs' nl' →
              String.length prefix ≤ String.length prefix')
         ∧ imdb_hi_res_variants url
           = (λ tag, prefix +:+ "_V1_" +:+ tag +:+ "." +:+ ext +:+ qs)
               <$> variant_tags).
Proof.
  split; [apply variants_NoDup|].
  unfold imdb_hi_res_variants.
  destruct (match_imdb_url url) as [[[prefix ext] qs]|] eqn:Hm.
  - rewrite variants_by_tag. right.
    pose proof (match_imdb_url_shortest _ _ _ _ Hm) as Hshort.
    apply match_imdb_url_sound in Hm as (mid & nl & Hs).
    by exists prefix, mid, ext, qs, nl.
  - left. split; [done|]. intros prefix mid ext qs nl Hs.
    apply match_imdb_url_complete in Hs as [m Hs]. congruence.
Qed.

(** Every URL of that reading gets the seventeen variants. *)
Theorem imdb_hi_res_variants_complete (url prefix mid ext qs nl : string) :
  splits url prefix mid ext qs nl →
  length (imdb_hi_res_variants url) = 17.
Proof.
  intros [[[p e] q] Hm]%match_imdb_url_complete.
  unfold imdb_hi_res_variants. by rewrite Hm.
Qed.

End Variants.

Section VariantsRuns.
Import Py Posters Shape ImageUrl.

Lemma imdb_hi_res_variants_complete_witness :
  length (imdb_hi_res_variants
            "https://m.media-amazon.com/images/M/abc._V1_UX128_AL_.JPG?x=1")
  = 17.
Proof.
  apply (imdb_hi_res_variants_complete _
           "https://m.media-amazon.com/images/M/abc." "_V1_UX128_AL_" "JPG"
           "?x=1" "").
  unfold splits. split_and!.
  - done.
  - done.
  - apply (bool_decide_unpack _). by vm_compute.
  - right. exists "_V1_", "UX128_AL_". split_and!; [done..|].
    apply (bool_decide_unpack _). by vm_compute.
  - apply (bool_decide_unpack _). by vm_compute.
  - right. exists "x=1". split; [done|].
    apply (bool_decide_unpack _). by vm_compute.
  - done.
Defined.

End VariantsRuns.

(** ** The poster and landscape look-ups *)

Section FirstHit.
Import Py.
Context {A B : Type} (body : A → option B).

Lemma prefix_sublist (l1 l2 : list A) : l1 `prefix_of` l2 → l1 `sublist_of` l2.
Proof. intros [k ->]. by apply sublist_inserts_r. Qed.

Lemma for_first_some xs v seen :
  for_first body xs = (Some v, seen) →
  ∃ pre x post, xs = pre ++ x :: post ∧ seen = pre ++ [x]
                ∧ body x = Some v ∧ Forall (λ y, body y = None) pre.
Proof.
  revert seen. induction xs as [|a xs IH]; intros seen; cbn [for_first]; [done|].
  destruct (body a) as [b|] eqn:Ha.
  - intros [= <- <-]. exists [], a, xs. by split_and!.
  - destruct (for_first body xs) as [r s] eqn:Hr. intros [= -> <-].
    destruct (IH _ eq_refl) as (pre & x & post & -> & -> & ? & ?).
    exists (a :: pre), x, post. split_and!; [done..|by constructor].
Qed.

Lemma for_first_none xs seen :
  for_first body xs = (None, seen) →
  seen = xs ∧ Forall (λ y, body y = None) xs.
Proof.
  revert seen. induction xs as [|a xs IH]; intros seen; cbn [for_first].
  - by intros [= <-].
  - destruct (body a) as [b|] eqn:Ha; [done|].
    destruct (for_first body xs) as [r s] eqn:Hr. intros [= -> <-].
    destruct (IH _ eq_refl) as [-> ?]. split; [done|by constructor].
Qed.

Lemma for_first_seen xs : (for_first body xs).2 `prefix_of` xs.
Proof.
  induction xs as [|a xs IH]; cbn [for_first]; [done|].
  destruct (body a) as [b|].
  - by apply (prefix_cons a [] xs), prefix_nil.
  - destruct (for_first body xs) as [r s]. by apply prefix_cons.
Qed.

End FirstHit.

Section PosterLookup.
Import Py Posters.

Variable url_quote : string → string.
Variable get_json : string → feed.
Variable fetch : string → option (bytes * Z * Z * string).
Variable avg_color_lab : bytes → option (float * float * float).

Local Abbreviation suggest := (imdb_suggest url_quote get_json).
Local Abbreviation lookup :=
  (fetch_poster_imdb url_quote get_json fetch avg_color_lab).
Local Abbreviation at_url := (poster_at fetch avg_color_lab).

Lemma poster_at_some min_height url data ext lab :
  at_url min_height url = Some (data, ext, lab) →
  ∃ w h ct, fetch url = Some (data, w, h, ct)
            ∧ (min_height ≤ h)%Z ∧ (w < h)%Z
            ∧ avg_color_lab data = Some lab
            ∧ ext = infer_ext url (Some ct).
Proof.
  unfold poster_at. destruct (fetch url) as [[[[d w] h] ct]|]; [|done].
  destruct (_ && _) eqn:Hc; [|done].
  destruct (avg_color_lab d) as [l|] eqn:Hl; [|done].
  intros [= <- <- <-]. apply andb_prop in Hc as [? ?].
  exists w, h, ct. split_and!; [done|lia|lia|done|done].
Qed.

(** The URLs that are requested: none, or a beginning of the variants of
    the image URL of the pick. *)
Lemma lookup_requests title min_height :
  (lookup title min_height).2 = []
  ∨ ∃ x img,
      pick_imdb_title (suggest title) title = Some x
      ∧ s_image_url x = Some img
      ∧ lookup title min_height
        = for_first (at_url min_height) (imdb_hi_res_variants img).
Proof.
  unfold fetch_poster_imdb.
  assert (match suggest title with
          | Some _ => pick_imdb_title (suggest title) title
          | None => None
          end = pick_imdb_title (suggest title) title) as ->.
  { by destruct (suggest title). }
  destruct (pick_imdb_title (suggest title) title) as [x|]; [|by left].
  destruct (s_image_url x) as [img|] eqn:Hi; [|by left].
  destruct (truthy (Some img)); [|by left].
  right. by exists x, img.
Qed.

(** [fetch_poster_imdb] of [posters.py] requests no URL twice and never
    more than seventeen URLs. *)
Theorem poster_lookup_budget (title : string) (min_height : Z) :
  NoDup (fetch_poster_imdb url_quote get_json fetch avg_color_lab
           title min_height).2
  ∧ length (fetch_poster_imdb url_quote get_json fetch avg_color_lab
              title min_height).2 ≤ 17.
Proof.
  destruct (lookup_requests title min_height) as [->|(x & img & _ & _ & ->)].
  { split; [constructor|cbn; lia]. }
  pose proof (for_first_seen (at_url min_height) (imdb_hi_res_variants img))
    as Hp.
  split.
  - eapply sublist_NoDup; [apply variants_NoDup|by apply prefix_sublist].
  - apply prefix_length in Hp. pose proof (variants_length img). lia.
Qed.

(** A poster that [fetch_poster_imdb] of [posters.py] returns is the image
    of the first size variant of the picked entry's image URL that
    downloads, is at least [min_height] high, is higher than wide and whose
    average colour can be computed; the variants before it were requested
    and gave nothing, those after it were not requested; the extension is
    inferred from that variant and its content type. *)
Theorem poster_lookup_first_portrait (title : string) (min_height : Z)
  (data : bytes) (ext : string) (lab : float * float * float)
  (seen : list string) :
  lookup title min_height = (Some (data, ext, lab), seen) →
  ∃ x img pre u post w h ct,
    pick_imdb_title (suggest title) title = Some x
    ∧ s_image_url x = Some img
    ∧ imdb_hi_res_variants img = pre ++ u :: post
    ∧ seen = pre ++ [u]
    ∧ Forall (λ y, at_url min_height y = None) pre
    ∧ fetch u = Some (data, w, h, ct)
    ∧ (min_height ≤ h)%Z ∧ (w < h)%Z
    ∧ avg_color_lab data = Some lab
    ∧ ext = infer_ext u (Some ct).
Proof.
  intros Hl.
  destruct (lookup_requests title min_height) as [He|(x & img & ? & ? & Hf)].
  { unfold fetch_poster_imdb in *.
    destruct (truthy _); [|done].
    rewrite Hl in He. cbn in He. subst seen.
    by apply for_first_some in Hl as (pre & ? & ? & _ & ?%app_cons_not_nil & _). }
  rewrite Hf in Hl.
  apply for_first_some in Hl as (pre & u & post & ? & ? & Hu & ?).
  apply poster_at_some in Hu as (w & h & ct & ? & ? & ? & ? & ?).
  by exists x, img, pre, u, post, w, h, ct.
Qed.

End PosterLookup.

Section ScriptLookups.
Import Py Script.

Variable url_quote : string → string.
Variable get_json : string → feed.
Variable fetch : string → option (bytes * Z * Z * string).

(** The unpacking of [re.split] into two names never succeeds: the list
    has one element when [_V1_] is absent and three when it is there. *)
Lemma imdb_hi_res_from_url_raises url : imdb_hi_res_from_url url = Raises.
Proof.
  unfold imdb_hi_res_from_url, re_split_group_once.
  by destruct (find_split _ _) as [[a b]|].
Qed.

(** [fetch_poster_imdb] of [download-images/script.py] never returns a
    poster: it raises or returns [(None, None)], whatever the network
    answers; with an override URL it raises. *)
Theorem script_poster_lookup_never_succeeds (title : string)
  (override_url : option string) (min_height : Z) :
  (fetch_poster_imdb url_quote get_json fetch title override_url min_height
   = Raises
   ∨ fetch_poster_imdb url_quote get_json fetch title override_url min_height
     = Returns None)
  ∧ (truthy override_url = true →
     fetch_poster_imdb url_quote get_json fetch title override_url min_height
     = Raises).
Proof.
  unfold fetch_poster_imdb. destruct (truthy override_url).
  - rewrite imdb_hi_res_from_url_raises. by split; [left|].
  - split; [|done]. destruct (imdb_suggest _ _ _) as [js|]; [|by left].
    destruct (truthy _); [|by right].
    rewrite imdb_hi_res_from_url_raises. by left.
Qed.

End ScriptLookups.

Section LookupRuns.
Import Py.

Lemma poster_lookup_first_portrait_witness :
  ∃ x img pre u post w h ct,
    Posters.pick_imdb_title
      (Posters.imdb_suggest Stub3.url_quote Stub3.get_json "Heat") "Heat"
    = Some x
    ∧ s_image_url x = Some img
    ∧ Posters.imdb_hi_res_variants img = pre ++ u :: post
    ∧ ["https://m.media-amazon.com/images/M/heat._V1_FMjpg_UY6000_.jpg";
       "https://m.media-amazon.com/images/M/heat._V1_FMjpg_UY5000_.jpg"]
      = pre ++ [u]
    ∧ Forall (λ y, Posters.poster_at Stub3.fetch Stub3.avg_color_lab
                     Posters.MIN_POSTER_HEIGHT y = None) pre
    ∧ Stub3.fetch u = Some (Stub.tagged 4, w, h, ct)
    ∧ (Posters.MIN_POSTER_HEIGHT ≤ h)%Z ∧ (w < h)%Z
    ∧ Stub3.avg_color_lab (Stub.tagged 4) = Some Stub3.grey
    ∧ ".jpg" = Posters.infer_ext u (Some ct).
Proof.
  apply (poster_lookup_first_portrait Stub3.url_quote Stub3.get_json
           Stub3.fetch Stub3.avg_color_lab "Heat" Posters.MIN_POSTER_HEIGHT).
  by vm_compute.
Defined.

End LookupRuns.

(** ** The search back ends *)

Section Gathering.
Import Py Posters.

(** A loop over matches whose body leaves [urls] alone or appends one URL
    that is not there yet; [made m d] says that match [m] gives URL [d]. *)
Context {M : Type}.
Variable add : list string → M → list string.
Variable made : M → string → Prop.
Hypothesis add_spec : ∀ urls m,
  add urls m = urls ∨ ∃ d, add urls m = urls ++ [d] ∧ (d ∉ urls) ∧ made m d.

Lemma foldl_add_keeps (Q : string → Prop) urls ms :
  (∀ m d, m ∈ ms → made m d → Q d) →
  NoDup urls ∧ Forall Q urls →
  NoDup (foldl add urls ms) ∧ Forall Q (foldl add urls ms).
Proof.
  revert urls. induction ms as [|m ms IH]; intros urls HQ [Hn Hf]; [done|].
  cbn [foldl]. apply IH.
  { intros m' d ? ?. apply (HQ m' d); [by right|done]. }
  destruct (add_spec urls m) as [->|(d & -> & Hd & Hm)]; [done|]. split.
  - apply NoDup_app. split_and!; [done| |apply NoDup_singleton].
    by intros x ? ->%list_elem_of_singleton.
  - apply Forall_app. split; [done|]. constructor; [|done].
    apply (HQ m d); [left|done].
Qed.

Lemma foldl_add_length urls ms :
  length (foldl add urls ms) ≤ length urls + length ms.
Proof.
  revert urls. induction ms as [|m ms IH]; intros urls; cbn [foldl length]; [lia|].
  etrans; [apply IH|].
  destruct (add_spec urls m) as [->|(d & -> & _)]; [lia|].
  rewrite length_app. cbn. lia.
Qed.

Lemma take_keeps (Q : string → Prop) n urls :
  NoDup urls ∧ Forall Q urls →
  length (take n urls) ≤ n ∧ NoDup (take n urls) ∧ Forall Q (take n urls).
Proof.
  intros [? ?]. split_and!.
  - rewrite length_take. lia.
  - eapply sublist_NoDup; [done|apply sublist_take].
  - by apply Forall_take.
Qed.

End Gathering.

Section SearchResults.
Import Py Posters Search.

Variable html_unescape : string → string.
Variable url_quote : string → string.
Variable url_unquote : string → option string.
Variable ddg_found bing_found google_found : string → option (list string).

Lemma append_new_cases urls d :
  (d ∈ urls ∧ append_new urls d = urls)
  ∨ ((d ∉ urls) ∧ append_new urls d = urls ++ [d]).
Proof.
  unfold append_new. destruct (bool_decide_reflect (d ∈ urls)); [by left|by right].
Qed.

Lemma append_new_spec urls d :
  append_new urls d = urls ∨ (append_new urls d = urls ++ [d] ∧ d ∉ urls).
Proof. destruct (append_new_cases urls d) as [[_ ->]|[? ->]]; [by left|by right]. Qed.

(** *** DuckDuckGo *)

Lemma ddg_add_spec urls m :
  ddg_add html_unescape urls m = urls
  ∨ ∃ d, ddg_add html_unescape urls m = urls ++ [d] ∧ (d ∉ urls)
         ∧ ddg_made html_unescape m d.
Proof.
  unfold ddg_add. destruct (names_any _ _) eqn:Hb; [by left|].
  destruct (append_new_spec urls (html_unescape m)) as [->|[-> ?]]; [by left|].
  right. by exists (html_unescape m).
Qed.

Lemma ddg_queries_keeps (Q : string → Prop) n urls terms :
  (∀ query found m d, query ∈ terms → ddg_found query = Some found →
                      m ∈ found → ddg_made html_unescape m d → Q d) →
  NoDup urls ∧ Forall Q urls →
  NoDup (ddg_queries html_unescape ddg_found n urls terms)
  ∧ Forall Q (ddg_queries html_unescape ddg_found n urls terms).
Proof.
  revert urls. induction terms as [|query rest IH]; intros urls HQ Hu; [done|].
  assert (∀ query' found m d, query' ∈ rest → ddg_found query' = Some found →
            m ∈ found → ddg_made html_unescape m d → Q d) as HQ'.
  { intros q' found m d ?. apply HQ. by right. }
  cbn [ddg_queries]. destruct (ddg_found query) as [found|] eqn:Hf;
    [|by apply IH].
  assert (NoDup (foldl (ddg_add html_unescape) urls found)
          ∧ Forall Q (foldl (ddg_add html_unescape) urls found)) as Hk.
  { apply (foldl_add_keeps _ _ ddg_add_spec); [|done].
    intros m d ? ?. apply (HQ query found m d); [left|done..]. }
  destruct (_ <=? _)%nat; [done|by apply IH].
Qed.

(** [ddg_image_search_any] returns at most [max_results] URLs, no URL
    twice, and each of them is the unescaped text of a match on the page of
    one of its five queries and names none of the blocked hosts. *)
Theorem ddg_results (title : string) (max_results : nat) :
  length (ddg_image_search_any html_unescape ddg_found title max_results)
  ≤ max_results
  ∧ NoDup (ddg_image_search_any html_unescape ddg_found title max_results)
  ∧ Forall (λ d, ∃ query found m,
                 query ∈ ddg_search_terms title
                 ∧ ddg_found query = Some found ∧ m ∈ found
                 ∧ d = html_unescape m
                 ∧ names_any ddg_blocked d = false)
      (ddg_image_search_any html_unescape ddg_found title max_results).
Proof.
  apply take_keeps, ddg_queries_keeps; [|by split; constructor].
  intros query found m d ? ? ? [? ?]. by exists query, found, m.
Qed.

(** *** Bing *)

Lemma bing_add_spec urls m :
  bing_add url_unquote urls m = urls
  ∨ ∃ d, bing_add url_unquote urls m = urls ++ [d] ∧ (d ∉ urls)
         ∧ bing_made url_unquote m d.
Proof.
  unfold bing_add, bing_made. destruct (url_unquote _) as [d|]; [|by left].
  destruct (names_any _ _) eqn:Hb; [by left|].
  destruct (startswith d "http") eqn:Hh; [|by left].
  destruct (append_new_spec urls d) as [->|[-> ?]]; [by left|].
  right. by exists d.
Qed.

Lemma bing_queries_keeps (Q : string → Prop) n urls terms :
  (∀ query found m d, query ∈ terms → bing_found query = Some found →
                      m ∈ found → bing_made url_unquote m d → Q d) →
  NoDup urls ∧ Forall Q urls →
  NoDup (bing_queries url_unquote bing_found n urls terms)
  ∧ Forall Q (bing_queries url_unquote bing_found n urls terms).
Proof.
  revert urls. induction terms as [|query rest IH]; intros urls HQ Hu; [done|].
  assert (∀ query' found m d, query' ∈ rest → bing_found query' = Some found →
            m ∈ found → bing_made url_unquote m d → Q d) as HQ'.
  { intros q' found m d ?. apply HQ. by right. }
  cbn [bing_queries]. destruct (bing_found query) as [found|] eqn:Hf;
    [|by apply IH].
  assert (NoDup (foldl (bing_add url_unquote) urls found)
          ∧ Forall Q (foldl (bing_add url_unquote) urls found)) as Hk.
  { apply (foldl_add_keeps _ _ bing_add_spec); [|done].
    intros m d ? ?. apply (HQ query found m d); [left|done..]. }
  destruct (_ <=? _)%nat; [done|by apply IH].
Qed.

(** [bing_image_search_any] returns at most [max_results] URLs, no URL
    twice, and each of them is the unquoted text of a match on the page of
    one of its four queries, starts with [http] and names none of the
    blocked hosts. *)
Theorem bing_results (title : string) (max_results : nat) :
  length (bing_image_search_any url_unquote bing_found title max_results)
  ≤ max_results
  ∧ NoDup (bing_image_search_any url_unquote bing_found title max_results)
  ∧ Forall (λ d, ∃ query found m,
                 query ∈ bing_search_terms title
                 ∧ bing_found query = Some found ∧ m ∈ found
                 ∧ url_unquote
                     (str_replace "\u0026" "&" (str_replace "\/" "/" m))
                   = Some d
                 ∧ names_any bing_blocked d = false
                 ∧ startswith d "http" = true)
      (bing_image_search_any url_unquote bing_found title max_results).
Proof.
  apply take_keeps, bing_queries_keeps; [|by split; constructor].
  intros query found m d ? ? ? (? & ? & ?). by exists query, found, m.
Qed.

(** *** Google *)

Lemma google_add_spec urls m :
  google_add html_unescape url_unquote urls m = urls
  ∨ ∃ d, google_add html_unescape url_unquote urls m = urls ++ [d]
         ∧ (d ∉ urls) ∧ google_made html_unescape url_unquote m d.
Proof.
  unfold google_add, google_made. destruct (url_unquote _) as [d|]; [|by left].
  destruct (names_any google_blocked _) eqn:Hb; [by left|].
  destruct (names_any google_thumbs _) eqn:Ht; [by left|].
  destruct (startswith d "http") eqn:Hh; [|by left].
  destruct (append_new_spec urls d) as [->|[-> ?]]; [by left|].
  right. by exists d.
Qed.

Lemma google_urls_keeps (Q : string → Prop) n urls search_urls :
  (∀ search_url found m d, search_url ∈ search_urls →
     google_found search_url = Some found → m ∈ found →
     google_made html_unescape url_unquote m d → Q d) →
  NoDup urls ∧ Forall Q urls →
  NoDup (google_urls html_unescape url_unquote google_found n urls search_urls)
  ∧ Forall Q
      (google_urls html_unescape url_unquote google_found n urls search_urls).
Proof.
  revert urls.
  induction search_urls as [|search_url rest IH]; intros urls HQ Hu; [done|].
  assert (∀ search_url' found m d, search_url' ∈ rest →
            google_found search_url' = Some found → m ∈ found →
            google_made html_unescape url_unquote m d → Q d) as HQ'.
  { intros q' found m d ?. apply HQ. by right. }
  cbn [google_urls]. destruct (google_found search_url) as [found|] eqn:Hf;
    [|by apply IH].
  assert (NoDup (foldl (google_add html_unescape url_unquote) urls found)
          ∧ Forall Q (foldl (google_add html_unescape url_unquote) urls found))
    as Hk.
  { apply (foldl_add_keeps _ _ google_add_spec); [|done].
    intros m d ? ?. apply (HQ search_url found m d); [left|done..]. }
  destruct (_ <=? _)%nat; [done|by apply IH].
Qed.

Lemma google_queries_keeps (Q : string → Prop) n urls terms :
  (∀ query search_url found m d, query ∈ terms →
     search_url ∈ google_search_urls url_quote query →
     google_found search_url = Some found → m ∈ found →
     google_made html_unescape url_unquote m d → Q d) →
  NoDup urls ∧ Forall Q urls →
  NoDup (google_queries html_unescape url_quote url_unquote google_found
           n urls terms)
  ∧ Forall Q (google_queries html_unescape url_quote url_unquote google_found
                n urls terms).
Proof.
  revert urls. induction terms as [|query rest IH]; intros urls HQ Hu; [done|].
  cbn [google_queries].
  assert (NoDup (google_urls html_unescape url_unquote google_found n urls
                   (google_search_urls url_quote query))
          ∧ Forall Q (google_urls html_unescape url_unquote google_found n urls
                        (google_search_urls url_quote query))) as Hk.
  { apply google_urls_keeps; [|done].
    intros search_url found m d ?. apply (HQ query); [left|done]. }
  destruct (_ <=? _)%nat; [done|]. apply IH; [|done].
  intros query' search_url found m d ?. apply HQ. by right.
Qed.

(** [google_image_search_any] returns at most [max_results] URLs, no URL
    twice, and each of them is the unquoted, unescaped text of a match on
    one of the two result pages of one of its nine queries, starts with
    [http] and names neither a blocked host nor a thumbnail word. *)
Theorem google_results (title : string) (max_results : nat) :
  length (google_image_search_any html_unescape url_quote url_unquote
            google_found title max_results)
  ≤ max_results
  ∧ NoDup (google_image_search_any html_unescape url_quote url_unquote
             google_found title max_results)
  ∧ Forall (λ d, ∃ query search_url found m,
                 query ∈ google_search_terms title
                 ∧ search_url ∈ google_search_urls url_quote query
                 ∧ google_found search_url = Some found ∧ m ∈ found
                 ∧ url_unquote (html_unescape m) = Some d
                 ∧ names_any google_blocked d = false
                 ∧ names_any google_thumbs d = false
                 ∧ startswith d "http" = true)
      (google_image_search_any html_unescape url_quote url_unquote
         google_found title max_results).
Proof.
  apply take_keeps, google_queries_keeps; [|by split; constructor].
  intros query search_url found m d ? ? ? ? (? & ? & ? & ?).
  by exists query, search_url, found, m.
Qed.

End SearchResults.

(** ** The movie databases *)

Section DirectUrls.
Import Py Posters Shape.
Local Arguments String.append !_ _ / : simpl nomatch.

Variable tmdb_backdrops : string → list string.
Variable re_sub_punctuation : string → string.
Variable try_free_image_apis : string → list string.
Variable google_image_search_any : string → nat → list string.
Variable ddg_image_search_any : string → nat → list string.
Variable bing_image_search_any : string → nat → list string.

Local Abbreviation direct := (direct_urls re_sub_punctuation).
Local Abbreviation databases :=
  (try_movie_databases tmdb_backdrops re_sub_punctuation).
Local Abbreviation probe :=
  (collect databases try_free_image_apis google_image_search_any
     ddg_image_search_any bing_image_search_any).

Lemma ascii_lower_space c : ascii_lower c = " "%char → c = " "%char.
Proof. destruct c as [[] [] [] [] [] [] [] []]; by vm_compute. Qed.

Lemma lower_no_space s : " "%char ∉ chars s → " "%char ∉ chars (lower s).
Proof.
  induction s as [|c r IH]; [done|]. cbn [lower].
  change (chars (String ?a ?b)) with (a :: chars b).
  rewrite !not_elem_of_cons. intros [Hc ?]. split; [|by apply IH].
  intros E. apply Hc. symmetry. by apply ascii_lower_space.
Qed.

Lemma replace_no_space s : " "%char ∉ chars (str_replace " " "-" s).
Proof.
  unfold str_replace. induction s as [|c r IH]; [by intros ?%elem_of_nil|].
  cbn [str_replace_from String.prefix String.length Nat.sub].
  destruct (Ascii.ascii_dec " " c) as [_|Hc].
  - destruct r; cbn [String.prefix String.append];
      change (chars (String ?a ?b)) with (a :: chars b);
      by apply not_elem_of_cons.
  - change (chars (String ?a ?b)) with (a :: chars b).
    by apply not_elem_of_cons.
Qed.

(** Whatever the other back ends answer, the list that is collected
    begins with the answer of the movie databases. *)
Lemma collect_starts (mdb free : string → list string)
  (google ddg bing : string → nat → list string) title :
  mdb title `prefix_of` (collect mdb free google ddg bing title).1.
Proof.
  unfold collect.
  destruct (length (mdb title) <? 10);
  match goal with |- context [(length ?l <? 20)] =>
    destruct (length l <? 20) end;
  match goal with |- context [(length ?l <? 30)] =>
    destruct (length l <? 30) end;
  match goal with |- context [(length ?l <? 40)] =>
    destruct (length l <? 40) end;
  cbn [fst]; rewrite <- ?(assoc_L (++)); try done; by eexists.
Qed.

(** [try_movie_databases] always ends with three wallpaper URLs made from
    the title.  They are pairwise distinct and hold no space; they are
    among the candidates of [fetch_best_landscape_any] whatever the
    network answers, so the de-duplicated candidate list has at least
    three entries and is never empty. *)
Theorem direct_urls_always_candidates (title : string) :
  direct title `suffix_of` databases title
  ∧ NoDup (direct title)
  ∧ Forall (λ u, " "%char ∉ chars u) (direct title)
  ∧ Forall (λ u, u ∈ dedup (probe title).1) (direct title)
  ∧ 3 ≤ length (dedup (probe title).1).
Proof.
  assert (NoDup (direct title)) as Hn.
  { unfold direct_urls. cbn. repeat constructor.
    - rewrite !not_elem_of_cons. split_and!; [done|done|by intros ?%elem_of_nil].
    - rewrite !not_elem_of_cons. split_and!; [done|by intros ?%elem_of_nil].
    - by intros ?%elem_of_nil. }
  assert (Forall (λ u, u ∈ dedup (probe title).1) (direct title)) as Hin.
  { apply Forall_forall. intros u Hu. unfold dedup.
    apply elem_of_dedup_loop. split; [|set_solver].
    eapply elem_of_prefix; [|apply collect_starts].
    unfold try_movie_databases. apply elem_of_app. by right. }
  split_and!; [|done| |done|].
  - by exists (tmdb_backdrops title).
  - pose proof (lower_no_space _
      (replace_no_space (strip (re_sub_punctuation title)))) as Hs.
    unfold direct_urls. cbv zeta.
    repeat constructor; rewrite !chars_app, !not_elem_of_app;
      (split_and!; [apply (bool_decide_unpack _); by vm_compute|done|
                    apply (bool_decide_unpack _); by vm_compute]).
  - change 3 with (length (direct title)).
    apply submseteq_length, NoDup_submseteq; [done|].
    by apply Forall_forall.
Qed.

End DirectUrls.

(** ** The suggestion request *)

Section Suggest.
Import Py Shape.

Variable url_quote : string → string.
Variable get_json : string → feed.

Lemma rstrip_empty s : rstrip s = "" ↔ blank s.
Proof.
  unfold blank. induction s as [|c r IH]; [split; [constructor|done]|].
  cbn [rstrip]. change (chars (String c r)) with (c :: chars r).
  rewrite Forall_cons. destruct (rstrip r) as [|c' r'] eqn:Hr.
  - destruct (is_space c) eqn:Hc.
    + split; [|done]. intros _. split; [done|by apply IH].
    + split; [done|]. intros [? _]. congruence.
  - split; [done|]. intros [_ Hb]. by apply IH in Hb.
Qed.

Lemma lstrip_blank s : blank (lstrip s) ↔ blank s.
Proof.
  unfold blank. induction s as [|c r IH]; [done|]. cbn [lstrip].
  destruct (is_space c) eqn:Hc; [|done].
  change (chars (String c r)) with (c :: chars r).
  rewrite Forall_cons, IH. naive_solver.
Qed.

Lemma re_sub_spaces_blank in_run s :
  blank (re_sub_spaces " " in_run s) ↔ blank s.
Proof.
  unfold blank. revert in_run. induction s as [|c r IH]; intros in_run; [done|].
  cbn [re_sub_spaces]. change (chars (String c r)) with (c :: chars r).
  destruct (is_space c) eqn:Hc.
  - destruct in_run.
    + rewrite Forall_cons, IH. naive_solver.
    + change (chars (" " +:+ ?x)) with (" "%char :: chars x).
      rewrite !Forall_cons, IH. naive_solver.
  - change (chars (String c ?x)) with (c :: chars x).
    by rewrite !Forall_cons, IH.
Qed.

Lemma strip_empty s : strip s = "" ↔ blank s.
Proof. unfold strip. by rewrite rstrip_empty, lstrip_blank. Qed.

Lemma re_sub_spaces_run repl s : blank s → re_sub_spaces repl true s = "".
Proof.
  unfold blank. induction s as [|c r IH]; [done|].
  change (chars (String c r)) with (c :: chars r).
  intros [Hc ?]%Forall_cons. cbn [re_sub_spaces]. rewrite Hc. by apply IH.
Qed.

(** [imdb_suggest] of [download-images/script.py] raises, on [slug[0]],
    exactly for the titles of whitespace only, the empty title included;
    for every other title it returns what the request gives. *)
Theorem script_imdb_suggest_raises_iff (title : string) :
  Script.imdb_suggest url_quote get_json title = Raises ↔ blank title.
Proof.
  unfold Script.imdb_suggest.
  rewrite <- (re_sub_spaces_blank false title), <- strip_empty.
  by destruct (strip _).
Qed.

(** [imdb_suggest] of [posters.py] replaces whitespace by underscores
    before it strips, so a non-empty title of whitespace only is looked
    up, as the slug [_]. *)
Theorem blank_title_is_looked_up (title : string) :
  blank title → title ≠ "" →
  Posters.imdb_suggest url_quote get_json title
  = get_json ("https://v2.sg.media-imdb.com/suggestion/_/"
              +:+ url_quote "_" +:+ ".json").
Proof.
  unfold blank. destruct title as [|c r]; [done|].
  change (chars (String c r)) with (c :: chars r).
  intros [Hc Hr]%Forall_cons _.
  unfold Posters.imdb_suggest. cbn [re_sub_spaces]. rewrite Hc.
  by rewrite (re_sub_spaces_run "_" r Hr).
Qed.

End Suggest.

(** ** The files that are written *)

Section FileNames.
Import Py Shape.

Lemma infer_ext_chars url content_type :
  Forall (λ c, c ∉ Posters.forbidden_in_filenames)
    (chars (Posters.infer_ext url content_type)).
Proof.
  assert (Posters.infer_ext url content_type
          ∈ [".jpg"; ".jpeg"; ".png"; ".webp"]) as Hr.
  { rewrite infer_ext_eq. pose proof (from_url_range url).
    destruct (mentions content_type "png"); [by repeat constructor|].
    destruct (mentions content_type "webp"); [by repeat constructor|].
    destruct (_ || _); [by repeat constructor|done]. }
  repeat (apply elem_of_cons in Hr as [->|Hr]);
    [apply (bool_decide_unpack _); by vm_compute..|].
  by apply elem_of_nil in Hr.
Qed.

(** The names of the files that [main] writes, in both programs, hold no
    slash, backslash or other character that [sanitize_filename] removes,
    whatever the title, the URL and the content type are: the files stay
    in the directory they are meant for. *)
Theorem file_names_hold_no_separator (title url : string)
  (content_type : option string) :
  Forall (λ c, c ∉ Posters.forbidden_in_filenames)
    (chars (Posters.poster_name (Posters.sanitize_filename title)
              (Posters.infer_ext url content_type)))
  ∧ Forall (λ c, c ∉ Posters.forbidden_in_filenames)
      (chars (Posters.landscape_name (Posters.sanitize_filename title)
                (Posters.infer_ext url content_type)))
  ∧ Forall (λ c, c ∉ Posters.forbidden_in_filenames)
      (chars (Script.poster_name (Script.sanitize_filename title)
                (Script.infer_ext url content_type)))
  ∧ Forall (λ c, c ∉ Posters.forbidden_in_filenames)
      (chars (Script.landscape_name (Script.sanitize_filename title)
                (Script.infer_ext url content_type))).
Proof.
  change (Script.infer_ext url content_type)
    with (Posters.infer_ext url content_type).
  change (Script.sanitize_filename title)
    with (Posters.sanitize_filename title).
  unfold Posters.poster_name, Posters.landscape_name, Script.poster_name,
    Script.landscape_name.
  rewrite !chars_app, !Forall_app.
  pose proof (sanitize_no_forbidden title).
  pose proof (infer_ext_chars url content_type).
  split_and!; try done; apply (bool_decide_unpack _); by vm_compute.
Qed.

End FileNames.

(** ** Dark colours *)

Section DarkColours.
Import Posters.
Variables pow pow' : float → float → float.

(** For channel averages up to 10 the conversion to Lab takes the linear
    branches only: the triple is the same whatever [pow] computes, and its
    lightness lies within 0 and 100. *)
Theorem dark_lab_needs_no_pow (r g b : Z) :
  (0 <= r <= 10)%Z → (0 <= g <= 10)%Z → (0 <= b <= 10)%Z →
  lab_of_rgb pow r g b = lab_of_rgb pow' r g b
  ∧ ((0 <=? (lab_of_rgb pow r g b).1.1)
     && ((lab_of_rgb pow r g b).1.1 <=? 100))%float = true.
Proof.
  intros Hr Hg Hb. split; [|by apply lightness_dark].
  assert (∀ x, (0 <= x <= 10)%Z →
            x ∈ [0; 1; 2; 3; 4; 5; 6; 7; 8; 9; 10]%Z) as Hin.
  { intros x Hx. rewrite !elem_of_cons.
    assert (x = 0 ∨ x = 1 ∨ x = 2 ∨ x = 3 ∨ x = 4 ∨ x = 5 ∨ x = 6 ∨ x = 7
            ∨ x = 8 ∨ x = 9 ∨ x = 10)%Z by lia. tauto. }
  apply Hin in Hr, Hg, Hb.
  assert (Forall (λ r, Forall (λ g, Forall (λ b,
            lab_of_rgb pow r g b = lab_of_rgb pow' r g b)
            [0; 1; 2; 3; 4; 5; 6; 7; 8; 9; 10]%Z)
            [0; 1; 2; 3; 4; 5; 6; 7; 8; 9; 10]%Z)
            [0; 1; 2; 3; 4; 5; 6; 7; 8; 9; 10]%Z) as Hall.
  { repeat (constructor; [repeat (constructor;
                            [repeat (constructor; [by vm_compute|])|])|]);
      constructor. }
  rewrite Forall_forall in Hall. specialize (Hall r Hr).
  rewrite Forall_forall in Hall. specialize (Hall g Hg).
  rewrite Forall_forall in Hall. by apply Hall.
Qed.

End DarkColours.

Section MiscRuns.
Import Py Shape.

Lemma blank_title_is_looked_up_witness :
  Posters.imdb_suggest Stub3.url_quote Stub3.get_json "  "
  = Stub3.get_json ("https://v2.sg.media-imdb.com/suggestion/_/"
                    +:+ Stub3.url_quote "_" +:+ ".json").
Proof.
  apply (blank_title_is_looked_up Stub3.url_quote Stub3.get_json "  ").
  - repeat constructor.
  - done.
Defined.

Lemma dark_lab_needs_no_pow_witness :
  Posters.lab_of_rgb (λ x _, x) 3 7 10 = Posters.lab_of_rgb (λ _ y, y) 3 7 10
  ∧ ((0 <=? (Posters.lab_of_rgb (λ x _, x) 3 7 10).1.1)
     && ((Posters.lab_of_rgb (λ x _, x) 3 7 10).1.1 <=? 100))%float = true.
Proof. apply (dark_lab_needs_no_pow (λ x _, x) (λ _ y, y) 3 7 10); lia. Defined.

End MiscRuns.

(** ** The Paramount landscape *)

Section Paramount.
Import Py Script.

Variable fetch : string → option (bytes * Z * Z * string).
Variable set_order : list string → list string.
Variable ddg_links : string → option (list string).
Variable url_unquote : string → option string.

Local Abbreviation variants := (try_paramount_variants set_order).
Local Abbreviation search := (ddg_search_paramount ddg_links url_unquote).
Local Abbreviation probes := (probe_list set_order ddg_links url_unquote).
Local Abbreviation landscape :=
  (fetch_landscape_paramount fetch set_order ddg_links url_unquote).

Lemma resized_step_spec url tokens urls size :
  append_new urls (resized set_order url tokens size) = urls
  ∨ ∃ d, append_new urls (resized set_order url tokens size) = urls ++ [d]
         ∧ (d ∉ urls) ∧ d = resized set_order url tokens size.
Proof.
  destruct (append_new_spec urls (resized set_order url tokens size))
    as [->|[-> ?]]; [by left|right; by eexists].
Qed.

(** [try_paramount_variants] lists no URL twice, lists the URL it was
    given, and lists at most ten URLs: the URL itself and what it becomes
    when its size tokens are replaced by one of the nine target sizes.
    A URL without a size token is listed alone. *)
Theorem paramount_variants_shape (url : string) :
  NoDup (variants url)
  ∧ url ∈ variants url
  ∧ length (variants url) ≤ 10
  ∧ Forall (λ u, u = url
                 ∨ ∃ size, size ∈ SIZE_TARGETS
                           ∧ u = resized set_order url (findall_sizes url) size)
      (variants url)
  ∧ (findall_sizes url = [] → variants url = [url]).
Proof.
  unfold try_paramount_variants. cbv zeta.
  set (Q := λ u : string,
         u = url ∨ ∃ size, size ∈ SIZE_TARGETS
                           ∧ u = resized set_order url (findall_sizes url) size).
  set (step := λ (variants : list string) (size : N * N),
         append_new variants (resized set_order url (findall_sizes url) size)).
  assert (NoDup (foldl step [] SIZE_TARGETS)
          ∧ Forall Q (foldl step [] SIZE_TARGETS)) as [Hn Hq].
  { apply (foldl_add_keeps step
             (λ size d, d = resized set_order url (findall_sizes url) size)).
    - intros urls size. apply resized_step_spec.
    - intros size d ? ->. right. by exists size.
    - by split; constructor. }
  assert (length (foldl step [] SIZE_TARGETS) ≤ 9) as Hl.
  { etrans; [apply (foldl_add_length step
               (λ size d, d = resized set_order url (findall_sizes url) size))|].
    - intros urls size. apply resized_step_spec.
    - done. }
  set (v := match findall_sizes url with
            | [] => []
            | _ => foldl step [] SIZE_TARGETS
            end).
  assert (NoDup v ∧ Forall Q v ∧ length v ≤ 9) as (Hnv & Hqv & Hlv).
  { unfold v. destruct (findall_sizes url); [|done].
    split_and!; [constructor|constructor|cbn; lia]. }
  assert (findall_sizes url = [] → v = []) as Hempty.
  { unfold v. by intros ->. }
  clearbody v.
  destruct (append_new_cases v url) as [[Hin ->]|[Hout ->]].
  - split_and!; [done|done|lia|done|].
    intros ->%Hempty. by apply elem_of_nil in Hin.
  - split_and!.
    + apply NoDup_app. split_and!; [done| |apply NoDup_singleton].
      by intros x ? ->%list_elem_of_singleton.
    + apply elem_of_app. right. left.
    + rewrite length_app. cbn. lia.
    + apply Forall_app. split; [done|]. constructor; [by left|done].
    + by intros ->%Hempty.
Qed.

Lemma paramount_variants_length url : length (variants url) ≤ 10.
Proof.
  unfold try_paramount_variants. cbv zeta.
  set (step := λ (variants : list string) (size : N * N),
         append_new variants (resized set_order url (findall_sizes url) size)).
  assert (length (foldl step [] SIZE_TARGETS) ≤ 9) as Hl.
  { etrans; [apply (foldl_add_length step
               (λ size d, d = resized set_order url (findall_sizes url) size))|].
    - intros urls size. apply resized_step_spec.
    - done. }
  set (v := match findall_sizes url with
            | [] => []
            | _ => foldl step [] SIZE_TARGETS
            end).
  assert (length v ≤ 9) as Hlv.
  { unfold v. destruct (findall_sizes url); [cbn; lia|done]. }
  clearbody v.
  destruct (append_new_cases v url) as [[_ ->]|[_ ->]]; [lia|].
  rewrite length_app. cbn. lia.
Qed.

(** [ddg_search_paramount] returns at most [max_results] URLs, each the
    unquoted text of a link of the result page and each naming the image
    server. *)
Theorem paramount_search_results (title : string) (max_results : nat) :
  length (search title max_results) ≤ max_results
  ∧ Forall (λ u, str_in CBSI_HOST u = true
                 ∧ ∃ links link,
                     ddg_links ("site:" +:+ CBSI_HOST +:+ " " +:+ quoted title
                                +:+ " 16 9") = Some links
                     ∧ link ∈ links ∧ url_unquote link = Some u)
      (search title max_results).
Proof.
  unfold ddg_search_paramount. cbv zeta.
  destruct (ddg_links _) as [links|] eqn:Hl;
    [|split; [cbn; lia|constructor]].
  destruct (mapM url_unquote links) as [urls|] eqn:Hm;
    [|split; [cbn; lia|constructor]].
  split; [rewrite length_take; lia|].
  apply Forall_take, Forall_forall. intros u [Hu Hin]%list_elem_of_filter.
  split; [done|]. apply mapM_Some_1 in Hm.
  apply list_elem_of_lookup in Hin as [i Hi].
  destruct (Forall2_lookup_r _ _ _ _ _ Hm Hi) as (link & Hlink & ?).
  exists links, link. split_and!; [done| |done].
  by eapply list_elem_of_lookup_2.
Qed.

Lemma search_length title max_results :
  length (search title max_results) ≤ max_results.
Proof.
  unfold ddg_search_paramount. cbv zeta.
  destruct (ddg_links _) as [links|]; [|cbn; lia].
  destruct (mapM url_unquote links) as [urls|]; [|cbn; lia].
  rewrite length_take. lia.
Qed.

Lemma length_concat_variants l :
  length (concat (variants <$> l)) ≤ length l * 10.
Proof.
  induction l as [|x l IH]; [done|]. cbn [fmap list_fmap concat length].
  rewrite length_app. pose proof (paramount_variants_length x). fold (fmap variants l).
  lia.
Qed.

Lemma landscape_at_some min_width url data ext :
  landscape_at fetch min_width url = Some (data, ext) →
  ∃ w h ct, fetch url = Some (data, w, h, ct)
            ∧ (min_width ≤ w)%Z ∧ (h < w)%Z
            ∧ ext = infer_ext url (Some ct).
Proof.
  unfold landscape_at. destruct (fetch url) as [[[[d w] h] ct]|]; [|done].
  destruct (_ && _) eqn:Hc; [|done].
  intros [= <- <-]. apply andb_prop in Hc as [? ?].
  exists w, h, ct. split_and!; [done|lia|lia|done].
Qed.

(** [fetch_landscape_paramount] requests no URL twice, and only variants
    of the override URL or, without one, of the search results.  It makes
    at most 120 requests, and at most ten for an override URL. *)
Theorem landscape_lookup_requests (title : string)
  (override_url : option string) (min_width : Z) :
  NoDup (landscape title override_url min_width).2
  ∧ Forall (λ u, u ∈ probes title override_url)
      (landscape title override_url min_width).2
  ∧ length (landscape title override_url min_width).2 ≤ 120
  ∧ (truthy override_url = true →
     length (landscape title override_url min_width).2 ≤ 10).
Proof.
  unfold fetch_landscape_paramount.
  pose proof (for_first_seen (landscape_at fetch min_width)
                (dedup (probes title override_url))) as Hp.
  assert (length (for_first (landscape_at fetch min_width)
                    (dedup (probes title override_url))).2
          ≤ length (probes title override_url)) as Hlen.
  { etrans; [by apply prefix_length|].
    unfold dedup. rewrite script_dedup_loop.
    apply sublist_length, sublist_dedup_loop. }
  unfold dedup in Hp |- *. rewrite script_dedup_loop in Hp |- *. split_and!.
  - eapply sublist_NoDup; [apply NoDup_dedup_loop|by apply prefix_sublist].
  - apply Forall_forall. intros u Hu.
    eapply (elem_of_dedup_loop ∅), elem_of_prefix; [exact Hu|exact Hp].
  - unfold dedup in Hlen. rewrite script_dedup_loop in Hlen.
    etrans; [exact Hlen|]. unfold probe_list.
    destruct (truthy override_url).
    + pose proof (paramount_variants_length (default "" override_url)). lia.
    + pose proof (length_concat_variants (search title 12)).
      pose proof (search_length title 12). nia.
  - intros Ht. unfold dedup in Hlen. rewrite script_dedup_loop in Hlen.
    etrans; [exact Hlen|]. unfold probe_list. rewrite Ht.
    apply paramount_variants_length.
Qed.

(** A landscape that [fetch_landscape_paramount] returns is the image of
    the first distinct variant that downloads, is at least [min_width]
    wide and is wider than high; the distinct variants before it were
    requested and gave nothing, and nothing after it was requested. *)
Theorem landscape_lookup_first_wide (title : string)
  (override_url : option string) (min_width : Z) (data : bytes)
  (ext : string) (seen : list string) :
  landscape title override_url min_width = (Some (data, ext), seen) →
  ∃ pre u post w h ct,
    dedup (probes title override_url) = pre ++ u :: post
    ∧ seen = pre ++ [u]
    ∧ Forall (λ y, landscape_at fetch min_width y = None) pre
    ∧ fetch u = Some (data, w, h, ct)
    ∧ (min_width ≤ w)%Z ∧ (h < w)%Z
    ∧ ext = infer_ext u (Some ct).
Proof.
  unfold fetch_landscape_paramount.
  intros (pre & u & post & ? & ? & Hu & ?)%for_first_some.
  apply landscape_at_some in Hu as (w & h & ct & ? & ? & ? & ?).
  by exists pre, u, post, w, h, ct.
Qed.

End Paramount.

Section ParamountRuns.
Import Py.

Lemma landscape_lookup_first_wide_witness :
  ∃ pre u post w h ct,
    Script.dedup
      (Script.probe_list Stub3.set_order Stub3.ddg_links Stub3.url_unquote
         "Heat" (Some "https://thumbnails.cbsig.net/heat_640x360.jpg"))
    = pre ++ u :: post
    ∧ ["https://thumbnails.cbsig.net/heat_7680x4320.jpg";
       "https://thumbnails.cbsig.net/heat_5120x2880.jpg";
       "https://thumbnails.cbsig.net/heat_4096x2304.jpg";
       "https://thumbnails.cbsig.net/heat_3840x2160.jpg"]
      = pre ++ [u]
    ∧ Forall (λ y, Script.landscape_at Stub3.fetch_still 2000 y = None) pre
    ∧ Stub3.fetch_still u = Some (Stub.tagged 7, w, h, ct)
    ∧ (2000 ≤ w)%Z ∧ (h < w)%Z
    ∧ ".jpg" = Script.infer_ext u (Some ct).
Proof.
  apply (landscape_lookup_first_wide Stub3.fetch_still Stub3.set_order
           Stub3.ddg_links Stub3.url_unquote "Heat"
           (Some "https://thumbnails.cbsig.net/heat_640x360.jpg") 2000).
  by vm_compute.
Defined.

End ParamountRuns.
